(** * sql-query-optimizer: the analysis core, embedded and verified

    The development follows [backend/core]: [parser.py] (the statement
    parser), [analyser.py] (clause usage and anti-patterns),
    [index_advisor.py] (index recommendations), [optimizer.py] (rewrite
    suggestions) and the request handler of [backend/api/main.py]; the
    plan transformation of [backend/database/plan_explainer.py] comes
    after them.

    The tokenizer is the external [sqlparse] package.  Its token tree is
    the input of every function below; the tree is modelled as data, and
    the few tokenizer methods the code calls are either computed from
    that data ([is_keyword], [normalized], [match], [token_next],
    [get_identifiers], [str]) or stored in the node as the answer the
    tokenizer gives ([get_real_name], [get_alias], [get_parent_name],
    [get_type]). *)

From Stdlib Require Import ZArith String Ascii List.
From stdpp Require Import base decidable option list sorting strings.

Local Open Scope Z_scope.
Local Open Scope stdpp_scope.

(** ** Python exceptions and the result monad *)

Inductive exn := IndexError | AttributeError | TypeError.

Inductive result (A : Type) :=
  | Ok (a : A)
  | Raise (e : exn).
Arguments Ok {A} a.
Arguments Raise {A} e.

Global Instance exn_eq_dec : EqDecision exn.
Proof. solve_decision. Defined.

Global Instance result_ret : MRet result := λ A, @Ok A.
Global Instance result_bind : MBind result := λ A B f m,
  match m with Ok a => f a | Raise e => Raise e end.
Global Instance result_fmap : FMap result := λ A B f m,
  match m with Ok a => Ok (f a) | Raise e => Raise e end.

Fixpoint foldM {A B} (f : B → A → result B) (b : B) (l : list A) : result B :=
  match l with
  | [] => Ok b
  | x :: l' => b' ← f b x; foldM f b' l'
  end.

(** ** Python values used by the code *)

(** [a or b] on [Optional[str]]: [None] and the empty string are falsy. *)
Definition py_or (a b : option string) : option string :=
  match a with
  | Some s => if decide (s = "") then b else Some s
  | None => b
  end.

(** Truth value of an [Optional[str]]. *)
Definition truthy (a : option string) : bool :=
  match a with
  | Some s => if decide (s = "") then false else true
  | None => false
  end.

Definition upper_ascii (c : ascii) : ascii :=
  let n := nat_of_ascii c in
  if (97 <=? n)%nat && (n <=? 122)%nat then ascii_of_nat (n - 32) else c.

(** [str.upper] on the ASCII letters keywords are made of. *)
Fixpoint upper (s : string) : string :=
  match s with
  | EmptyString => EmptyString
  | String c s' => String (upper_ascii c) (upper s')
  end.

(** [needle in s]. *)
Fixpoint str_contains (needle s : string) : bool :=
  String.prefix needle s ||
  match s with
  | EmptyString => false
  | String _ s' => str_contains needle s'
  end.

Fixpoint str_drop (n : nat) (s : string) : string :=
  match n, s with
  | O, _ => s
  | S n', String _ s' => str_drop n' s'
  | S _, EmptyString => EmptyString
  end.

(** [s.replace(old, new, 1)]: the leftmost occurrence only. *)
Fixpoint str_replace_first (old new s : string) : string :=
  if String.prefix old s then new +:+ str_drop (String.length old) s
  else match s with
       | EmptyString => EmptyString
       | String c s' => String c (str_replace_first old new s')
       end.

(** The strings of a list that holds no [None], if it holds none. *)
Fixpoint all_str (l : list (option string)) : option (list string) :=
  match l with
  | [] => Some []
  | Some s :: l' => (s ::.) <$> all_str l'
  | None :: _ => None
  end.

(** [sep.join(l)]: a [None] item is a [TypeError]. *)
Definition py_join (sep : string) (l : list (option string)) : result string :=
  match all_str l with
  | Some ss => Ok (String.concat sep ss)
  | None => Raise TypeError
  end.

(** [sorted(l)] on [Optional[str]] items.  Strings compare by code point;
    [None < x] and [x < None] raise [TypeError], and a sort of two or
    more items compares every item at least once. *)
Definition py_sorted_names (l : list (option string)) : result (list (option string)) :=
  match all_str l with
  | Some ss => Ok (Some <$> merge_sort String.le ss)
  | None => if decide (length l ≤ 1)%nat then Ok l else Raise TypeError
  end.

(** A column reference as the analyser builds it: [(alias, column)] with
    [column = token.get_name()], which the tokenizer may answer [None]. *)
Definition column_ref : Type := string * option string.

Definition opt_le (a b : option string) : Prop :=
  match a, b with
  | None, _ => True
  | Some _, None => False
  | Some x, Some y => String.le x y
  end.

(** Tuple order: first components, then second components. *)
Definition ref_le (p q : column_ref) : Prop :=
  (String.le p.1 q.1 ∧ p.1 ≠ q.1) ∨ (p.1 = q.1 ∧ opt_le p.2 q.2).

Global Instance opt_le_dec : RelDecision opt_le.
Proof. intros [a|] [b|]; simpl; apply _. Defined.

Global Instance ref_le_dec : RelDecision ref_le.
Proof. intros p q. unfold ref_le. apply _. Defined.

(** Two tuples whose comparison reaches [None < str] or [str < None]:
    equal aliases, different columns, one of them [None]. *)
Definition clash (p q : column_ref) : Prop :=
  p.1 = q.1 ∧ p.2 ≠ q.2 ∧ (p.2 = None ∨ q.2 = None).

Global Instance clash_dec : RelDecision clash.
Proof. intros p q. unfold clash. apply _. Defined.

(** [sorted(l)] on [(alias, column)] tuples of a set.  Two tuples that
    are neighbours in the order are compared with each other by any
    comparison sort, so the sort raises exactly when two tuples clash. *)
Definition py_sorted_refs (l : list column_ref) : result (list column_ref) :=
  if decide (Exists (λ p, Exists (clash p) l) l) then Raise TypeError
  else Ok (merge_sort ref_le l).

(** ** Insertion-ordered dictionaries *)

Section pydict.
Context {K V : Type} `{EqDecision K}.

Definition pydict := list (K * V).

Fixpoint dict_get (k : K) (d : pydict) : option V :=
  match d with
  | [] => None
  | (k', v) :: d' => if decide (k = k') then Some v else dict_get k d'
  end.

(** [d[k] = v]: a present key keeps its position, a new key goes last. *)
Fixpoint dict_set (k : K) (v : V) (d : pydict) : pydict :=
  match d with
  | [] => [(k, v)]
  | (k', v') :: d' =>
      if decide (k = k') then (k, v) :: d' else (k', v') :: dict_set k v d'
  end.

Definition dict_values (d : pydict) : list V := d.*2.
Definition dict_keys (d : pydict) : list K := d.*1.
End pydict.
Arguments pydict : clear implicits.

(** ** The token tree *)

(** Token types ([sqlparse.tokens]).  [T_Keyword] is [Keyword] itself;
    [T_DML], [T_DDL], [T_CTE] and [T_Order] are its sub-types. *)
Inductive ttype :=
  | T_Keyword | T_DML | T_DDL | T_CTE | T_Order
  | T_Name | T_Wildcard | T_Punctuation | T_Whitespace | T_Newline
  | T_Operator | T_Comparison | T_Number | T_String | T_Comment | T_Other.

(** Classes of token groups ([sqlparse.sql]). *)
Inductive sqlcls :=
  | C_Identifier | C_IdentifierList | C_Where | C_Comparison
  | C_Function | C_Parenthesis | C_Other.

Global Instance ttype_eq_dec : EqDecision ttype.
Proof. solve_decision. Defined.
Global Instance sqlcls_eq_dec : EqDecision sqlcls.
Proof. solve_decision. Defined.

(** What the tokenizer answers for a group: [get_real_name()],
    [get_alias()] and [get_parent_name()]. *)
Record names := Names {
  real_name : option string;
  alias : option string;
  parent_name : option string;
}.

Definition no_names : names := Names None None None.
Definition named (n : string) : names := Names (Some n) None None.
Definition aliased (n a : string) : names := Names (Some n) (Some a) None.
Definition dotted (parent n : string) : names := Names (Some n) None (Some parent).

#[local] Unset Elimination Schemes.

(** A leaf [Token(ttype, value)] or a [TokenList] of some class; the
    induction principle over the tree is [token_tree_ind]. *)
Inductive token :=
  | Tok (ty : ttype) (value : string)
  | TokList (c : sqlcls) (nm : names) (tokens : list token).

#[local] Set Elimination Schemes.

(** A parsed statement: its top-level tokens and what [get_type()] answers. *)
Record Statement := {
  tokens : list token;
  get_type : string;
}.

(** [ttype in T.Keyword]. *)
Definition keyword_ttype (ty : ttype) : bool :=
  match ty with
  | T_Keyword | T_DML | T_DDL | T_CTE | T_Order => true
  | _ => false
  end.

(** [ttype in T.Whitespace]. *)
Definition whitespace_ttype (ty : ttype) : bool :=
  match ty with
  | T_Whitespace | T_Newline => true
  | _ => false
  end.

(** A group has [ttype None], so it is neither keyword nor whitespace. *)
Definition is_keyword (t : token) : bool :=
  match t with Tok ty _ => keyword_ttype ty | TokList _ _ _ => false end.

Definition is_whitespace (t : token) : bool :=
  match t with Tok ty _ => whitespace_ttype ty | TokList _ _ _ => false end.

(** [str(token)]: the text of the leaves, left to right. *)
Fixpoint token_str (t : token) : string :=
  match t with
  | Tok _ v => v
  | TokList _ _ ts => String.concat "" (map token_str ts)
  end.

(** [token.normalized]: the upper-cased value of a keyword, the value
    of any other token. *)
Definition normalized (t : token) : string :=
  if is_keyword t then upper (token_str t) else token_str t.

(** [token.match(ttype, value)]: the very token type, and the value
    (compared upper-cased on keywords). *)
Definition token_match (t : token) (ty : ttype) (v : string) : bool :=
  match t with
  | Tok ty' val =>
      bool_decide (ty' = ty) &&
      (if keyword_ttype ty' then bool_decide (upper val = upper v)
       else bool_decide (val = v))
  | TokList _ _ _ => false
  end.

Definition is_class (c : sqlcls) (t : token) : bool :=
  match t with
  | TokList c' _ _ => bool_decide (c' = c)
  | Tok _ _ => false
  end.

(** [tlist.token_next(idx)[1]]: the first token after position [idx]
    that is not whitespace, [None] when there is none. *)
Definition token_next (ts : list token) (idx : nat) : option token :=
  List.find (λ t, negb (is_whitespace t)) (drop (S idx) ts).

(** [IdentifierList.get_identifiers()]. *)
Definition get_identifiers (ts : list token) : list token :=
  List.filter (λ t, negb (is_whitespace t || token_match t T_Punctuation ",")) ts.

(** [get_name()] is [get_alias() or get_real_name()]. *)
Definition get_name (nm : names) : option string :=
  py_or (alias nm) (real_name nm).

(** ** [parser.py]: the statement parser *)

(** Alias table: alias (or real name) to real name, both as the
    tokenizer answers them. *)
Definition AliasTable : Type := pydict (option string) (option string).

(** The body shared by the [Identifier] branch and the [IdentifierList]
    loop: [tables[x.get_alias() or x.get_real_name()] = x.get_real_name()].
    A leaf token has none of these methods. *)
Definition record_table (tables : AliasTable) (t : token) : result AliasTable :=
  match t with
  | TokList _ nm _ => Ok (dict_set (py_or (alias nm) (real_name nm)) (real_name nm) tables)
  | Tok _ _ => Raise AttributeError
  end.

Record SQLParser := {
  raw_sql : string;
  parsed : Statement;
}.

Definition is_table_keyword (t : token) : bool :=
  is_keyword t &&
  bool_decide (normalized t ∈ ["FROM"; "JOIN"; "LEFT JOIN"; "RIGHT JOIN"; "INNER JOIN"]).

(** One turn of the loop of [_get_tables_and_aliases]; the state is
    [(tables, from_or_join_seen)]. *)
Definition parser_step (st : AliasTable * bool) (t : token) : result (AliasTable * bool) :=
  let '(tables, from_or_join_seen) := st in
  '(tables, from_or_join_seen) ←
    (if from_or_join_seen then
       tables ←
         (match t with
          | TokList C_Identifier _ _ => record_table tables t
          | TokList C_IdentifierList _ ts => foldM record_table tables (get_identifiers ts)
          | _ => Ok tables
          end);
       Ok (tables,
           if negb (is_whitespace t || bool_decide (normalized t = ",")) then false
           else from_or_join_seen)
     else Ok (tables, from_or_join_seen));
  Ok (tables, if is_table_keyword t then true else from_or_join_seen).

(** [SQLParser._get_tables_and_aliases] (the cache of the result is
    left out: the function is pure). *)
Definition _get_tables_and_aliases (p : SQLParser) : result AliasTable :=
  fst <$> foldM parser_step ([], false) (tokens (parsed p)).

(** [SQLParser.extract_where_clause]. *)
Definition extract_where_clause (p : SQLParser) : option string :=
  token_str <$> List.find (is_class C_Where) (tokens (parsed p)).

(** [SQLParser.get_query_type]. *)
Definition get_query_type (p : SQLParser) : string := get_type (parsed p).

(** [extract_tables] and [analyze_column_usage] go through a Python
    [set].  A set is modelled by the list of its distinct elements;
    [list(s)] enumerates them in an order that depends on the hashes of
    the run, so it is a parameter: any permutation of the elements. *)
Record SetOrder := {
  list_of_set : ∀ A : Type, list A → list A;
  list_of_set_perm : ∀ (A : Type) (l : list A), list_of_set A l ≡ₚ l;
}.
Arguments list_of_set _ {A} _.

Definition py_set {A} `{EqDecision A} (l : list A) : list A := remove_dups l.

Definition set_add {A} `{EqDecision A} (s : list A) (x : A) : list A :=
  if decide (x ∈ s) then s else s ++ [x].

(** [SQLParser.extract_tables]: [sorted(list(set(t.values())))]. *)
Definition extract_tables (o : SetOrder) (p : SQLParser) : result (list (option string)) :=
  tables_with_aliases ← _get_tables_and_aliases p;
  py_sorted_names (list_of_set o (py_set (dict_values tables_with_aliases))).

(** ** [analyser.py]: clause usage and anti-patterns *)

Definition py_or_str (a : option string) (d : string) : string :=
  match py_or a (Some d) with Some s => s | None => d end.

(** [QueryAnalyzer._recursive_find_identifiers]: the references it adds
    to the set it is given, in the order of the calls to [add]. *)
Fixpoint _recursive_find_identifiers (t : token) : list column_ref :=
  match t with
  | Tok _ _ => []
  | TokList c nm ts =>
      if decide (c = C_Function) then
        flat_map (λ sub_token,
                    if is_class C_Parenthesis sub_token
                    then _recursive_find_identifiers sub_token else []) ts
      else
        (if decide (c = C_Identifier)
         then [(py_or_str (parent_name nm) "unknown", get_name nm)] else [])
        ++ flat_map _recursive_find_identifiers ts
  end.

(** The same call on the result of [token_next], which may be [None]:
    no branch of the function applies to [None]. *)
Definition find_identifiers_opt (t : option token) : list column_ref :=
  match t with
  | Some t => _recursive_find_identifiers t
  | None => []
  end.

(** The four buckets, as sets while they are filled and as sorted
    lists in the report. *)
Record ColumnUsage := {
  where_filters : list column_ref;
  join_keys : list column_ref;
  order_by : list column_ref;
  group_by : list column_ref;
}.

Definition empty_usage : ColumnUsage := Build_ColumnUsage [] [] [] [].

Definition add_where (u : ColumnUsage) (cs : list column_ref) : ColumnUsage :=
  Build_ColumnUsage (foldl set_add (where_filters u) cs) (join_keys u) (order_by u) (group_by u).
Definition add_join (u : ColumnUsage) (cs : list column_ref) : ColumnUsage :=
  Build_ColumnUsage (where_filters u) (foldl set_add (join_keys u) cs) (order_by u) (group_by u).
Definition add_order (u : ColumnUsage) (cs : list column_ref) : ColumnUsage :=
  Build_ColumnUsage (where_filters u) (join_keys u) (foldl set_add (order_by u) cs) (group_by u).
Definition add_group (u : ColumnUsage) (cs : list column_ref) : ColumnUsage :=
  Build_ColumnUsage (where_filters u) (join_keys u) (order_by u) (foldl set_add (group_by u) cs).

(** One turn of the loop of [analyze_column_usage] on the token at
    position [i]; the state is [(usage, is_after_on)].  The tokens of a
    statement are distinct objects, so [token_index(token)] is [i]. *)
Definition usage_step (all : list token) (st : ColumnUsage * bool) (it : nat * token)
  : ColumnUsage * bool :=
  let '(usage, is_after_on) := st in
  let '(i, t) := it in
  if is_keyword t && bool_decide (normalized t = "ON") then (usage, true)
  else
    let '(usage, is_after_on) :=
      if is_after_on && is_class C_Comparison t
      then (add_join usage (_recursive_find_identifiers t), false)
      else (usage, is_after_on) in
    let usage :=
      if is_class C_Where t then add_where usage (_recursive_find_identifiers t)
      else usage in
    let usage :=
      if is_keyword t then
        if str_contains "ORDER BY" (normalized t)
        then add_order usage (find_identifiers_opt (token_next all i))
        else if str_contains "GROUP BY" (normalized t)
        then add_group usage (find_identifiers_opt (token_next all i))
        else usage
      else usage in
    (usage, is_after_on).

Definition enumerate {A} (l : list A) : list (nat * A) := zip (seq 0 (length l)) l.

Definition collect_usage (ts : list token) : ColumnUsage :=
  fst (foldl (usage_step ts) (empty_usage, false) (enumerate ts)).

(** [QueryAnalyzer.analyze_column_usage]: every bucket is returned as
    [sorted(list(cols))]. *)
Definition analyze_column_usage (o : SetOrder) (p : SQLParser) : result ColumnUsage :=
  let usage := collect_usage (tokens (parsed p)) in
  wf ← py_sorted_refs (list_of_set o (where_filters usage));
  jk ← py_sorted_refs (list_of_set o (join_keys usage));
  ob ← py_sorted_refs (list_of_set o (order_by usage));
  gb ← py_sorted_refs (list_of_set o (group_by usage));
  Ok (Build_ColumnUsage wf jk ob gb).

Record Finding := {
  finding_type : string;
  message : string;
}.

Global Instance Finding_eq_dec : EqDecision Finding.
Proof. solve_decision. Defined.

Definition function_on_column_pattern : string := "\b\w+\s*\(\s*[\w\.]+\s*\)".

(** [QueryAnalyzer.detect_anti_patterns].  [re_search pattern s] stands
    for [re.search(pattern, s)] being a match. *)
Definition detect_anti_patterns (re_search : string → string → bool) (p : SQLParser)
  : list Finding :=
  (if bool_decide (get_query_type p = "SELECT") &&
      existsb (λ t, bool_decide (normalized t = "*")) (tokens (parsed p))
   then [{| finding_type := "SELECT_STAR"; message := "Avoid using 'SELECT *'." |}]
   else []) ++
  (let query_type := get_query_type p in
   if bool_decide (query_type ∈ ["UPDATE"; "DELETE"]) && negb (truthy (extract_where_clause p))
   then [{| finding_type := "MISSING_WHERE_CLAUSE";
            message := "The " +:+ query_type +:+ " statement lacks a WHERE clause." |}]
   else []) ++
  (let where_clause_str := extract_where_clause p in
   if truthy where_clause_str &&
      re_search function_on_column_pattern (default "" where_clause_str)
   then [{| finding_type := "FUNCTION_ON_COLUMN_IN_WHERE";
            message := "Found a function call on a column in the WHERE clause." |}]
   else []).

(** The analysis report, a dictionary in the code.  [raw_sql] is not a
    key [run_analysis] sets: the caller adds it.  The advisor reads
    [column_usage] and [raw_sql] with [dict.get], so both may be absent. *)
Record Report := {
  query_type : string;
  tables : list (option string);
  anti_patterns : list Finding;
  column_usage : option ColumnUsage;
  join_count : Z;
  report_raw_sql : option string;
}.

(** [QueryAnalyzer.run_analysis]. *)
Definition run_analysis (o : SetOrder) (re_search : string → string → bool) (p : SQLParser)
  : result Report :=
  tables ← extract_tables o p;
  let anti_patterns := detect_anti_patterns re_search p in
  usage ← analyze_column_usage o p;
  Ok {| query_type := get_query_type p;
        tables := tables;
        anti_patterns := anti_patterns;
        column_usage := Some usage;
        join_count := if bool_decide (0 < Z.of_nat (length tables))
                      then Z.of_nat (length tables) - 1 else 0;
        report_raw_sql := None |}.

(** ** [index_advisor.py]: index recommendations *)

Definition is_advisor_table_keyword (t : token) : bool :=
  is_keyword t && bool_decide (normalized t ∈ ["FROM"; "JOIN"; "LEFT JOIN"]).

(** One turn of the loop of [_map_aliases_to_tables]; the state is
    [(mapping, from_or_join_seen)]. *)
Definition advisor_step (st : AliasTable * bool) (t : token) : result (AliasTable * bool) :=
  let '(mapping, from_or_join_seen) := st in
  mapping ←
    (if from_or_join_seen then
       match t with
       | TokList C_Identifier _ _ => record_table mapping t
       | TokList C_IdentifierList _ ts => foldM record_table mapping (get_identifiers ts)
       | _ => Ok mapping
       end
     else Ok mapping);
  Ok (mapping,
      if is_advisor_table_keyword t then true
      else if is_keyword t then false
      else from_or_join_seen).

(** The scan of [_map_aliases_to_tables] over a parsed statement. *)
Definition map_aliases_scan (st : Statement) : result AliasTable :=
  fst <$> foldM advisor_step ([], false) (tokens st).

(** [sqlparse.parse(sql)[0]]. *)
Definition first_statement (sqlparse_parse : string → list Statement) (sql : string)
  : result Statement :=
  match sqlparse_parse sql with
  | [] => Raise IndexError
  | st :: _ => Ok st
  end.

(** [IndexAdvisor._map_aliases_to_tables]. *)
Definition _map_aliases_to_tables (sqlparse_parse : string → list Statement) (r : Report)
  : result AliasTable :=
  parsed ← first_statement sqlparse_parse (default "" (report_raw_sql r));
  map_aliases_scan parsed.

Record IndexAdvisor := {
  report : Report;
  advisor_column_usage : ColumnUsage;
  alias_to_table_map : AliasTable;
}.

(** [IndexAdvisor.__init__]. *)
Definition IndexAdvisor_init (sqlparse_parse : string → list Statement) (r : Report)
  : result IndexAdvisor :=
  let usage := default empty_usage (column_usage r) in
  mapping ← _map_aliases_to_tables sqlparse_parse r;
  Ok {| report := r; advisor_column_usage := usage; alias_to_table_map := mapping |}.

(** [table = self.alias_to_table_map.get(alias)] followed by [if table:]. *)
Definition resolve (m : AliasTable) (a : string) : option string :=
  match dict_get (Some a) m with
  | Some (Some table) => if decide (table = "") then None else Some table
  | _ => None
  end.

(** [IndexAdvisor._generate_index_name]. *)
Definition _generate_index_name (table : string) (columns : list (option string))
  : result string :=
  joined ← py_join "_" columns;
  Ok ("idx_" +:+ table +:+ "_" +:+ joined).

Record Recommendation := {
  statement : string;
  reason : string;
  impact : string;
  ml_predicted_impact : option string;
}.

Global Instance Recommendation_eq_dec : EqDecision Recommendation.
Proof. solve_decision. Defined.

Inductive usage_type := WhereFilters | JoinKeys | OrderBy.

Global Instance usage_type_eq_dec : EqDecision usage_type.
Proof. solve_decision. Defined.

Definition usage_get (u : ColumnUsage) (k : usage_type) : list column_ref :=
  match k with
  | WhereFilters => where_filters u
  | JoinKeys => join_keys u
  | OrderBy => order_by u
  end.

(** The dictionary [usage_types], in the order of its keys. *)
Definition usage_types : list (usage_type * string) :=
  [ (WhereFilters, "filtering in the WHERE clause");
    (JoinKeys, "a JOIN condition");
    (OrderBy, "sorting in the ORDER BY clause") ].

(** Where a recommendation was appended: in the composite loop for a
    table, or in the single-column loop for a usage type and a
    reference.  The tag is not part of the output; it names the loop
    variables at the [append]. *)
Inductive origin :=
  | FromComposite (table : string)
  | FromSingle (k : usage_type) (p : column_ref).

Global Instance origin_eq_dec : EqDecision origin.
Proof. solve_decision. Defined.

Definition TableToCols : Type := pydict string (list column_ref).

(** [if table not in d: d[table] = []] and [d[table].append(p)]. *)
Definition table_to_cols_append (d : TableToCols) (table : string) (p : column_ref)
  : TableToCols :=
  let d := if dict_get table d is Some _ then d else dict_set table [] d in
  dict_set table (default [] (dict_get table d) ++ [p]) d.

Definition group_step (m : AliasTable) (d : TableToCols) (p : column_ref) : TableToCols :=
  match resolve m p.1 with
  | Some table => table_to_cols_append d table p
  | None => d
  end.

Definition build_table_to_cols (m : AliasTable) (wf : list column_ref) : TableToCols :=
  foldl (group_step m) [] wf.

(** The state of [generate_recommendations]: the recommendations so
    far and the set [recommended_composite_cols]. *)
Definition advisor_state : Type := list (origin * Recommendation) * list column_ref.

(** One turn of the loop over [table_to_cols.items()]. *)
Definition composite_step (st : advisor_state) (entry : string * list column_ref)
  : result advisor_state :=
  let '(recommendations, recommended_composite_cols) := st in
  let '(table, cols) := entry in
  if decide (1 < length cols)%nat then
    sorted_cols ← py_sorted_names (cols.*2);
    index_name ← _generate_index_name table sorted_cols;
    joined ← py_join ", " sorted_cols;
    Ok (recommendations ++
          [(FromComposite table,
            {| statement := "CREATE INDEX " +:+ index_name +:+ " ON " +:+ table
                            +:+ " (" +:+ joined +:+ ");";
               reason := "Columns " +:+ joined +:+ " are used together in the WHERE clause.";
               impact := "High";
               ml_predicted_impact := None |})],
        foldl set_add recommended_composite_cols cols)
  else Ok st.

(** The composite block, under its guard [len(where_filters) > 1]. *)
Definition composite_phase (m : AliasTable) (wf : list column_ref) : result advisor_state :=
  if decide (1 < length wf)%nat
  then foldM composite_step ([], []) (build_table_to_cols m wf)
  else Ok ([], []).

(** [f"{column}"]. *)
Definition py_format (c : option string) : string := default "None" c.

(** One turn of the inner single-column loop. *)
Definition single_step (m : AliasTable) (claimed : list column_ref)
    (k : usage_type) (reason_text : string)
    (recommendations : list (origin * Recommendation)) (p : column_ref)
  : result (list (origin * Recommendation)) :=
  if decide (p ∈ claimed) then Ok recommendations
  else
    match resolve m p.1 with
    | Some table =>
        index_name ← _generate_index_name table [p.2];
        Ok (recommendations ++
              [(FromSingle k p,
                {| statement := "CREATE INDEX " +:+ index_name +:+ " ON " +:+ table
                                +:+ " (" +:+ py_format p.2 +:+ ");";
                   reason := "Column '" +:+ py_format p.2 +:+ "' is used for "
                             +:+ reason_text +:+ ".";
                   impact := if decide (k = OrderBy) then "Medium" else "High";
                   ml_predicted_impact := None |})])
    | None => Ok recommendations
    end.

(** [IndexAdvisor.generate_recommendations], every recommendation with
    the place it was appended at. *)
Definition generate_recommendations_traced (m : AliasTable) (u : ColumnUsage)
  : result (list (origin * Recommendation)) :=
  '(recommendations, recommended_composite_cols) ← composite_phase m (where_filters u);
  foldM (λ recs '(k, reason_text),
           foldM (single_step m recommended_composite_cols k reason_text)
                 recs (usage_get u k))
        recommendations usage_types.

(** [IndexAdvisor.generate_recommendations]. *)
Definition generate_recommendations (a : IndexAdvisor) : result (list Recommendation) :=
  (λ l, l.*2) <$> generate_recommendations_traced (alias_to_table_map a) (advisor_column_usage a).

(** ** [optimizer.py]: rewrite suggestions *)

Record Suggestion := {
  suggestion_type : string;
  suggested_sql : string;
  suggestion_reason : string;
}.

Global Instance Suggestion_eq_dec : EqDecision Suggestion.
Proof. solve_decision. Defined.

Definition union_all_suggestion (raw : string) : Suggestion :=
  {| suggestion_type := "REPLACE_UNION_WITH_UNION_ALL";
     suggested_sql := str_replace_first "UNION" "UNION ALL" raw;
     suggestion_reason :=
       "If duplicate removal is not needed, `UNION ALL` is faster as it avoids a sort/hash operation." |}.

(** [next_token and next_token.match(Keyword, 'ALL')]; a token object
    is truthy. *)
Definition next_is_all (next_token : option token) : bool :=
  match next_token with
  | Some t => token_match t T_Keyword "ALL"
  | None => false
  end.

(** The loop of [_check_union_all_suggestion] from position [i] on;
    [rest] is [all[i:]]. *)
Fixpoint union_loop (raw : string) (all : list token) (i : nat) (rest : list token)
  : list Suggestion :=
  match rest with
  | [] => []
  | t :: rest' =>
      if token_match t T_Keyword "UNION" then
        if negb (next_is_all (token_next all i)) then [union_all_suggestion raw]
        else union_loop raw all (S i) rest'
      else union_loop raw all (S i) rest'
  end.

(** [QueryOptimizer._check_union_all_suggestion]. *)
Definition _check_union_all_suggestion (p : SQLParser) : list Suggestion :=
  union_loop (raw_sql p) (tokens (parsed p)) 0 (tokens (parsed p)).

Definition subquery_to_join_suggestion : Suggestion :=
  {| suggestion_type := "REWRITE_SUBQUERY_TO_JOIN";
     suggested_sql :=
       "-- Example Rewrite:" +:+ String "010" "SELECT t1.*" +:+ String "010" "FROM table1 t1"
       +:+ String "010" "JOIN table2 t2 ON t1.column = t2.column;";
     suggestion_reason :=
       "Found a subquery in an `IN` clause. Rewriting this as a `JOIN` is often significantly more performant as it allows the database planner to create a better execution strategy." |}.

Definition children (t : token) : list token :=
  match t with
  | TokList _ _ ts => ts
  | Tok _ _ => []
  end.

(** The test made on one child of the WHERE node. *)
Definition in_subquery_comparison (t : token) : bool :=
  is_class C_Comparison t &&
  (let is_in_clause := existsb (λ s, bool_decide (normalized s = "IN")) (children t) in
   let subquery_token := List.find (is_class C_Parenthesis) (children t) in
   match subquery_token with
   | Some sub => is_in_clause && existsb (λ s, token_match s T_DML "SELECT") (children sub)
   | None => false
   end).

(** The loop over [where_clause.tokens]: it returns at the first child
    that passes the test. *)
Fixpoint subquery_loop (ts : list token) : list Suggestion :=
  match ts with
  | [] => []
  | t :: rest =>
      if in_subquery_comparison t then [subquery_to_join_suggestion]
      else subquery_loop rest
  end.

(** [QueryOptimizer._check_subquery_to_join]. *)
Definition _check_subquery_to_join (p : SQLParser) : list Suggestion :=
  match List.find (is_class C_Where) (tokens (parsed p)) with
  | None => []
  | Some where_clause => subquery_loop (children where_clause)
  end.

(** [QueryOptimizer.suggest_rewrites]. *)
Definition suggest_rewrites (p : SQLParser) : list Suggestion :=
  _check_union_all_suggestion p ++ _check_subquery_to_join p.

(** ** [api/main.py]: the request handler *)

Record Response := {
  analysis : Report;
  index_recommendations : list Recommendation;
  rewrite_suggestions : list Suggestion;
}.

Section Pipeline.
(** The tokenizer, the regular-expression engine, the enumeration
    order of sets in this run, and the impact classifier loaded at
    start-up if there is one ([model.predict] on the two features). *)
Variable sqlparse_parse : string → list Statement.
Variable re_search : string → string → bool.
Variable o : SetOrder.
Variable model : option (Z → nat → string).

(** [SQLParser.__init__]. *)
Definition SQLParser_init (sql : string) : result SQLParser :=
  parsed ← first_statement sqlparse_parse sql;
  Ok {| raw_sql := sql; parsed := parsed |}.

Definition with_raw_sql (r : Report) (sql : string) : Report :=
  {| query_type := query_type r; tables := tables r;
     anti_patterns := anti_patterns r; column_usage := column_usage r;
     join_count := join_count r; report_raw_sql := Some sql |}.

Definition with_prediction (prediction : string) (rec : Recommendation) : Recommendation :=
  {| statement := statement rec; reason := reason rec; impact := impact rec;
     ml_predicted_impact := Some prediction |}.

(** [analyze_query]. *)
Definition analyze_query (sql_query : string) : result Response :=
  parser ← SQLParser_init sql_query;
  analysis_report ← run_analysis o re_search parser;
  let analysis_report := with_raw_sql analysis_report sql_query in
  advisor ← IndexAdvisor_init sqlparse_parse analysis_report;
  index_recommendations ← generate_recommendations advisor;
  let rewrite_suggestions := suggest_rewrites parser in
  let index_recommendations :=
    match model with
    | Some predict =>
        let where_clause_count :=
          length (where_filters (default empty_usage (column_usage analysis_report))) in
        map (with_prediction (predict (join_count analysis_report) where_clause_count))
            index_recommendations
    | None => index_recommendations
    end in
  Ok {| analysis := analysis_report;
        index_recommendations := index_recommendations;
        rewrite_suggestions := rewrite_suggestions |}.
End Pipeline.

(** A usage bucket as the data model of the report types it: alias and
    column are both strings. *)
Definition typed (l : list (string * string)) : list column_ref :=
  (λ p, (p.1, Some p.2)) <$> l.

(** ** Statements used as examples *)

Module Examples.
Definition ws : token := Tok T_Whitespace " ".
Definition kw (s : string) : token := Tok T_Keyword s.
Definition dml (s : string) : token := Tok T_DML s.
Definition comma : token := Tok T_Punctuation ",".
Definition ident (n : string) : token := TokList C_Identifier (named n) [Tok T_Name n].
Definition ident_as (n a : string) : token :=
  TokList C_Identifier (aliased n a) [Tok T_Name n; ws; TokList C_Identifier (named a) [Tok T_Name a]].
Definition col (parent n : string) : token :=
  TokList C_Identifier (dotted parent n) [Tok T_Name parent; Tok T_Punctuation "."; Tok T_Name n].
Definition cmp (l : token) (op : string) (r : token) : token :=
  TokList C_Comparison no_names [l; Tok T_Comparison op; r].

(** [SELECT * FROM users;] *)
Definition select_star : Statement :=
  {| tokens := [dml "SELECT"; ws; Tok T_Wildcard "*"; ws; kw "FROM"; ws; ident "users";
                Tok T_Punctuation ";"];
     get_type := "SELECT" |}.

Definition insertion_order : SetOrder :=
  {| list_of_set := λ A l, l; list_of_set_perm := λ A l, reflexivity l |}.

Definition reverse_order : SetOrder :=
  {| list_of_set := λ A l, reverse l; list_of_set_perm := λ A l, reverse_Permutation l |}.

Definition no_regex : string → string → bool := λ _ _, false.

Definition ident_list (ts : list token) : token := TokList C_IdentifierList no_names ts.
Definition where_ (ts : list token) : token :=
  TokList C_Where no_names ([kw "WHERE"; ws] ++ ts).



(** [SELECT u.name FROM users u RIGHT JOIN orders o ON u.id=o.user_id] *)
Definition right_join : SQLParser :=
  {| raw_sql := "SELECT u.name FROM users u RIGHT JOIN orders o ON u.id=o.user_id";
     parsed :=
       {| tokens := [dml "SELECT"; ws; col "u" "name"; ws; kw "FROM"; ws;
                     ident_as "users" "u"; ws; kw "RIGHT JOIN"; ws; ident_as "orders" "o"; ws;
                     kw "ON"; ws; cmp (col "u" "id") "=" (col "o" "user_id")];
          get_type := "SELECT" |} |}.

(** [2 DESC]: an Identifier that has neither a name nor a parent. *)
Definition position_desc : token :=
  TokList C_Identifier no_names [Tok T_Number "2"; ws; Tok T_Order "DESC"].

(** [SELECT a FROM t ORDER BY 2 DESC, a] *)
Definition order_by_position : SQLParser :=
  {| raw_sql := "SELECT a FROM t ORDER BY 2 DESC, a";
     parsed :=
       {| tokens := [dml "SELECT"; ws; ident "a"; ws; kw "FROM"; ws; ident "t"; ws;
                     kw "ORDER BY"; ws; ident_list [position_desc; comma; ws; ident "a"]];
          get_type := "SELECT" |} |}.

(** [SELECT a FROM t ORDER BY]: nothing follows the keyword. *)
Definition order_by_nothing : SQLParser :=
  {| raw_sql := "SELECT a FROM t ORDER BY";
     parsed :=
       {| tokens := [dml "SELECT"; ws; ident "a"; ws; kw "FROM"; ws; ident "t"; ws;
                     kw "ORDER BY"];
          get_type := "SELECT" |} |}.

(** [DELETE FROM orders;] *)
Definition delete_all : SQLParser :=
  {| raw_sql := "DELETE FROM orders;";
     parsed :=
       {| tokens := [dml "DELETE"; ws; kw "FROM"; ws; ident "orders"; Tok T_Punctuation ";"];
          get_type := "DELETE" |} |}.

(** [DELETE FROM orders WHERE id=1;] *)
Definition delete_where : SQLParser :=
  {| raw_sql := "DELETE FROM orders WHERE id=1;";
     parsed :=
       {| tokens := [dml "DELETE"; ws; kw "FROM"; ws; ident "orders"; ws;
                     where_ [cmp (ident "id") "=" (Tok T_Number "1"); Tok T_Punctuation ";"]];
          get_type := "DELETE" |} |}.

Definition select_a_b (table : string) : list token :=
  [dml "SELECT"; ws; ident_list [ident "a"; comma; ident "b"]; ws; kw "FROM"; ws; ident table].

(** [SELECT a,b FROM t1 UNION SELECT a,b FROM t2;] *)
Definition union_plain : SQLParser :=
  {| raw_sql := "SELECT a,b FROM t1 UNION SELECT a,b FROM t2;";
     parsed :=
       {| tokens := select_a_b "t1" ++ [ws; kw "UNION"; ws] ++ select_a_b "t2"
                    ++ [Tok T_Punctuation ";"];
          get_type := "SELECT" |} |}.

(** [SELECT a,b FROM t1 UNION ALL SELECT a,b FROM t2;], with
    [UNION ALL] as the single keyword the tokenizer makes of it. *)
Definition union_all : SQLParser :=
  {| raw_sql := "SELECT a,b FROM t1 UNION ALL SELECT a,b FROM t2;";
     parsed :=
       {| tokens := select_a_b "t1" ++ [ws; kw "UNION ALL"; ws] ++ select_a_b "t2"
                    ++ [Tok T_Punctuation ";"];
          get_type := "SELECT" |} |}.

(** The same text with [UNION] and [ALL] as two keywords. *)
Definition union_then_all : SQLParser :=
  {| raw_sql := "SELECT a,b FROM t1 UNION ALL SELECT a,b FROM t2;";
     parsed :=
       {| tokens := select_a_b "t1" ++ [ws; kw "UNION"; ws; kw "ALL"; ws] ++ select_a_b "t2"
                    ++ [Tok T_Punctuation ";"];
          get_type := "SELECT" |} |}.

(** [SELECT u.name FROM users u JOIN orders o ON u.id=o.user_id
    WHERE u.a=1 AND u.b=2;] *)
Definition composite_scenario : SQLParser :=
  {| raw_sql := "SELECT u.name FROM users u JOIN orders o ON u.id=o.user_id WHERE u.a=1 AND u.b=2;";
     parsed :=
       {| tokens := [dml "SELECT"; ws; col "u" "name"; ws; kw "FROM"; ws;
                     ident_as "users" "u"; ws; kw "JOIN"; ws; ident_as "orders" "o"; ws;
                     kw "ON"; ws; cmp (col "u" "id") "=" (col "o" "user_id"); ws;
                     where_ [cmp (col "u" "a") "=" (Tok T_Number "1"); ws; kw "AND"; ws;
                             cmp (col "u" "b") "=" (Tok T_Number "2"); Tok T_Punctuation ";"]];
          get_type := "SELECT" |} |}.

(** [SELECT x FROM t WHERE v.c=1]: the alias [v] names no table. *)
Definition unknown_alias : SQLParser :=
  {| raw_sql := "SELECT x FROM t WHERE v.c=1";
     parsed :=
       {| tokens := [dml "SELECT"; ws; ident "x"; ws; kw "FROM"; ws; ident "t"; ws;
                     where_ [cmp (col "v" "c") "=" (Tok T_Number "1")]];
          get_type := "SELECT" |} |}.

(** The answers of the tokenizer on the texts above; it finds no
    statement in any other text, the empty one among them. *)
Definition tokenizer (sql : string) : list Statement :=
  match List.find (λ p, bool_decide (raw_sql p = sql))
          [composite_scenario; unknown_alias; right_join; order_by_position;
           union_plain; delete_where; delete_all] with
  | Some p => [parsed p]
  | None => []
  end.

Definition users_orders : AliasTable :=
  [(Some "u", Some "users"); (Some "o", Some "orders")].

(** The advisor of the composite scenario. *)
Definition composite_advisor : IndexAdvisor :=
  {| report :=
       {| query_type := "SELECT"; tables := [Some "orders"; Some "users"];
          anti_patterns := [];
          column_usage := Some (Build_ColumnUsage
                                  (typed [("u", "a"); ("u", "b")])
                                  (typed [("o", "user_id"); ("u", "id")])
                                  (typed []) (typed []));
          join_count := 1;
          report_raw_sql := Some (raw_sql composite_scenario) |};
     advisor_column_usage :=
       Build_ColumnUsage (typed [("u", "a"); ("u", "b")])
                         (typed [("o", "user_id"); ("u", "id")])
                         (typed []) (typed []);
     alias_to_table_map := users_orders |}.

(** An advisor whose usage map holds a reference with an alias that
    names no table, and one without a column name. *)
Definition unknown_alias_advisor : IndexAdvisor :=
  {| report :=
       {| query_type := "SELECT"; tables := [Some "t"]; anti_patterns := [];
          column_usage := None; join_count := 0; report_raw_sql := None |};
     advisor_column_usage :=
       Build_ColumnUsage [("t", Some "x"); ("v", Some "c")] []
                         [("unknown", None)] [];
     alias_to_table_map := [(Some "t", Some "t")] |}.

(** An advisor on a report with two WHERE references on [users] and, in
    [order_by], the reference the classifier records for a position
    ([ORDER BY 2 DESC]: alias [unknown], no column name), for a
    statement in which a table carries the alias [unknown]. *)
Definition nameless_order_advisor : IndexAdvisor :=
  {| report :=
       {| query_type := "SELECT"; tables := [Some "audit"; Some "users"];
          anti_patterns := [];
          column_usage := Some (Build_ColumnUsage (typed [("u", "a"); ("u", "b")]) []
                                  [("unknown", None)] []);
          join_count := 1; report_raw_sql := None |};
     advisor_column_usage :=
       Build_ColumnUsage (typed [("u", "a"); ("u", "b")]) [] [("unknown", None)] [];
     alias_to_table_map := [(Some "u", Some "users"); (Some "unknown", Some "audit")] |}.

(** The report of [run_analysis] on [SELECT * FROM users;]. *)
Definition select_star_report : Report :=
  {| query_type := "SELECT"; tables := [Some "users"];
     anti_patterns := [{| finding_type := "SELECT_STAR"; message := "Avoid using 'SELECT *'." |}];
     column_usage := Some empty_usage; join_count := 0; report_raw_sql := None |}.

Definition select_star_parser : SQLParser :=
  {| raw_sql := "SELECT * FROM users;"; parsed := select_star |}.

(** A report as [run_analysis] returns it: nobody added [raw_sql]. *)
Definition report_without_raw_sql : Report :=
  {| query_type := "SELECT"; tables := [Some "users"]; anti_patterns := [];
     column_usage := Some empty_usage; join_count := 0; report_raw_sql := None |}.
End Examples.

(** ** Predicates and values used in the statements *)

(** The findings hold one of type [ty]. *)
Definition has_finding (ty : string) (l : list Finding) : Prop :=
  ∃ f, f ∈ l ∧ finding_type f = ty.

(** The suggestions of type [ty]. *)
Definition of_type (ty : string) (l : list Suggestion) : list Suggestion :=
  filter (λ s, suggestion_type s = ty) l.

(** What the loop of [_check_union_all_suggestion] tests at position
    [i]. *)
Definition union_test_at (ts : list token) (i : nat) : Prop :=
  ∃ t, ts !! i = Some t ∧ token_match t T_Keyword "UNION" = true ∧
       next_is_all (token_next ts i) = false.

(** The token is the keyword [kwd]: a leaf of type Keyword whose text,
    in upper case, is [kwd]. *)
Definition keyword_token (kwd : string) (t : token) : Prop :=
  ∃ v, t = Tok T_Keyword v ∧ upper v = kwd.

(** The first token after position [i] that is not whitespace is the
    keyword [ALL]. *)
Definition followed_by_all (ts : list token) (i : nat) : Prop :=
  ∃ j t, (i < j)%nat ∧ ts !! j = Some t ∧ keyword_token "ALL" t ∧
         ∀ k t', (i < k < j)%nat → ts !! k = Some t' → is_whitespace t' = true.

(** A top-level [UNION] keyword at position [i] that is not followed
    (whitespace skipped) by the keyword [ALL]. *)
Definition bare_union_at (ts : list token) (i : nat) : Prop :=
  ∃ t, ts !! i = Some t ∧ keyword_token "UNION" t ∧ ¬ followed_by_all ts i.

(** [s'] is [s] with its first occurrence of [old] replaced by [new],
    and [s] itself when [old] does not occur in it. *)
Definition first_occurrence_replaced (old new s s' : string) : Prop :=
  (∃ pre post,
     s = pre +:+ old +:+ post ∧
     (∀ a b, s = a +:+ old +:+ b → (String.length pre ≤ String.length a)%nat) ∧
     s' = pre +:+ new +:+ post) ∨
  ((∀ a b, s ≠ a +:+ old +:+ b) ∧ s' = s).

(** What the code tests on the statement: a Comparison that is a child
    of the first top-level WHERE node, has a child whose normalized text
    is [IN], and whose first Parenthesis child has a [SELECT] keyword
    among its children. *)
Definition first_paren_in_subquery (p : SQLParser) : Prop :=
  ∃ where_clause c sub,
    List.find (is_class C_Where) (tokens (parsed p)) = Some where_clause ∧
    c ∈ children where_clause ∧
    is_class C_Comparison c = true ∧
    (∃ s, s ∈ children c ∧ normalized s = "IN") ∧
    List.find (is_class C_Parenthesis) (children c) = Some sub ∧
    (∃ x, x ∈ children sub ∧ token_match x T_DML "SELECT" = true).


(** *** The advisor *)

(** The references of a list whose alias resolves to [table]. *)
Definition resolved_to (m : AliasTable) (table : string) (l : list column_ref)
  : list column_ref :=
  filter (λ p, resolve m p.1 = Some table) l.

(** The reference has a column name ([get_name()] was not [None]). *)
Definition has_column (p : column_ref) : Prop := is_Some p.2.

(** The column names of a list of references. *)
Definition column_names (cols : list column_ref) : list string := omap snd cols.

(** The statement, reason and impact of a composite recommendation. *)
Definition composite_rec (table : string) (cs : list string) : Recommendation :=
  {| statement := "CREATE INDEX idx_" +:+ table +:+ "_" +:+ String.concat "_" cs
                  +:+ " ON " +:+ table +:+ " (" +:+ String.concat ", " cs +:+ ");";
     reason := "Columns " +:+ String.concat ", " cs
               +:+ " are used together in the WHERE clause.";
     impact := "High";
     ml_predicted_impact := None |}.

(** The statement, reason and impact of a single-column recommendation. *)
Definition single_rec (k : usage_type) (reason_text table c : string) : Recommendation :=
  {| statement := "CREATE INDEX idx_" +:+ table +:+ "_" +:+ c
                  +:+ " ON " +:+ table +:+ " (" +:+ c +:+ ");";
     reason := "Column '" +:+ c +:+ "' is used for " +:+ reason_text +:+ ".";
     impact := if decide (k = OrderBy) then "Medium" else "High";
     ml_predicted_impact := None |}.

(** What the composite loop appends for one entry of [table_to_cols]
    when every reference of the entry has a column name. *)
Definition composite_of (e : string * list column_ref) : list (origin * Recommendation) :=
  if decide (1 < length e.2)%nat
  then [(FromComposite e.1, composite_rec e.1 (merge_sort String.le (column_names e.2)))]
  else [].

(** What the composite loop adds to [recommended_composite_cols] for one
    entry. *)
Definition claimed_by (claimed : list column_ref) (e : string * list column_ref)
  : list column_ref :=
  if decide (1 < length e.2)%nat then foldl set_add claimed e.2 else claimed.

(** What the single-column loop appends for one reference that has a
    column name. *)
Definition single_of (m : AliasTable) (claimed : list column_ref) (k : usage_type)
    (reason_text : string) (p : column_ref) : list (origin * Recommendation) :=
  if decide (p ∈ claimed) then []
  else match resolve m p.1, p.2 with
       | Some table, Some c => [(FromSingle k p, single_rec k reason_text table c)]
       | _, _ => []
       end.

(** The values of the dictionary [usage_types]. *)
Definition reason_text (k : usage_type) : string :=
  match k with
  | WhereFilters => "filtering in the WHERE clause"
  | JoinKeys => "a JOIN condition"
  | OrderBy => "sorting in the ORDER BY clause"
  end.

(** What the single-column loop appends for one bucket. *)
Definition singles (m : AliasTable) (claimed : list column_ref) (u : ColumnUsage)
    (k : usage_type) : list (origin * Recommendation) :=
  usage_get u k ≫= single_of m claimed k (reason_text k).

(** The usage map restricted to the references that satisfy [P]. *)
Definition filter_usage (P : column_ref → Prop) `{∀ q, Decision (P q)} (u : ColumnUsage)
  : ColumnUsage :=
  Build_ColumnUsage (filter P (where_filters u)) (filter P (join_keys u))
                    (filter P (order_by u)) (filter P (group_by u)).

(** The usage map without the reference [p]. *)
Definition without_ref (p : column_ref) (u : ColumnUsage) : ColumnUsage :=
  filter_usage (λ q, q ≠ p) u.

(** The usage map without the references whose alias does not resolve. *)
Definition resolved_only (m : AliasTable) (u : ColumnUsage) : ColumnUsage :=
  filter_usage (λ q, is_Some (resolve m q.1)) u.

(** The advisor [a] on another usage map. *)
Definition with_usage (a : IndexAdvisor) (u : ColumnUsage) : IndexAdvisor :=
  {| report := report a; advisor_column_usage := u;
     alias_to_table_map := alias_to_table_map a |}.

(** Every recommendation of the single-column loop comes from a
    reference whose alias resolves. *)
Definition from_resolved (m : AliasTable) (e : origin * Recommendation) : Prop :=
  match e.1 with
  | FromSingle _ q => is_Some (resolve m q.1)
  | FromComposite _ => True
  end.

(** Every Identifier of the tree has a name. *)
Fixpoint named_tree (t : token) : bool :=
  match t with
  | Tok _ _ => true
  | TokList c nm ts =>
      (if decide (c = C_Identifier) then bool_decide (is_Some (get_name nm)) else true)
      && forallb named_tree ts
  end.

(** Every reference of every bucket has a column name. *)
Definition usage_has_columns (u : ColumnUsage) : Prop :=
  Forall has_column (where_filters u) ∧ Forall has_column (join_keys u) ∧
  Forall has_column (order_by u) ∧ Forall has_column (group_by u).

(** [s[:n]]. *)
Fixpoint str_take (n : nat) (s : string) : string :=
  match n, s with
  | S n', String c s' => String c (str_take n' s')
  | _, _ => EmptyString
  end.

(** ** [parser.py]: the column list *)

(** [SQLParser._recursive_extract_columns]: the set [column_set] after
    the call.  The alias table is asked for at every Identifier (the
    cache makes every call return what the first one returned). *)
Fixpoint _recursive_extract_columns (p : SQLParser) (t : token)
    (column_set : list (option string)) : result (list (option string)) :=
  match t with
  | Tok _ _ => Ok column_set
  | TokList c nm ts =>
      let sub_tokens :=
        fix sub_tokens (ts : list token) (column_set : list (option string)) :=
          match ts with
          | [] => Ok column_set
          | sub_token :: ts' =>
              column_set ← _recursive_extract_columns p sub_token column_set;
              sub_tokens ts' column_set
          end in
      if decide (c = C_Function) then sub_tokens ts column_set
      else
        column_set ←
          (if decide (c = C_Identifier) then
             tables ← _get_tables_and_aliases p;
             let all_table_references := dict_keys tables ++ dict_values tables in
             if decide (real_name nm ∈ all_table_references) then Ok column_set
             else Ok (set_add column_set (get_name nm))
           else Ok column_set);
        sub_tokens ts column_set
  end.

(** The call on [self.parsed]: a statement is a group that is neither
    Function nor Identifier. *)
Definition extract_columns_set (p : SQLParser) : result (list (option string)) :=
  foldM (λ column_set t, _recursive_extract_columns p t column_set) [] (tokens (parsed p)).

(** [SQLParser.extract_columns] (without its cache). *)
Definition extract_columns (o : SetOrder) (p : SQLParser) : result (list (option string)) :=
  columns ← extract_columns_set p;
  py_sorted_names (list_of_set o columns).

Record Summary := {
  summary_query_type : string;
  summary_tables : list (option string);
  summary_columns : list (option string);
  summary_where_clause : option string;
}.

(** [SQLParser.get_analysis_summary]. *)
Definition get_analysis_summary (o : SetOrder) (p : SQLParser) : result Summary :=
  let query_type := get_query_type p in
  tables ← extract_tables o p;
  columns ← extract_columns o p;
  Ok {| summary_query_type := query_type; summary_tables := tables;
        summary_columns := columns; summary_where_clause := extract_where_clause p |}.

(** The names of the Identifier nodes of a tree, in document order. *)
Fixpoint identifiers_of (t : token) : list names :=
  match t with
  | Tok _ _ => []
  | TokList c nm ts =>
      (if decide (c = C_Identifier) then [nm] else []) ++ flat_map identifiers_of ts
  end.

(** The Identifier is a table reference: its real name is an alias or a
    real name of the alias table. *)
Definition table_reference (m : AliasTable) (nm : names) : Prop :=
  real_name nm ∈ dict_keys m ++ dict_values m.

Global Instance table_reference_dec m nm : Decision (table_reference m nm).
Proof. unfold table_reference. apply _. Defined.

(** The names the traversal adds for the Identifiers [nms]. *)
Definition column_candidates (m : AliasTable) (nms : list names) : list (option string) :=
  get_name <$> filter (λ nm, ¬ table_reference m nm) nms.

(** No top-level token is a table keyword of the parser. *)
Definition no_table_keyword (ts : list token) : Prop :=
  Forall (λ t, is_table_keyword t = false) ts.

(** The members of every top-level IdentifierList are groups (besides
    whitespace and commas): each has the name methods. *)
Definition lists_hold_groups (ts : list token) : Prop :=
  Forall (λ t, match t with
               | TokList C_IdentifierList _ subs =>
                   Forall (λ s, match s with TokList _ _ _ => True | Tok _ _ => False end)
                          (get_identifiers subs)
               | _ => True
               end) ts.

(** No top-level keyword token is [RIGHT JOIN] or [INNER JOIN], the two
    table keywords the advisor does not know, and none is a comma (the
    tokenizer makes a comma a punctuation token). *)
Definition advisor_knows_keywords (ts : list token) : Prop :=
  Forall (λ t, is_keyword t = true →
               normalized t ∉ ["RIGHT JOIN"; "INNER JOIN"; ","]) ts.

(** The scan state of the advisor covers that of the parser: its flag
    is on where the parser's is, and it holds the parser's aliases. *)
Definition covers (stA stP : AliasTable * bool) : Prop :=
  (stP.2 = true → stA.2 = true) ∧ dict_keys stP.1 ⊆ dict_keys stA.1.

(** The three tests [analyze_column_usage] makes on a keyword token. *)
Definition is_on_keyword (t : token) : bool :=
  is_keyword t && bool_decide (normalized t = "ON").

Definition introduces_order_by (t : token) : bool :=
  is_keyword t && str_contains "ORDER BY" (normalized t).

Definition introduces_group_by (t : token) : bool :=
  is_keyword t && negb (str_contains "ORDER BY" (normalized t))
  && str_contains "GROUP BY" (normalized t).

(** The flag [is_after_on] after the tokens [l], from the value [b]. *)
Definition after_on (b : bool) (l : list token) : bool :=
  foldl (λ b t, if is_on_keyword t then true
                else if b && is_class C_Comparison t then false else b) b l.

(** What one turn of the loop does to the bucket [join_keys] and to the
    flag: neither depends on the position of the token. *)
Definition join_step (st : list column_ref * bool) (t : token) : list column_ref * bool :=
  (if st.2 && is_class C_Comparison t
   then foldl set_add st.1 (_recursive_find_identifiers t) else st.1,
   if is_on_keyword t then true
   else if st.2 && is_class C_Comparison t then false else st.2).

(** [t] is the first Comparison node after some [ON] keyword of [ts]. *)
Definition first_comparison_after_on (ts : list token) (t : token) : Prop :=
  ∃ l1 t_on l2 l3,
    ts = l1 ++ t_on :: l2 ++ t :: l3 ∧ is_on_keyword t_on = true ∧
    Forall (λ t', is_class C_Comparison t' = false) l2 ∧
    is_class C_Comparison t = true.

(** The reference [p] of [where_filters] goes into a composite index:
    its alias resolves to a table that more than one reference of
    [where_filters] resolves to. *)
Definition in_composite (m : AliasTable) (wf : list column_ref) (p : column_ref) : Prop :=
  p ∈ wf ∧ ∃ table, resolve m p.1 = Some table ∧ (1 < length (resolved_to m table wf))%nat.

(** The place of a recommendation in the order of the appends. *)
Definition origin_rank (og : origin) : nat :=
  match og with
  | FromComposite _ => 0
  | FromSingle WhereFilters _ => 1
  | FromSingle JoinKeys _ => 2
  | FromSingle OrderBy _ => 3
  end.

(** The group [t] has a real name ([get_real_name()] is not [None]). *)
Definition has_real_name (t : token) : Prop :=
  match t with
  | TokList _ nm _ => is_Some (real_name nm)
  | Tok _ _ => False
  end.

(** Every top-level Identifier, and every member of a top-level
    IdentifierList, is a group with a real name. *)
Definition tables_have_names (ts : list token) : Prop :=
  Forall (λ t, match t with
               | TokList C_Identifier nm _ => is_Some (real_name nm)
               | TokList C_IdentifierList _ subs => Forall has_real_name (get_identifiers subs)
               | _ => True
               end) ts.

(** The response with the label [prediction] on every recommendation. *)
Definition labelled (predict : Z → nat → string) (resp : Response) : Response :=
  let features_join := join_count (analysis resp) in
  let features_where :=
    length (where_filters (default empty_usage (column_usage (analysis resp)))) in
  {| analysis := analysis resp;
     index_recommendations :=
       with_prediction (predict features_join features_where)
         <$> index_recommendations resp;
     rewrite_suggestions := rewrite_suggestions resp |}.

(** No Identifier of the statement is qualified: [get_parent_name()]
    is [None] on every one, at any depth. *)
Definition unqualified (ts : list token) : Prop :=
  Forall (λ nm, parent_name nm = None) (flat_map identifiers_of ts).

(** ** [plan_explainer.py]: the plan tree *)

Module PlanExplainer.

(** A value of the JSON document that [EXPLAIN (FORMAT JSON)] returns,
    as [psycopg2] hands it over.  A number is kept as its text: the
    code copies numbers and never computes with them.  The fields of an
    object are in insertion order; a Python dictionary has every key
    once, and the lookups below take the first. *)
#[local] Unset Elimination Schemes.
Inductive json :=
  | JNull
  | JBool (b : bool)
  | JNumber (repr : string)
  | JString (s : string)
  | JArray (items : list json)
  | JObject (fields : list (string * json)).
#[local] Set Elimination Schemes.

(** A node of the standardized plan. *)
#[local] Unset Elimination Schemes.
Inductive PlanNode := Build_PlanNode {
  node_type : json;
  estimated_cost : json;
  estimated_rows : json;
  actual_time_ms : json;
  actual_rows : json;
  details : list string;
  children : list PlanNode;
}.
#[local] Set Elimination Schemes.

Section transform.
(** [repr(v)] of a value that is not a string; [str(v)] is the same
    text for these values. *)
Variable py_repr : json → string.

(** [f"{v}"]. *)
Definition py_format_value (v : json) : string :=
  match v with
  | JString s => s
  | _ => py_repr v
  end.

(** [if key in node: details.append(f"<key>: {node[key]}")]. *)
Definition detail (node : list (string * json)) (key : string) : list string :=
  match dict_get key node with
  | Some v => [key +:+ ": " +:+ py_format_value v]
  | None => []
  end.

(** [PostgresPlanExplainer._transform_plan_node].  A value that is not
    a dictionary has no [get]; the loop over [node["Plans"]] runs over
    the items of a list, over the characters of a string and over the
    keys of a dictionary (neither of which has [get]), and a number, a
    boolean or [None] cannot be iterated.  The local function [plans]
    is the lookup of ["Plans"] followed by the loop. *)
Fixpoint _transform_plan_node (node : json) : result PlanNode :=
  match node with
  | JObject fields =>
      let transformed_details :=
        detail fields "Join Filter" ++ detail fields "Hash Cond" ++
        detail fields "Filter" ++ detail fields "Index Cond" in
      transformed_children ←
        (fix plans (d : list (string * json)) : result (list PlanNode) :=
           match d with
           | [] => Ok []
           | (k, v) :: d' =>
               if decide ("Plans" = k) then
                 match v with
                 | JArray items =>
                     (fix each (items : list json) : result (list PlanNode) :=
                        match items with
                        | [] => Ok []
                        | child_node :: rest =>
                            child ← _transform_plan_node child_node;
                            others ← each rest;
                            Ok (child :: others)
                        end) items
                 | JString s => if decide (s = "") then Ok [] else Raise AttributeError
                 | JObject fs => if decide (fs = []) then Ok [] else Raise AttributeError
                 | JNull | JBool _ | JNumber _ => Raise TypeError
                 end
               else plans d'
           end) fields;
      Ok {| node_type := default (JString "Unknown") (dict_get "Node Type" fields);
            estimated_cost := default (JNumber "0") (dict_get "Total Cost" fields);
            estimated_rows := default (JNumber "0") (dict_get "Plan Rows" fields);
            actual_time_ms := default (JNumber "0") (dict_get "Actual Total Time" fields);
            actual_rows := default (JNumber "0") (dict_get "Actual Rows" fields);
            details := transformed_details;
            children := transformed_children |}
  | _ => Raise AttributeError
  end.
End transform.

(** [out = []] and [for x in l: out.append(f(x))]. *)
Fixpoint forM {A B} (f : A → result B) (l : list A) : result (list B) :=
  match l with
  | [] => Ok []
  | x :: l' => y ← f x; ys ← forM f l'; Ok (y :: ys)
  end.

(** The members of [node["Plans"]] when it is a list. *)
Definition raw_children (node : json) : list json :=
  match node with
  | JObject fields =>
      match dict_get "Plans" fields with
      | Some (JArray items) => items
      | _ => []
      end
  | _ => []
  end.

(** The raw node is a plan as PostgreSQL prints it: an object whose
    ["Plans"], when present, is an array of plans. *)
#[local] Unset Elimination Schemes.
Inductive is_plan : json → Prop :=
  | is_plan_leaf fields :
      dict_get "Plans" fields = None → is_plan (JObject fields)
  | is_plan_inner fields items :
      dict_get "Plans" fields = Some (JArray items) →
      Forall is_plan items → is_plan (JObject fields).
#[local] Set Elimination Schemes.

(** The nodes of a standardized plan, the root first. *)
Fixpoint plan_nodes (n : PlanNode) : list PlanNode :=
  n :: flat_map plan_nodes (children n).

End PlanExplainer.

(** ** More statements used as examples *)

Module Cases.
Import Examples.

(** [UPDATE users SET active = 0]: a statement without [FROM]. *)
Definition update_all : SQLParser :=
  {| raw_sql := "UPDATE users SET active = 0";
     parsed :=
       {| tokens := [dml "UPDATE"; ws; ident "users"; ws; kw "SET"; ws;
                     cmp (ident "active") "=" (Tok T_Number "0")];
          get_type := "UPDATE" |} |}.

(** [SELECT a FROM t1, t2]: the tables are the members of a list. *)
Definition from_list : SQLParser :=
  {| raw_sql := "SELECT a FROM t1, t2";
     parsed :=
       {| tokens := [dml "SELECT"; ws; ident "a"; ws; kw "FROM"; ws;
                     ident_list [ident "t1"; comma; ws; ident "t2"]];
          get_type := "SELECT" |} |}.

(** An advisor whose usage map has the reference [u.id] in two buckets
    ([WHERE u.id = 1] after [ON u.id = o.user_id]). *)
Definition twice_advisor : IndexAdvisor :=
  {| report :=
       {| query_type := "SELECT"; tables := [Some "orders"; Some "users"];
          anti_patterns := [];
          column_usage := Some (Build_ColumnUsage (typed [("u", "id")])
                                  (typed [("o", "user_id"); ("u", "id")])
                                  (typed []) (typed []));
          join_count := 1; report_raw_sql := None |};
     advisor_column_usage :=
       Build_ColumnUsage (typed [("u", "id")]) (typed [("o", "user_id"); ("u", "id")])
                         (typed []) (typed []);
     alias_to_table_map := users_orders |}.

(** [SELECT name FROM users WHERE id = 1]: no column is qualified. *)
Definition unqualified_where : SQLParser :=
  {| raw_sql := "SELECT name FROM users WHERE id = 1";
     parsed :=
       {| tokens := [dml "SELECT"; ws; ident "name"; ws; kw "FROM"; ws; ident "users"; ws;
                     where_ [cmp (ident "id") "=" (Tok T_Number "1")]];
          get_type := "SELECT" |} |}.

(** A tokenizer that finds a second statement after the first. *)
Definition tokenizer_two (sql : string) : list Statement :=
  tokenizer sql ++ [select_star].

(** A hash join over two scans, as [EXPLAIN (FORMAT JSON)] prints it. *)
Definition hash_join : PlanExplainer.json :=
  PlanExplainer.JObject
    [("Node Type", PlanExplainer.JString "Hash Join");
     ("Total Cost", PlanExplainer.JNumber "60.85");
     ("Hash Cond", PlanExplainer.JString "(o.user_id = u.id)");
     ("Plans",
      PlanExplainer.JArray
        [PlanExplainer.JObject [("Node Type", PlanExplainer.JString "Seq Scan");
                                ("Relation Name", PlanExplainer.JString "orders")];
         PlanExplainer.JObject [("Node Type", PlanExplainer.JString "Hash");
                                ("Plans",
                                 PlanExplainer.JArray
                                   [PlanExplainer.JObject
                                      [("Node Type", PlanExplainer.JString "Seq Scan");
                                       ("Filter", PlanExplainer.JString "(id > 10)")]])]])].
End Cases.

(** ** Facts about the Python primitives *)

Lemma all_str_Some l ss : all_str l = Some ss → l = Some <$> ss.
Proof.
  revert ss. induction l as [|[s|] l IH]; intros ss Hl; simpl in *.
  - by inversion Hl.
  - destruct (all_str l) as [ss'|] eqn:E; simplify_eq/=. f_equal. by apply IH.
  - done.
Qed.

Lemma all_str_fmap_Some ss : all_str (Some <$> ss) = Some ss.
Proof. induction ss as [|s ss IH]; csimpl; [done|]. by rewrite IH. Qed.

Lemma all_str_None l : all_str l = None ↔ None ∈ l.
Proof.
  induction l as [|[s|] l IH]; simpl.
  - split; [done|]. by intros ?%elem_of_nil.
  - destruct (all_str l) eqn:E; simpl.
    + split; [done|]. intros [?|Hin]%elem_of_cons; [done|]. by apply IH in Hin.
    + split; [|done]. intros _. right. by apply IH.
  - split; [|done]. intros _. by left.
Qed.

Lemma all_str_perm l1 l2 :
  l1 ≡ₚ l2 →
  match all_str l1, all_str l2 with
  | Some s1, Some s2 => s1 ≡ₚ s2
  | None, None => True
  | _, _ => False
  end.
Proof.
  intros Hp.
  destruct (all_str l1) as [s1|] eqn:E1, (all_str l2) as [s2|] eqn:E2.
  - apply all_str_Some in E1, E2. subst.
    apply (fmap_Permutation (default "")) in Hp.
    rewrite <-!list_fmap_compose in Hp.
    by rewrite !list_fmap_id in Hp.
  - apply all_str_None in E2. rewrite <-Hp in E2. apply all_str_None in E2. congruence.
  - apply all_str_None in E1. rewrite Hp in E1. apply all_str_None in E1. congruence.
  - done.
Qed.

Lemma merge_sort_perm_eq {A} (R : relation A) `{∀ x y, Decision (R x y)}
    `{!Total R, !Transitive R, !AntiSymm (=) R} (l1 l2 : list A) :
  l1 ≡ₚ l2 → merge_sort R l1 = merge_sort R l2.
Proof.
  intros Hp. apply (StronglySorted_unique R).
  - by apply StronglySorted_merge_sort.
  - by apply StronglySorted_merge_sort.
  - by rewrite !merge_sort_Permutation.
Qed.

(** The sorted list of names does not depend on the order of its input. *)
Lemma py_sorted_names_perm_eq l1 l2 :
  l1 ≡ₚ l2 → py_sorted_names l1 = py_sorted_names l2.
Proof.
  intros Hp. unfold py_sorted_names.
  pose proof (all_str_perm _ _ Hp) as Hs.
  destruct (all_str l1) as [s1|] eqn:E1, (all_str l2) as [s2|] eqn:E2; try done.
  - by rewrite (merge_sort_perm_eq String.le s1 s2 Hs).
  - rewrite (Permutation_length Hp).
    destruct (decide (length l2 ≤ 1)%nat) as [Hle|]; [|done].
    f_equal. destruct l2 as [|x [|y l2]]; simpl in Hle; [| |lia].
    + by apply Permutation_nil_r in Hp.
    + by apply Permutation_singleton_r in Hp.
Qed.

Lemma py_sorted_names_perm l l' : py_sorted_names l = Ok l' → l' ≡ₚ l.
Proof.
  unfold py_sorted_names. destruct (all_str l) as [ss|] eqn:E.
  - intros [= <-]. apply all_str_Some in E. subst.
    by rewrite merge_sort_Permutation.
  - case_decide; [|done]. by intros [= <-].
Qed.

Lemma py_sorted_names_strings ss :
  py_sorted_names (Some <$> ss) = Ok (Some <$> merge_sort String.le ss).
Proof. unfold py_sorted_names. by rewrite all_str_fmap_Some. Qed.

Global Instance opt_le_po : PartialOrder opt_le.
Proof.
  split; [split|].
  - intros [x|]; simpl; done.
  - intros [x|] [y|] [z|]; simpl; try done. apply (transitivity (R:=String.le)).
  - intros [x|] [y|]; simpl; try done. intros ??. f_equal. by apply (anti_symm String.le).
Qed.

Global Instance opt_le_total : Total opt_le.
Proof. intros [x|] [y|]; simpl; auto. apply (total String.le). Qed.

Global Instance ref_le_trans : Transitive ref_le.
Proof.
  intros [a1 c1] [a2 c2] [a3 c3]; unfold ref_le; simpl.
  intros [[H12 N12]|[-> H12]] [[H23 N23]|[-> H23]].
  - left. split; [by etrans|]. intros ->. apply N12. by apply (anti_symm String.le).
  - left. done.
  - left. done.
  - right. split; [done|]. by etrans.
Qed.

Global Instance ref_le_antisym : AntiSymm (=) ref_le.
Proof.
  intros [a1 c1] [a2 c2]; unfold ref_le; simpl.
  intros [[H12 N12]|[-> H12]] [[H21 N21]|[E H21]]; try done.
  - destruct N12. by apply (anti_symm String.le).
  - f_equal. by apply (anti_symm opt_le).
Qed.

Global Instance ref_le_total : Total ref_le.
Proof.
  intros [a1 c1] [a2 c2]; unfold ref_le; simpl.
  destruct (decide (a1 = a2)) as [->|Hne].
  - destruct (total opt_le c1 c2); [left|right]; right; done.
  - destruct (total String.le a1 a2); [left|right]; left; done.
Qed.

(** The sorted list of references does not depend on the order either,
    and neither does the failure. *)
Lemma py_sorted_refs_perm_eq l1 l2 :
  l1 ≡ₚ l2 → py_sorted_refs l1 = py_sorted_refs l2.
Proof.
  intros Hp. unfold py_sorted_refs.
  assert (Exists (λ p, Exists (clash p) l1) l1 ↔ Exists (λ p, Exists (clash p) l2) l2) as Hiff.
  { rewrite !Exists_exists. split; intros (p & Hp1 & Hp2); exists p;
      rewrite Exists_exists in Hp2 |- *; destruct Hp2 as (q & Hq1 & Hq2).
    - rewrite <-Hp. split; [done|]. exists q. by rewrite <-Hp.
    - rewrite Hp. split; [done|]. exists q. by rewrite Hp. }
  destruct (decide (Exists (λ p, Exists (clash p) l1) l1)) as [H1|H1],
           (decide (Exists (λ p, Exists (clash p) l2) l2)) as [H2|H2]; try tauto.
  by rewrite (merge_sort_perm_eq ref_le l1 l2 Hp).
Qed.

Lemma py_sorted_refs_perm l l' : py_sorted_refs l = Ok l' → l' ≡ₚ l.
Proof.
  unfold py_sorted_refs. case_decide; [done|]. intros [= <-].
  apply merge_sort_Permutation.
Qed.

(** ** The report of [run_analysis] *)

Lemma bind_Ok {A B} (m : result A) (f : A → result B) (b : B) :
  m ≫= f = Ok b → ∃ a, m = Ok a ∧ f a = Ok b.
Proof. destruct m as [a|e]; simpl; [eauto|done]. Qed.

Lemma fmap_Ok {A B} (m : result A) (f : A → B) (b : B) :
  f <$> m = Ok b → ∃ a, m = Ok a ∧ b = f a.
Proof. destruct m as [a|e]; simpl; [|done]. intros [= <-]. eauto. Qed.

Lemma extract_tables_Ok o p ts :
  extract_tables o p = Ok ts →
  ∃ m, _get_tables_and_aliases p = Ok m ∧ ts ≡ₚ py_set (dict_values m).
Proof.
  unfold extract_tables. intros (m & Hm & Hs)%bind_Ok.
  exists m. split; [done|].
  apply py_sorted_names_perm in Hs. rewrite Hs. apply list_of_set_perm.
Qed.

Lemma run_analysis_Ok o re p r :
  run_analysis o re p = Ok r →
  ∃ ts u, extract_tables o p = Ok ts ∧ analyze_column_usage o p = Ok u ∧
          r = {| query_type := get_query_type p;
                 tables := ts;
                 anti_patterns := detect_anti_patterns re p;
                 column_usage := Some u;
                 join_count := if bool_decide (0 < Z.of_nat (length ts))
                               then Z.of_nat (length ts) - 1 else 0;
                 report_raw_sql := None |}.
Proof.
  unfold run_analysis. intros (ts & Hts & Hr)%bind_Ok.
  apply bind_Ok in Hr as (u & Hu & Hr). exists ts, u. by simplify_eq.
Qed.

(** C2.  Join count law: whenever [run_analysis] produces a report, its
    table list is the set of distinct real names of the alias table (no
    duplicates), and [join_count] is [max(0, n - 1)] for the number [n]
    of these distinct names. *)
Theorem C2_join_count_law (o : SetOrder) (re : string → string → bool)
    (p : SQLParser) (r : Report) :
  run_analysis o re p = Ok r →
  ∃ m, _get_tables_and_aliases p = Ok m ∧
       tables r ≡ₚ py_set (dict_values m) ∧
       NoDup (tables r) ∧
       join_count r = Z.max 0 (Z.of_nat (length (py_set (dict_values m))) - 1) ∧
       join_count r = Z.max 0 (Z.of_nat (length (tables r)) - 1).
Proof.
  intros (ts & u & Hts & _ & ->)%run_analysis_Ok. simpl.
  apply extract_tables_Ok in Hts as (m & Hm & Hperm).
  exists m. split; [done|]. split; [done|]. split.
  { rewrite Hperm. apply NoDup_remove_dups. }
  rewrite <-(Permutation_length Hperm).
  case_bool_decide; lia.
Qed.

(** ** Anti-patterns *)

(** C7.  On a statement whose WHERE node, if it has one, has a text
    (the tokenizer builds the node from the [WHERE] keyword on), the
    findings contain [MISSING_WHERE_CLAUSE] exactly when the statement
    kind is UPDATE or DELETE and [extract_where_clause] returns nothing. *)
Theorem C7_missing_where_clause (re : string → string → bool) (p : SQLParser) :
  (∀ w, extract_where_clause p = Some w → w ≠ "") →
  has_finding "MISSING_WHERE_CLAUSE" (detect_anti_patterns re p) ↔
  (get_query_type p = "UPDATE" ∨ get_query_type p = "DELETE") ∧
  extract_where_clause p = None.
Proof.
  intros Hwf. unfold has_finding, detect_anti_patterns.
  assert (truthy (extract_where_clause p) = false ↔ extract_where_clause p = None) as Htruthy.
  { destruct (extract_where_clause p) as [w|] eqn:E; simpl; [|done].
    specialize (Hwf w eq_refl). by case_decide. }
  assert (bool_decide (get_query_type p ∈ ["UPDATE"; "DELETE"]) = true ↔
          get_query_type p = "UPDATE" ∨ get_query_type p = "DELETE") as Hkind.
  { rewrite bool_decide_eq_true, !elem_of_cons, elem_of_nil. tauto. }
  split.
  - intros (f & Hin & Hty).
    rewrite !elem_of_app in Hin. destruct Hin as [Hin|[Hin|Hin]].
    + case_match; [|by apply elem_of_nil in Hin].
      apply list_elem_of_singleton in Hin. by subst.
    + destruct (bool_decide (get_query_type p ∈ ["UPDATE"; "DELETE"])) eqn:Ek;
        [|by apply elem_of_nil in Hin].
      destruct (truthy (extract_where_clause p)) eqn:Et;
        [by apply elem_of_nil in Hin|].
      split; [by apply Hkind|by apply Htruthy].
    + case_match; [|by apply elem_of_nil in Hin].
      apply list_elem_of_singleton in Hin. by subst.
  - intros [Hk Hw]. apply Hkind in Hk. apply Htruthy in Hw.
    rewrite Hk, Hw. simpl. eexists.
    split; [rewrite !elem_of_app; right; left; by left|reflexivity].
Qed.

(** ** Construction of the advisor *)

(** C10.  A report without [raw_sql] makes the advisor tokenize the
    empty text, for which the tokenizer returns no statement; taking
    the first one is an [IndexError], raised in the constructor, so no
    recommendation list, empty or not, is ever returned. *)
Theorem C10_advisor_needs_raw_sql (sqlparse_parse : string → list Statement) (r : Report) :
  report_raw_sql r = None →
  sqlparse_parse "" = [] →
  IndexAdvisor_init sqlparse_parse r = Raise IndexError ∧
  (IndexAdvisor_init sqlparse_parse r ≫= generate_recommendations) = Raise IndexError.
Proof.
  intros Hraw Hparse.
  assert (IndexAdvisor_init sqlparse_parse r = Raise IndexError) as Hinit.
  { unfold IndexAdvisor_init, _map_aliases_to_tables, first_statement.
    rewrite Hraw. simpl. by rewrite Hparse. }
  split; [done|]. by rewrite Hinit.
Qed.

(** ** Rewrite suggestions *)

Lemma drop_cons_inv {A} (l : list A) i x rest :
  drop i l = x :: rest → l !! i = Some x ∧ drop (S i) l = rest.
Proof.
  intros Hd. assert (l !! i = Some x) as Hi.
  { rewrite <-(Nat.add_0_r i), <-lookup_drop, Hd. done. }
  split; [done|]. rewrite (drop_S _ _ _ Hi) in Hd. by simplify_eq.
Qed.

Lemma union_loop_found raw all i rest :
  drop i all = rest →
  (∃ j, (i ≤ j)%nat ∧ union_test_at all j) →
  union_loop raw all i rest = [union_all_suggestion raw].
Proof.
  revert i. induction rest as [|t rest IH]; intros i Hd (j & Hij & u & Hu & Hm & Hn).
  - apply lookup_lt_Some in Hu.
    assert (length (drop i all) = 0%nat) as Hl by (by rewrite Hd).
    rewrite length_drop in Hl. lia.
  - apply drop_cons_inv in Hd as [Hi Hd]. simpl.
    destruct (decide (i = j)) as [->|Hne].
    + rewrite Hu in Hi. injection Hi as ->. by rewrite Hm, Hn.
    + assert (union_loop raw all (S i) rest = [union_all_suggestion raw]) as Hrec.
      { apply IH; [done|]. exists j. split; [lia|]. by exists u. }
      destruct (token_match t T_Keyword "UNION"); [|done].
      by destruct (negb (next_is_all (token_next all i))).
Qed.

Lemma union_loop_none raw all i rest :
  drop i all = rest →
  (∀ j t, (i ≤ j)%nat → all !! j = Some t → token_match t T_Keyword "UNION" = true →
          next_is_all (token_next all j) = true) →
  union_loop raw all i rest = [].
Proof.
  revert i. induction rest as [|t rest IH]; intros i Hd Hall; [done|].
  apply drop_cons_inv in Hd as [Hi Hd]. simpl.
  destruct (token_match t T_Keyword "UNION") eqn:Hm.
  - rewrite (Hall i t); [|lia|done..]. simpl. apply IH; [done|].
    intros j u ?. apply Hall. lia.
  - apply IH; [done|]. intros j u ?. apply Hall. lia.
Qed.

Lemma subquery_loop_cases ts :
  subquery_loop ts = [] ∨ subquery_loop ts = [subquery_to_join_suggestion].
Proof. induction ts as [|t ts IH]; simpl; [by left|]. case_match; [by right|done]. Qed.

Lemma check_subquery_cases p :
  _check_subquery_to_join p = [] ∨ _check_subquery_to_join p = [subquery_to_join_suggestion].
Proof.
  unfold _check_subquery_to_join. case_match; [|by left]. apply subquery_loop_cases.
Qed.

Lemma union_loop_cases raw all i rest :
  union_loop raw all i rest = [] ∨ union_loop raw all i rest = [union_all_suggestion raw].
Proof.
  revert i. induction rest as [|t rest IH]; intros i; simpl; [by left|].
  repeat case_match; auto.
Qed.

Lemma check_union_cases p :
  _check_union_all_suggestion p = [] ∨
  _check_union_all_suggestion p = [union_all_suggestion (raw_sql p)].
Proof. apply union_loop_cases. Qed.

Lemma of_type_union_suggest_rewrites p :
  of_type "REPLACE_UNION_WITH_UNION_ALL" (suggest_rewrites p) = _check_union_all_suggestion p.
Proof.
  unfold suggest_rewrites, of_type. rewrite filter_app.
  destruct (check_union_cases p) as [-> | ->], (check_subquery_cases p) as [-> | ->]; done.
Qed.

Lemma of_type_subquery_suggest_rewrites p :
  of_type "REWRITE_SUBQUERY_TO_JOIN" (suggest_rewrites p) = _check_subquery_to_join p.
Proof.
  unfold suggest_rewrites, of_type. rewrite filter_app.
  destruct (check_union_cases p) as [-> | ->], (check_subquery_cases p) as [-> | ->]; done.
Qed.

(** *** The UNION rule in terms of the statement and of the text *)

Lemma app_String c a b : String c a +:+ b = String c (a +:+ b).
Proof. done. Qed.

Lemma app_empty b : "" +:+ b = b.
Proof. done. Qed.

Lemma prefix_app old s : String.prefix old s = true ↔ ∃ post, s = old +:+ post.
Proof.
  revert s. induction old as [|c old IH]; intros s.
  - split; [intros _; by exists s|intros _; by destruct s].
  - destruct s as [|c' s]; cbn [String.prefix].
    + split; [done|]. intros [post Hp]. by rewrite app_String in Hp.
    + destruct (ascii_dec c c') as [->|Hne].
      * rewrite IH. split.
        -- intros [post ->]. exists post. by rewrite app_String.
        -- intros [post Hp]. rewrite app_String in Hp. injection Hp as ->. by exists post.
      * split; [done|]. intros [post Hp]. rewrite app_String in Hp. congruence.
Qed.

Lemma str_drop_app old post : str_drop (String.length old) (old +:+ post) = post.
Proof. induction old as [|c old IH]; [done|]. by rewrite app_String. Qed.

(** [str.replace(old, new, 1)] replaces the first occurrence. *)
Lemma str_replace_first_spec old new s :
  first_occurrence_replaced old new s (str_replace_first old new s).
Proof.
  induction s as [|c s IH].
  - cbn [str_replace_first]. destruct (String.prefix old "") eqn:Hp.
    + apply prefix_app in Hp as [post Hp]. left. exists "", post.
      rewrite !app_empty. split; [done|]. split; [intros; simpl; lia|].
      by rewrite Hp, str_drop_app.
    + right. split; [|done]. intros a b Hab.
      destruct a as [|c a]; [|by rewrite app_String in Hab].
      rewrite app_empty in Hab.
      assert (String.prefix old "" = true) as Hp'; [|congruence].
      apply prefix_app. by exists b.
  - cbn [str_replace_first]. destruct (String.prefix old (String c s)) eqn:Hp.
    + apply prefix_app in Hp as [post Hp]. left. exists "", post.
      rewrite !app_empty. split; [done|]. split; [intros; simpl; lia|].
      by rewrite Hp, str_drop_app.
    + assert (∀ b, String c s ≠ old +:+ b) as Hfront.
      { intros b Hb. assert (String.prefix old (String c s) = true) as Hp'; [|congruence].
        apply prefix_app. by exists b. }
      destruct IH as [(pre & post & Hs & Hmin & Hs')|[Hnone Hs']].
      * left. exists (String c pre), post. rewrite !app_String. split; [by rewrite Hs|].
        split; [|by rewrite Hs'].
        intros a b Hab. destruct a as [|c' a].
        -- rewrite app_empty in Hab. by destruct (Hfront b).
        -- rewrite app_String in Hab. injection Hab as -> Hab. simpl.
           apply le_n_S. by apply (Hmin a b).
      * right. split; [|by rewrite Hs'].
        intros a b Hab. destruct a as [|c' a].
        -- rewrite app_empty in Hab. by destruct (Hfront b).
        -- rewrite app_String in Hab. injection Hab as -> Hab. by destruct (Hnone a b).
Qed.

Lemma token_match_keyword t kwd :
  upper kwd = kwd → token_match t T_Keyword kwd = true ↔ keyword_token kwd t.
Proof.
  intros Hk. unfold keyword_token. destruct t as [ty v|c nm ts]; simpl.
  - rewrite andb_true_iff, bool_decide_eq_true. split.
    + intros [-> Hv]. simpl in Hv. apply bool_decide_eq_true in Hv.
      exists v. split; [done|]. by rewrite Hv.
    + intros (v' & [= -> ->] & Hv). split; [done|]. simpl.
      apply bool_decide_eq_true. by rewrite Hk.
  - split; [done|]. by intros (? & ? & _).
Qed.

Lemma find_first {A} (f : A → bool) (l : list A) (x : A) :
  List.find f l = Some x ↔
  ∃ j, l !! j = Some x ∧ f x = true ∧
       ∀ k y, (k < j)%nat → l !! k = Some y → f y = false.
Proof.
  induction l as [|a l IH]; simpl.
  - split; [done|]. by intros (j & ? & _).
  - destruct (f a) eqn:Ea.
    + split.
      * intros [= ->]. exists 0%nat. split; [done|]. split; [done|]. intros; lia.
      * intros ([|j] & Hj & Hx & Hbefore); [by simplify_eq/=|].
        specialize (Hbefore 0%nat a ltac:(lia) eq_refl). congruence.
    + rewrite IH. split.
      * intros (j & Hj & Hx & Hbefore). exists (S j). split; [done|]. split; [done|].
        intros [|k] y Hk Hy; [by simplify_eq/=|]. apply (Hbefore k); [lia|done].
      * intros ([|j] & Hj & Hx & Hbefore); [simplify_eq/=; congruence|].
        exists j. split; [done|]. split; [done|].
        intros k y Hk Hy. apply (Hbefore (S k)); [lia|done].
Qed.

(** [token_next]: the first token after position [i] that is not
    whitespace. *)
Lemma token_next_spec ts i t :
  token_next ts i = Some t ↔
  ∃ j, (i < j)%nat ∧ ts !! j = Some t ∧ is_whitespace t = false ∧
       ∀ k t', (i < k < j)%nat → ts !! k = Some t' → is_whitespace t' = true.
Proof.
  unfold token_next. rewrite find_first. split.
  - intros (j & Hj & Hx & Hbefore). rewrite lookup_drop in Hj.
    exists (S i + j)%nat. split; [lia|]. split; [done|].
    split; [by apply negb_true_iff|].
    intros k t' Hk Hk'. apply negb_false_iff. apply (Hbefore (k - S i)%nat); [lia|].
    rewrite lookup_drop. by replace (S i + (k - S i))%nat with k by lia.
  - intros (j & Hij & Hj & Hx & Hbefore). exists (j - S i)%nat.
    rewrite lookup_drop. replace (S i + (j - S i))%nat with j by lia.
    split; [done|]. split; [by apply negb_true_iff|].
    intros k y Hk Hy. rewrite lookup_drop in Hy. apply negb_false_iff.
    apply (Hbefore (S i + k)%nat); [lia|done].
Qed.

Lemma followed_by_all_test ts i :
  followed_by_all ts i ↔ next_is_all (token_next ts i) = true.
Proof.
  unfold followed_by_all. split.
  - intros (j & t & Hij & Hj & Hkw & Hbefore).
    assert (token_next ts i = Some t) as ->.
    { apply token_next_spec. exists j. split; [done|]. split; [done|]. split; [|done].
      by destruct Hkw as (v & -> & _). }
    simpl. by apply token_match_keyword.
  - destruct (token_next ts i) as [t|] eqn:Hnext; simpl; [|done].
    intros Hkw%token_match_keyword; [|done].
    apply token_next_spec in Hnext as (j & Hij & Hj & _ & Hbefore). by exists j, t.
Qed.

Lemma bare_union_at_test ts i : bare_union_at ts i ↔ union_test_at ts i.
Proof.
  unfold bare_union_at, union_test_at. split.
  - intros (t & Hi & Hkw & Hn). exists t. split; [done|].
    split; [by apply token_match_keyword|].
    apply not_true_iff_false. by rewrite <-followed_by_all_test.
  - intros (t & Hi & Hm & Hn). exists t. split; [done|].
    split; [by apply token_match_keyword in Hm|].
    rewrite followed_by_all_test. by apply not_true_iff_false.
Qed.

(** C4.  If some top-level token is the keyword [UNION] and the first
    token after it that is not whitespace is not the keyword [ALL], the
    suggestions hold exactly one of type [REPLACE_UNION_WITH_UNION_ALL],
    and its SQL is the raw text with the first occurrence of [UNION]
    replaced by [UNION ALL]; if every top-level [UNION] keyword is
    followed by [ALL], they hold none of that type. *)
Theorem C4_union_rule (p : SQLParser) :
  ((∃ i, bare_union_at (tokens (parsed p)) i) →
   ∃ s, of_type "REPLACE_UNION_WITH_UNION_ALL" (suggest_rewrites p) = [s] ∧
        suggestion_type s = "REPLACE_UNION_WITH_UNION_ALL" ∧
        first_occurrence_replaced "UNION" "UNION ALL" (raw_sql p) (suggested_sql s)) ∧
  ((∀ i t, tokens (parsed p) !! i = Some t → keyword_token "UNION" t →
           followed_by_all (tokens (parsed p)) i) →
   of_type "REPLACE_UNION_WITH_UNION_ALL" (suggest_rewrites p) = []).
Proof.
  rewrite of_type_union_suggest_rewrites. unfold _check_union_all_suggestion. split.
  - intros [i Hi%bare_union_at_test]. exists (union_all_suggestion (raw_sql p)).
    split; [|split; [done|apply str_replace_first_spec]].
    apply union_loop_found; [done|]. exists i. split; [lia|done].
  - intros Hall. apply union_loop_none; [done|]. intros j t _ Hj Hm.
    apply followed_by_all_test, (Hall j t Hj). by apply token_match_keyword in Hm.
Qed.

Lemma subquery_loop_existsb ts :
  subquery_loop ts =
  if existsb in_subquery_comparison ts then [subquery_to_join_suggestion] else [].
Proof. induction ts as [|t ts IH]; simpl; [done|]. by destruct (in_subquery_comparison t). Qed.

Lemma existsb_elem_of {A} (f : A → bool) (l : list A) :
  existsb f l = true ↔ ∃ x, x ∈ l ∧ f x = true.
Proof.
  rewrite existsb_exists. split; intros (x & Hin & Hf); exists x;
    (split; [|done]); by apply list_elem_of_In.
Qed.

Lemma in_subquery_comparison_spec c :
  in_subquery_comparison c = true ↔
  is_class C_Comparison c = true ∧
  (∃ s, s ∈ children c ∧ normalized s = "IN") ∧
  ∃ sub, List.find (is_class C_Parenthesis) (children c) = Some sub ∧
         ∃ x, x ∈ children sub ∧ token_match x T_DML "SELECT" = true.
Proof.
  unfold in_subquery_comparison. rewrite andb_true_iff.
  destruct (List.find (is_class C_Parenthesis) (children c)) as [sub|].
  - rewrite andb_true_iff, !existsb_elem_of.
    setoid_rewrite bool_decide_eq_true. split.
    + intros (? & ? & ?). eauto.
    + intros (? & ? & sub' & [= <-] & ?). eauto.
  - split; [by intros [_ ?]|]. by intros (_ & _ & ? & ? & _).
Qed.

Lemma check_subquery_iff p :
  _check_subquery_to_join p = [subquery_to_join_suggestion] ↔ first_paren_in_subquery p.
Proof.
  unfold _check_subquery_to_join, first_paren_in_subquery.
  destruct (List.find (is_class C_Where) (tokens (parsed p))) as [w|].
  - rewrite subquery_loop_existsb.
    destruct (existsb in_subquery_comparison (children w)) eqn:E.
    + apply existsb_elem_of in E as (c & Hc & Hin).
      apply in_subquery_comparison_spec in Hin as (? & ? & sub & ? & ?).
      split; [|done]. intros _. by exists w, c, sub.
    + split; [done|]. intros (w' & c & sub & [= <-] & Hc & ? & ? & ? & ?).
      assert (existsb in_subquery_comparison (children w) = true) as E'; [|congruence].
      apply existsb_elem_of. exists c. split; [done|].
      apply in_subquery_comparison_spec. eauto.
  - split; [done|]. by intros (? & ? & ? & ? & _).
Qed.

(** When the rule fires, on any tree: some Comparison that is a child
    of the first top-level WHERE node has a child whose normalized text
    is [IN], and its first Parenthesis child has a [SELECT] keyword
    among its children. *)
Lemma subquery_rule_first_parenthesis (p : SQLParser) :
  of_type "REWRITE_SUBQUERY_TO_JOIN" (suggest_rewrites p) = [subquery_to_join_suggestion]
  ↔ first_paren_in_subquery p.
Proof. rewrite of_type_subquery_suggest_rewrites. apply check_subquery_iff. Qed.

(** The rule is silent unless [IN] is a child of a Comparison node. *)
Lemma subquery_rule_needs_comparison (p : SQLParser) :
  of_type "REWRITE_SUBQUERY_TO_JOIN" (suggest_rewrites p) ≠ [] →
  ∃ where_clause c s,
    List.find (is_class C_Where) (tokens (parsed p)) = Some where_clause ∧
    c ∈ children where_clause ∧ is_class C_Comparison c = true ∧
    s ∈ children c ∧ normalized s = "IN".
Proof.
  rewrite of_type_subquery_suggest_rewrites. intros Hne.
  destruct (check_subquery_cases p) as [H|H]; [done|].
  apply check_subquery_iff in H as (w & c & sub & Hw & Hc & Hcmp & (s & Hs & Hn) & _).
  by exists w, c, s.
Qed.


(** ** The two alias tables *)

(** C3.  On [... FROM users u RIGHT JOIN orders o ON ...] the parser
    records both tables, while the scan of the advisor, which knows
    [FROM], [JOIN] and [LEFT JOIN] only and leaves its state on any other
    keyword, records [users] alone: the two tables differ, and the
    advisor does not resolve the alias [o]. *)
Theorem C3_alias_tables_diverge :
  _get_tables_and_aliases Examples.right_join
    = Ok [(Some "u", Some "users"); (Some "o", Some "orders")] ∧
  map_aliases_scan (parsed Examples.right_join) = Ok [(Some "u", Some "users")] ∧
  _get_tables_and_aliases Examples.right_join ≠ map_aliases_scan (parsed Examples.right_join) ∧
  resolve [(Some "u", Some "users"); (Some "o", Some "orders")] "o" = Some "orders" ∧
  resolve [(Some "u", Some "users")] "o" = None.
Proof. by vm_compute. Qed.

(** The advisor builds that table from the raw text of the report. *)
Lemma map_aliases_to_tables_scan sqlparse_parse r sql st rest :
  report_raw_sql r = Some sql →
  sqlparse_parse sql = st :: rest →
  _map_aliases_to_tables sqlparse_parse r = map_aliases_scan st.
Proof.
  intros Hraw Hparse. unfold _map_aliases_to_tables, first_statement.
  rewrite Hraw. simpl. by rewrite Hparse.
Qed.

(** ** Clause usage *)

Lemma py_sorted_refs_set o l : py_sorted_refs (list_of_set o l) = py_sorted_refs l.
Proof. apply py_sorted_refs_perm_eq, list_of_set_perm. Qed.

Lemma py_sorted_names_set o l : py_sorted_names (list_of_set o l) = py_sorted_names l.
Proof. apply py_sorted_names_perm_eq, list_of_set_perm. Qed.

(** The buckets do not depend on the enumeration order of the sets. *)
Lemma analyze_column_usage_order o1 o2 p :
  analyze_column_usage o1 p = analyze_column_usage o2 p.
Proof. unfold analyze_column_usage. by rewrite !py_sorted_refs_set. Qed.

Lemma extract_tables_order o1 o2 p : extract_tables o1 p = extract_tables o2 p.
Proof.
  unfold extract_tables. destruct (_get_tables_and_aliases p) as [m|e]; simpl; [|done].
  by rewrite !py_sorted_names_set.
Qed.

(** C9.  On [SELECT a FROM t ORDER BY 2 DESC, a] the classifier fails:
    the ORDER BY bucket holds [("unknown", None)] for [2 DESC] and
    [("unknown", "a")], and sorting them compares [None] with a string.
    This holds in whatever order the set is enumerated. *)
Theorem C9_classifier_fails_on_nameless_identifier (o : SetOrder) :
  order_by (collect_usage (tokens (parsed Examples.order_by_position)))
    = [("unknown", None); ("unknown", Some "a")] ∧
  analyze_column_usage o Examples.order_by_position = Raise TypeError.
Proof.
  split; [by vm_compute|].
  rewrite (analyze_column_usage_order o Examples.insertion_order). by vm_compute.
Qed.

(** The case the specification names, an [ORDER BY] keyword that
    nothing follows, is handled: the bucket stays empty. *)
Example C9_order_by_without_next_token (o : SetOrder) :
  analyze_column_usage o Examples.order_by_nothing = Ok empty_usage.
Proof.
  rewrite (analyze_column_usage_order o Examples.insertion_order). by vm_compute.
Qed.

(** ** Determinism *)

Lemma run_analysis_order o1 o2 re p : run_analysis o1 re p = run_analysis o2 re p.
Proof.
  unfold run_analysis.
  by rewrite (extract_tables_order o1 o2), (analyze_column_usage_order o1 o2).
Qed.

(** C8.  Two runs on the same text produce the same result, report for
    report (statement kind, tables, anti-patterns, usage map, join
    count, index recommendations, rewrite suggestions) and failure for
    failure, whatever order each run enumerates its sets in. *)
Theorem C8_determinism (sqlparse_parse : string → list Statement)
    (re_search : string → string → bool) (model : option (Z → nat → string))
    (o1 o2 : SetOrder) (sql : string) :
  analyze_query sqlparse_parse re_search o1 model sql
  = analyze_query sqlparse_parse re_search o2 model sql.
Proof.
  unfold analyze_query.
  destruct (SQLParser_init sqlparse_parse sql) as [parser|e]; simpl; [|done].
  (* the parser, the advisor and the optimizer do not enumerate a set;
     the analyser sorts what it enumerates *)
  assert (run_analysis o1 re_search parser = run_analysis o2 re_search parser) as ->; [|done].
  unfold run_analysis.
  by rewrite (extract_tables_order o1 o2), (analyze_column_usage_order o1 o2).
Qed.

(** ** Dictionaries *)

Section pydict_facts.
Context {K V : Type} `{EqDecision K}.
Implicit Types (d : pydict K V) (k : K) (v : V).

Lemma dict_get_set_eq k v d : dict_get k (dict_set k v d) = Some v.
Proof.
  induction d as [|[k' v'] d IH]; simpl.
  - by rewrite decide_True.
  - destruct (decide (k = k')) as [->|Hne]; simpl.
    + by rewrite decide_True.
    + by rewrite decide_False.
Qed.

Lemma dict_get_set_ne k k' v d : k ≠ k' → dict_get k' (dict_set k v d) = dict_get k' d.
Proof.
  intros Hne. induction d as [|[k0 v0] d IH]; simpl.
  - by rewrite decide_False.
  - destruct (decide (k = k0)) as [->|Hne0]; simpl.
    + by rewrite !decide_False.
    + by rewrite IH.
Qed.

Lemma dict_get_None k d : dict_get k d = None ↔ k ∉ d.*1.
Proof.
  induction d as [|[k' v'] d IH]; simpl.
  - split; [intros _; apply not_elem_of_nil|done].
  - rewrite not_elem_of_cons. destruct (decide (k = k')) as [->|Hne].
    + split; [done|]. by intros [? _].
    + rewrite IH. tauto.
Qed.

Lemma dict_set_keys k v d :
  (dict_set k v d).*1 = if decide (k ∈ d.*1) then d.*1 else d.*1 ++ [k].
Proof.
  induction d as [|[k' v'] d IH].
  - done.
  - cbn [dict_set]. destruct (decide (k = k')) as [->|Hne].
    + cbn [fmap list_fmap fst]. rewrite decide_True; [done|by left].
    + change ((((k', v') :: dict_set k v d).*1)) with (k' :: (dict_set k v d).*1).
      change (((k', v') :: d).*1) with (k' :: d.*1).
      rewrite IH. destruct (decide (k ∈ d.*1)) as [Hin|Hnin].
      * rewrite decide_True; [done|by right].
      * rewrite decide_False; [done|]. rewrite not_elem_of_cons. done.
Qed.

Lemma dict_set_NoDup k v d : NoDup d.*1 → NoDup (dict_set k v d).*1.
Proof.
  intros Hnd. rewrite dict_set_keys. case_decide; [done|].
  apply NoDup_app. split; [done|]. split; [|apply NoDup_singleton].
  intros x Hx ->%list_elem_of_singleton. done.
Qed.

Lemma dict_get_elem_of k v d : dict_get k d = Some v → (k, v) ∈ d.
Proof.
  induction d as [|[k' v'] d IH]; simpl; [done|].
  destruct (decide (k = k')) as [->|Hne].
  - intros [= ->]. by left.
  - intros ?. right. by apply IH.
Qed.

Lemma elem_of_dict_get k v d : NoDup d.*1 → (k, v) ∈ d → dict_get k d = Some v.
Proof.
  induction d as [|[k' v'] d IH]; intros Hnd Hin.
  - by apply elem_of_nil in Hin.
  - change (((k', v') :: d).*1) with (k' :: d.*1) in Hnd.
    apply NoDup_cons in Hnd as [Hk' Hnd]. simpl.
    apply elem_of_cons in Hin as [[= -> ->]|Hin].
    + by rewrite decide_True.
    + rewrite decide_False; [by apply IH|]. intros ->. apply Hk'.
      apply list_elem_of_fmap. by exists (k', v).
Qed.
End pydict_facts.

(** ** The grouping of the WHERE references by table *)

Lemma resolved_to_cons m t p l :
  resolved_to m t (p :: l) =
  if decide (resolve m p.1 = Some t) then p :: resolved_to m t l else resolved_to m t l.
Proof. done. Qed.

Lemma table_to_cols_append_get d table p t :
  dict_get t (table_to_cols_append d table p) =
  if decide (t = table) then Some (default [] (dict_get table d) ++ [p]) else dict_get t d.
Proof.
  unfold table_to_cols_append. destruct (decide (t = table)) as [->|Hne].
  - rewrite dict_get_set_eq. destruct (dict_get table d) as [c|] eqn:E; [by rewrite E|].
    by rewrite dict_get_set_eq.
  - rewrite dict_get_set_ne by done.
    destruct (dict_get table d) as [c|]; [done|]. by rewrite dict_get_set_ne.
Qed.

Lemma table_to_cols_append_NoDup (d : TableToCols) table p :
  NoDup d.*1 → NoDup (table_to_cols_append d table p).*1.
Proof.
  intros Hnd. unfold table_to_cols_append. apply dict_set_NoDup.
  destruct (dict_get table d); [done|]. by apply dict_set_NoDup.
Qed.

Lemma group_fold_spec m wf (d0 : TableToCols) :
  NoDup d0.*1 →
  NoDup (foldl (group_step m) d0 wf).*1 ∧
  ∀ t, dict_get t (foldl (group_step m) d0 wf) =
       match dict_get t d0 with
       | Some c => Some (c ++ resolved_to m t wf)
       | None => if decide (resolved_to m t wf = []) then None
                 else Some (resolved_to m t wf)
       end.
Proof.
  revert d0. induction wf as [|p wf IH]; intros d0 Hnd.
  - split; [done|]. intros t. simpl. destruct (dict_get t d0); [by rewrite app_nil_r|done].
  - cbn [foldl].
    assert (group_step m d0 p =
            match resolve m p.1 with
            | Some tp => table_to_cols_append d0 tp p
            | None => d0
            end) as -> by done.
    destruct (resolve m p.1) as [tp|] eqn:Hres.
    + destruct (IH (table_to_cols_append d0 tp p)) as [Hnd' Hget];
        [by apply table_to_cols_append_NoDup|].
      split; [done|]. intros t.
      rewrite Hget, table_to_cols_append_get, resolved_to_cons, Hres.
      destruct (decide (Some tp = Some t)) as [[= ->]|Hne].
      * rewrite decide_True by done.
        destruct (dict_get t d0) as [c|]; simpl.
        -- by rewrite <-app_assoc.
        -- done.
      * rewrite decide_False by congruence. done.
    + destruct (IH d0 Hnd) as [Hnd' Hget]. split; [done|]. intros t.
      rewrite Hget, resolved_to_cons, Hres. by destruct (decide (None = Some t)).
Qed.

Lemma build_table_to_cols_NoDup m wf : NoDup (build_table_to_cols m wf).*1.
Proof. apply group_fold_spec. simpl. apply NoDup_nil_2. Qed.

Lemma build_table_to_cols_get m wf t :
  dict_get t (build_table_to_cols m wf) =
  if decide (resolved_to m t wf = []) then None else Some (resolved_to m t wf).
Proof.
  unfold build_table_to_cols.
  destruct (group_fold_spec m wf []) as [_ ->]; [apply NoDup_nil_2|]. done.
Qed.

Lemma build_table_to_cols_elem_of m wf t cols :
  (t, cols) ∈ build_table_to_cols m wf ↔ cols = resolved_to m t wf ∧ cols ≠ [].
Proof.
  split.
  - intros Hin. apply elem_of_dict_get in Hin; [|apply build_table_to_cols_NoDup].
    rewrite build_table_to_cols_get in Hin. case_decide; [done|]. by simplify_eq.
  - intros [-> Hne]. apply dict_get_elem_of. rewrite build_table_to_cols_get.
    by rewrite decide_False.
Qed.

(** ** The recommendations on references that all have a column name *)

Lemma string_app_assoc (a b c : string) : (a +:+ b) +:+ c = a +:+ (b +:+ c).
Proof.
  induction a as [|x a IH]; [done|].
  change (String x ((a +:+ b) +:+ c) = String x (a +:+ (b +:+ c))). by rewrite IH.
Qed.

Lemma column_names_snd cols :
  Forall has_column cols → cols.*2 = Some <$> column_names cols.
Proof.
  induction 1 as [|[a [c|]] cols Hc _ IH]; [done| |by destruct Hc].
  unfold column_names in *. csimpl. by rewrite IH.
Qed.

Lemma py_join_strings sep ss : py_join sep (Some <$> ss) = Ok (String.concat sep ss).
Proof. unfold py_join. by rewrite all_str_fmap_Some. Qed.

Lemma composite_step_named st e :
  Forall has_column e.2 →
  composite_step st e = Ok (st.1 ++ composite_of e, claimed_by st.2 e).
Proof.
  destruct st as [recs claimed], e as [table cols]. simpl. intros Hcols.
  unfold composite_step, composite_of, claimed_by. simpl.
  destruct (decide (1 < length cols)%nat); [|by rewrite app_nil_r].
  rewrite (column_names_snd _ Hcols), py_sorted_names_strings. simpl.
  unfold _generate_index_name. rewrite !py_join_strings. simpl.
  do 3 f_equal. unfold composite_rec. f_equal.
  by rewrite !string_app_assoc.
Qed.

Lemma foldM_composite_named st items :
  Forall (λ e, Forall has_column e.2) items →
  foldM composite_step st items
  = Ok (st.1 ++ (items ≫= composite_of), foldl claimed_by st.2 items).
Proof.
  intros Hall. revert st. induction Hall as [|e items He _ IH]; intros st.
  - simpl. by rewrite app_nil_r; destruct st.
  - cbn [foldM]. rewrite (composite_step_named _ _ He). simpl.
    rewrite IH. simpl. by rewrite <-app_assoc.
Qed.

Lemma single_step_named m claimed k reason_text recs p :
  has_column p →
  single_step m claimed k reason_text recs p
  = Ok (recs ++ single_of m claimed k reason_text p).
Proof.
  intros [c Hc]. unfold single_step, single_of.
  destruct (decide (p ∈ claimed)); [by rewrite app_nil_r|].
  destruct (resolve m p.1) as [table|]; [|by rewrite app_nil_r].
  rewrite Hc. unfold _generate_index_name, py_join. simpl.
  do 3 f_equal. unfold single_rec. f_equal.
  by rewrite !string_app_assoc.
Qed.

Lemma foldM_single_named m claimed k reason_text recs l :
  Forall has_column l →
  foldM (single_step m claimed k reason_text) recs l
  = Ok (recs ++ (l ≫= single_of m claimed k reason_text)).
Proof.
  intros Hall. revert recs. induction Hall as [|p l Hp _ IH]; intros recs.
  - simpl. by rewrite app_nil_r.
  - cbn [foldM]. rewrite (single_step_named _ _ _ _ _ _ Hp). simpl.
    rewrite IH. by rewrite <-app_assoc.
Qed.

Lemma typed_has_column l : Forall has_column (typed l).
Proof. apply Forall_fmap, Forall_true. intros p. by eexists. Qed.

Lemma resolved_to_has_column m t l :
  Forall has_column l → Forall has_column (resolved_to m t l).
Proof.
  rewrite !Forall_forall. intros Hl p [_ Hp]%list_elem_of_filter. by apply Hl.
Qed.

Lemma build_table_to_cols_has_column m wf :
  Forall has_column wf →
  Forall (λ e, Forall has_column e.2) (build_table_to_cols m wf).
Proof.
  intros Hwf. apply Forall_forall. intros [t cols] [-> _]%build_table_to_cols_elem_of.
  by apply resolved_to_has_column.
Qed.

Lemma composite_phase_named m wf :
  Forall has_column wf →
  composite_phase m wf =
  Ok (if decide (1 < length wf)%nat
      then (build_table_to_cols m wf ≫= composite_of,
            foldl claimed_by [] (build_table_to_cols m wf))
      else ([], [])).
Proof.
  intros Hwf. unfold composite_phase. case_decide; [|done].
  by rewrite foldM_composite_named by by apply build_table_to_cols_has_column.
Qed.

Lemma generate_traced_named m u :
  Forall has_column (where_filters u) →
  Forall has_column (join_keys u) →
  Forall has_column (order_by u) →
  ∃ comps claimed,
    composite_phase m (where_filters u) = Ok (comps, claimed) ∧
    generate_recommendations_traced m u
    = Ok (comps ++ singles m claimed u WhereFilters ++ singles m claimed u JoinKeys
                ++ singles m claimed u OrderBy).
Proof.
  intros Hwf Hjk Hob. unfold generate_recommendations_traced.
  rewrite (composite_phase_named _ _ Hwf).
  set (st := if decide (1 < length (where_filters u))%nat then _ else _).
  destruct st as [comps claimed]. exists comps, claimed. split; [done|].
  simpl. rewrite !foldM_single_named by done. simpl.
  rewrite !foldM_single_named by done. simpl.
  rewrite !foldM_single_named by done. simpl.
  by rewrite <-!app_assoc.
Qed.

Lemma set_add_elem_of {A} `{EqDecision A} (s : list A) (x y : A) :
  y ∈ set_add s x ↔ y ∈ s ∨ y = x.
Proof.
  unfold set_add. case_decide as Hin.
  - split; [by left|]. by intros [?| ->].
  - rewrite elem_of_app, list_elem_of_singleton. done.
Qed.

Lemma foldl_set_add_elem_of {A} `{EqDecision A} (s l : list A) (y : A) :
  y ∈ foldl set_add s l ↔ y ∈ s ∨ y ∈ l.
Proof.
  revert s. induction l as [|x l IH]; intros s; simpl.
  - rewrite elem_of_nil. tauto.
  - rewrite IH, set_add_elem_of, elem_of_cons. tauto.
Qed.

Lemma claimed_by_mono claimed e p : p ∈ claimed → p ∈ claimed_by claimed e.
Proof.
  intros Hp. unfold claimed_by. case_decide; [|done].
  apply foldl_set_add_elem_of. by left.
Qed.

Lemma foldl_claimed_by_mono claimed items p :
  p ∈ claimed → p ∈ foldl claimed_by claimed items.
Proof.
  revert claimed. induction items as [|e items IH]; intros claimed Hp; [done|].
  simpl. by apply IH, claimed_by_mono.
Qed.

Lemma foldl_claimed_by_elem_of claimed items e p :
  e ∈ items → (1 < length e.2)%nat → p ∈ e.2 → p ∈ foldl claimed_by claimed items.
Proof.
  revert claimed. induction items as [|e' items IH]; intros claimed He Hbig Hp.
  - by apply elem_of_nil in He.
  - simpl. apply elem_of_cons in He as [<-|He].
    + apply foldl_claimed_by_mono. unfold claimed_by. rewrite decide_True by done.
      apply foldl_set_add_elem_of. by right.
    + by apply IH.
Qed.

Lemma composite_of_origin e x : x ∈ composite_of e → x.1 = FromComposite e.1.
Proof.
  unfold composite_of. case_decide; [|by intros ?%elem_of_nil].
  by intros ->%list_elem_of_singleton.
Qed.

Lemma single_of_origin m claimed k rt p x :
  x ∈ single_of m claimed k rt p → x.1 = FromSingle k p ∧ p ∉ claimed.
Proof.
  unfold single_of. case_decide; [by intros ?%elem_of_nil|].
  destruct (resolve m p.1), p.2; try by intros ?%elem_of_nil.
  by intros ->%list_elem_of_singleton.
Qed.

Lemma filter_composite_singles m claimed k rt t l :
  filter (λ e : origin * Recommendation, e.1 = FromComposite t)
         (l ≫= single_of m claimed k rt) = [].
Proof.
  apply elem_of_nil_inv. intros x [Hx Hin]%list_elem_of_filter.
  apply list_elem_of_bind in Hin as (p & Hin & _).
  apply single_of_origin in Hin as [Hin _]. congruence.
Qed.

Lemma filter_composite_other (d : TableToCols) t :
  t ∉ d.*1 →
  filter (λ e : origin * Recommendation, e.1 = FromComposite t) (d ≫= composite_of) = [].
Proof.
  intros Ht. apply elem_of_nil_inv. intros x [Hx Hin]%list_elem_of_filter.
  apply list_elem_of_bind in Hin as ([k v] & Hin & Hd).
  apply composite_of_origin in Hin. simpl in Hin.
  apply Ht, list_elem_of_fmap. exists (k, v). split; [|done]. simpl. congruence.
Qed.

Lemma filter_composite_own t cols :
  filter (λ e : origin * Recommendation, e.1 = FromComposite t) (composite_of (t, cols))
  = composite_of (t, cols).
Proof.
  unfold composite_of. simpl. case_decide; [|done].
  rewrite filter_cons, decide_True by done. done.
Qed.

Lemma filter_composite_get (d : TableToCols) t cols :
  NoDup d.*1 → dict_get t d = Some cols →
  filter (λ e : origin * Recommendation, e.1 = FromComposite t) (d ≫= composite_of)
  = composite_of (t, cols).
Proof.
  induction d as [|[k v] d IH]; intros Hnd Hget; [done|].
  change (((k, v) :: d).*1) with (k :: d.*1) in Hnd.
  apply NoDup_cons in Hnd as [Hk Hnd].
  change (((k, v) :: d) ≫= composite_of) with (composite_of (k, v) ++ (d ≫= composite_of)).
  rewrite filter_app. simpl in Hget. destruct (decide (t = k)) as [->|Hne].
  - simplify_eq. rewrite filter_composite_own, filter_composite_other by done.
    by rewrite app_nil_r.
  - rewrite IH by done.
    replace (filter _ (composite_of (k, v))) with (@nil (origin * Recommendation)); [done|].
    symmetry. apply elem_of_nil_inv. intros x [Hx Hin]%list_elem_of_filter.
    apply composite_of_origin in Hin. simpl in Hin. congruence.
Qed.

(** Composite suppresses singleton, on references that all have a
    column name.  If more than one reference of [where_filters]
    resolves to [table], the advisor returns, exactly one of its
    recommendations was appended by the composite loop for [table], that
    one has the columns of these references in sorted order in its
    statement
    [CREATE INDEX idx_<table>_<c1>_<c2>... ON <table> (<c1>, <c2>, ...);]
    and impact [High], and no recommendation was appended by the
    single-column loop for any of these references, in any bucket. *)
Lemma composite_suppresses_singleton_named (m : AliasTable) (u : ColumnUsage)
    (table : string) :
  Forall has_column (where_filters u) →
  Forall has_column (join_keys u) →
  Forall has_column (order_by u) →
  (1 < length (resolved_to m table (where_filters u)))%nat →
  ∃ recs r cs,
    generate_recommendations_traced m u = Ok recs ∧
    filter (λ e, e.1 = FromComposite table) recs = [(FromComposite table, r)] ∧
    Sorted String.le cs ∧
    cs ≡ₚ column_names (resolved_to m table (where_filters u)) ∧
    statement r = "CREATE INDEX idx_" +:+ table +:+ "_" +:+ String.concat "_" cs
                  +:+ " ON " +:+ table +:+ " (" +:+ String.concat ", " cs +:+ ");" ∧
    impact r = "High" ∧
    ∀ p k r', p ∈ resolved_to m table (where_filters u) → (FromSingle k p, r') ∉ recs.
Proof.
  intros Hwf Hjk Hob Hbig. set (cols := resolved_to m table (where_filters u)) in *.
  destruct (generate_traced_named m u Hwf Hjk Hob) as (comps & claimed & Hcomp & Hgen).
  assert (1 < length (where_filters u))%nat as Hguard.
  { eapply Nat.lt_le_trans; [exact Hbig|]. apply length_filter. }
  rewrite composite_phase_named in Hcomp by done.
  rewrite decide_True in Hcomp by done. injection Hcomp as <- <-.
  assert (dict_get table (build_table_to_cols m (where_filters u)) = Some cols) as Hget.
  { rewrite build_table_to_cols_get. fold cols. case_decide as Hnil; [|done].
    rewrite Hnil in Hbig. simpl in Hbig. lia. }
  eexists _, (composite_rec table (merge_sort String.le (column_names cols))),
          (merge_sort String.le (column_names cols)).
  split; [exact Hgen|]. split; [|split; [|split; [|split; [|split]]]].
  - rewrite !filter_app. unfold singles. rewrite !filter_composite_singles, !app_nil_r.
    rewrite (filter_composite_get _ _ cols) by (apply build_table_to_cols_NoDup || done).
    unfold composite_of. simpl. by rewrite decide_True.
  - apply Sorted_merge_sort. apply _.
  - apply merge_sort_Permutation.
  - done.
  - done.
  - intros p k r' Hp. rewrite !elem_of_app. intros Hin.
    assert (p ∈ foldl claimed_by [] (build_table_to_cols m (where_filters u))) as Hclaimed.
    { apply (foldl_claimed_by_elem_of _ _ (table, cols)); [|done..].
      by apply dict_get_elem_of. }
    destruct Hin as [Hin|[Hin|[Hin|Hin]]].
    + apply list_elem_of_bind in Hin as (e & Hin & _).
      apply composite_of_origin in Hin. done.
    + apply list_elem_of_bind in Hin as (q & Hin & _).
      apply single_of_origin in Hin as [[= _ <-] Hq]. done.
    + apply list_elem_of_bind in Hin as (q & Hin & _).
      apply single_of_origin in Hin as [[= _ <-] Hq]. done.
    + apply list_elem_of_bind in Hin as (q & Hin & _).
      apply single_of_origin in Hin as [[= _ <-] Hq]. done.
Qed.

(** ** References whose alias does not resolve *)

Section drop_unresolved.
Context (m : AliasTable) (P : column_ref → Prop) `{∀ q, Decision (P q)}.
Hypothesis unresolved : ∀ q, ¬ P q → resolve m q.1 = None.

Lemma group_fold_filter d wf :
foldl (group_step m) d (filter P wf) = foldl (group_step m) d wf.
Proof.
revert d. induction wf as [|q wf IH]; intros d; [done|].
rewrite filter_cons. destruct (decide (P q)) as [Hq|Hq]; simpl; [done|].
assert (group_step m d q = d) as Hstep.
{ unfold group_step. by rewrite (unresolved q Hq). }
rewrite IH. cbn [foldl]. by rewrite Hstep.
Qed.

Lemma build_table_to_cols_filter wf :
build_table_to_cols m (filter P wf) = build_table_to_cols m wf.
Proof. apply group_fold_filter. Qed.

Lemma foldM_single_filter claimed k rt recs l :
foldM (single_step m claimed k rt) recs (filter P l)
= foldM (single_step m claimed k rt) recs l.
Proof.
revert recs. induction l as [|q l IH]; intros recs; [done|].
rewrite filter_cons. destruct (decide (P q)) as [Hq|Hq].
- cbn [foldM]. destruct (single_step m claimed k rt recs q); simpl; [done|done].
- cbn [foldM]. rewrite IH.
  assert (single_step m claimed k rt recs q = Ok recs) as ->; [|done].
  unfold single_step. rewrite (unresolved q Hq). by case_decide.
Qed.
End drop_unresolved.

Lemma foldM_composite_small st (items : TableToCols) :
  Forall (λ e, length e.2 ≤ 1)%nat items → foldM composite_step st items = Ok st.
Proof.
  intros Hall. revert st.
  induction Hall as [|[t cols] items He _ IH]; intros [recs claimed]; [done|].
  cbn [foldM].
  assert (composite_step (recs, claimed) (t, cols) = Ok (recs, claimed)) as ->.
  { unfold composite_step. simpl in He. destruct (decide (1 < length cols)%nat); [lia|done]. }
  apply IH.
Qed.

Lemma composite_phase_small m wf :
  (length wf ≤ 1)%nat →
  foldM composite_step ([], []) (build_table_to_cols m wf) = Ok ([], []).
Proof.
  intros Hlen. apply foldM_composite_small, Forall_forall.
  intros [t cols] [-> _]%build_table_to_cols_elem_of. simpl.
  etrans; [apply length_filter|done].
Qed.

Lemma composite_phase_filter m (P : column_ref → Prop) `{∀ q, Decision (P q)} wf :
  (∀ q, ¬ P q → resolve m q.1 = None) →
  composite_phase m (filter P wf) = composite_phase m wf.
Proof.
  intros Hun. unfold composite_phase.
  rewrite (build_table_to_cols_filter m P Hun).
  pose proof (length_filter P wf) as Hle.
  destruct (decide (1 < length (filter P wf))%nat) as [Hbig|Hsmall].
  - rewrite decide_True by lia. done.
  - case_decide; [|done].
    rewrite <-(build_table_to_cols_filter m P Hun).
    rewrite composite_phase_small by lia. done.
Qed.

(** Dropping references whose alias does not resolve changes neither
    the recommendations nor whether the call fails. *)
Lemma generate_traced_filter m (P : column_ref → Prop) `{∀ q, Decision (P q)} u :
  (∀ q, ¬ P q → resolve m q.1 = None) →
  generate_recommendations_traced m (filter_usage P u)
  = generate_recommendations_traced m u.
Proof.
  intros Hun. unfold generate_recommendations_traced. simpl.
  rewrite (composite_phase_filter m P _ Hun).
  destruct (composite_phase m (where_filters u)) as [[recs claimed]|e]; [|done].
  simpl. rewrite (foldM_single_filter m P Hun).
  destruct (foldM _ recs (where_filters u)) as [recs1|e]; [|done].
  simpl. rewrite (foldM_single_filter m P Hun).
  destruct (foldM _ recs1 (join_keys u)) as [recs2|e]; [|done].
  simpl. rewrite (foldM_single_filter m P Hun). done.
Qed.

Lemma foldM_inv {A B} (I : B → Prop) (f : B → A → result B) :
  (∀ b x b', I b → f b x = Ok b' → I b') →
  ∀ l b b', I b → foldM f b l = Ok b' → I b'.
Proof.
  intros Hstep l. induction l as [|x l IH]; intros b b' Hb; simpl.
  - by intros [= <-].
  - intros (b1 & Hb1 & Hrest)%bind_Ok. eauto.
Qed.

Lemma composite_step_from_resolved m st e st' :
  Forall (from_resolved m) st.1 → composite_step st e = Ok st' →
  Forall (from_resolved m) st'.1.
Proof.
  destruct st as [recs claimed], e as [t cols]. unfold composite_step. simpl.
  case_decide; [|by intros ? [= <-]].
  intros Hrecs (sc & _ & (name & _ & (j & _ & [= <-])%bind_Ok)%bind_Ok)%bind_Ok.
  simpl. apply Forall_app. split; [done|]. by apply Forall_singleton.
Qed.

Lemma single_step_from_resolved m claimed k rt recs q recs' :
  Forall (from_resolved m) recs → single_step m claimed k rt recs q = Ok recs' →
  Forall (from_resolved m) recs'.
Proof.
  unfold single_step. case_decide; [by intros ? [= <-]|].
  destruct (resolve m q.1) as [table|] eqn:Hres; [|by intros ? [= <-]].
  intros Hrecs (name & _ & [= <-])%bind_Ok.
  apply Forall_app. split; [done|]. apply Forall_singleton.
  unfold from_resolved. simpl. by rewrite Hres.
Qed.

Lemma generate_traced_from_resolved m u recs :
  generate_recommendations_traced m u = Ok recs → Forall (from_resolved m) recs.
Proof.
  unfold generate_recommendations_traced.
  intros ([comps claimed] & Hcomp & Hsingles)%bind_Ok.
  assert (Forall (from_resolved m) comps) as Hcomps.
  { unfold composite_phase in Hcomp. case_decide; [|by simplify_eq].
    change comps with (comps, claimed).1.
    revert Hcomp.
    apply (foldM_inv (λ st : advisor_state, Forall (from_resolved m) st.1));
      [|by apply Forall_nil_2].
    intros ???. apply composite_step_from_resolved. }
  revert Hsingles. apply foldM_inv; [|done].
  intros recs0 [k rt] recs1 Hrecs0. apply foldM_inv; [|done].
  intros ???. apply single_step_from_resolved.
Qed.

(** C6.  A reference whose alias does not resolve is dropped silently:
    the advisor returns what it returns on the usage map without that
    reference (the same recommendations, and a failure only if it fails
    without it as well); no recommendation of a successful call was
    appended for that reference; and the call succeeds whenever the
    references that do resolve have a column name. *)
Theorem C6_unresolved_alias_dropped (a : IndexAdvisor) (p : column_ref) :
  resolve (alias_to_table_map a) p.1 = None →
  generate_recommendations (with_usage a (without_ref p (advisor_column_usage a)))
    = generate_recommendations a ∧
  (∀ recs,
     generate_recommendations_traced (alias_to_table_map a) (advisor_column_usage a) = Ok recs →
     ∀ k r, (FromSingle k p, r) ∉ recs) ∧
  ((∀ k q, q ∈ usage_get (advisor_column_usage a) k →
           is_Some (resolve (alias_to_table_map a) q.1) → has_column q) →
   ∃ recs, generate_recommendations a = Ok recs).
Proof.
  intros Hp. set (m := alias_to_table_map a). set (u := advisor_column_usage a).
  split; [|split].
  - unfold generate_recommendations, with_usage, without_ref. simpl. fold m u.
    rewrite generate_traced_filter; [done|].
    intros q Hq. destruct (decide (q = p)) as [->|]; [done|]. by destruct Hq.
  - intros recs Hrecs k r Hin.
    apply generate_traced_from_resolved in Hrecs.
    rewrite Forall_forall in Hrecs. specialize (Hrecs _ Hin).
    unfold from_resolved in Hrecs. simpl in Hrecs. fold m in Hp.
    rewrite Hp in Hrecs. by destruct Hrecs.
  - intros Hcols. unfold generate_recommendations. fold m u.
    rewrite <-(generate_traced_filter m (λ q, is_Some (resolve m q.1)) u).
    + destruct (generate_traced_named m (filter_usage (λ q, is_Some (resolve m q.1)) u))
        as (comps & claimed & _ & ->).
      * apply Forall_forall. intros q [Hq Hin]%list_elem_of_filter.
        by apply (Hcols WhereFilters).
      * apply Forall_forall. intros q [Hq Hin]%list_elem_of_filter.
        by apply (Hcols JoinKeys).
      * apply Forall_forall. intros q [Hq Hin]%list_elem_of_filter.
        by apply (Hcols OrderBy).
      * simpl. eauto.
    + intros q Hq. destruct (resolve m q.1); [|done]. destruct Hq. by eexists.
Qed.

(** ** The theorems at the statements of the specification *)

(** The composite index scenario of the specification. *)
Example composite_index_scenario :
  index_recommendations <$>
    analyze_query Examples.tokenizer Examples.no_regex Examples.insertion_order None
                  (raw_sql Examples.composite_scenario)
  = Ok [ {| statement := "CREATE INDEX idx_users_a_b ON users (a, b);";
            reason := "Columns a, b are used together in the WHERE clause.";
            impact := "High"; ml_predicted_impact := None |};
         {| statement := "CREATE INDEX idx_orders_user_id ON orders (user_id);";
            reason := "Column 'user_id' is used for a JOIN condition.";
            impact := "High"; ml_predicted_impact := None |};
         {| statement := "CREATE INDEX idx_users_id ON users (id);";
            reason := "Column 'id' is used for a JOIN condition.";
            impact := "High"; ml_predicted_impact := None |} ].
Proof. by vm_compute. Qed.

Lemma C2_join_count_law_witness :
  ∃ m, _get_tables_and_aliases Examples.select_star_parser = Ok m ∧
       tables Examples.select_star_report ≡ₚ py_set (dict_values m) ∧
       NoDup (tables Examples.select_star_report) ∧
       join_count Examples.select_star_report = Z.max 0 (Z.of_nat (length (py_set (dict_values m))) - 1) ∧
       join_count Examples.select_star_report
       = Z.max 0 (Z.of_nat (length (tables Examples.select_star_report)) - 1).
Proof.
  apply (C2_join_count_law Examples.insertion_order Examples.no_regex
           Examples.select_star_parser Examples.select_star_report).
  vm_compute. reflexivity.
Defined.

Example join_count_two_tables :
  join_count <$> run_analysis Examples.reverse_order Examples.no_regex Examples.composite_scenario
  = Ok 1.
Proof. by vm_compute. Qed.

Lemma C4_union_rule_witness :
  ∃ s, of_type "REPLACE_UNION_WITH_UNION_ALL" (suggest_rewrites Examples.union_plain) = [s] ∧
       suggestion_type s = "REPLACE_UNION_WITH_UNION_ALL" ∧
       first_occurrence_replaced "UNION" "UNION ALL" (raw_sql Examples.union_plain)
                                 (suggested_sql s).
Proof.
  apply (proj1 (C4_union_rule Examples.union_plain)).
  exists 8%nat, (Examples.kw "UNION"). split; [reflexivity|].
  split; [by exists "UNION"|].
  intros H%followed_by_all_test. vm_compute in H. discriminate H.
Defined.

(** The UNION rule on the statements of the specification. *)
Example union_rule_examples :
  suggested_sql <$> suggest_rewrites Examples.union_plain
    = ["SELECT a,b FROM t1 UNION ALL SELECT a,b FROM t2;"] ∧
  suggest_rewrites Examples.union_all = [] ∧
  suggest_rewrites Examples.union_then_all = [].
Proof. by vm_compute. Qed.

Lemma C6_unresolved_alias_dropped_witness :
  generate_recommendations
    (with_usage Examples.unknown_alias_advisor
       (without_ref ("v", Some "c") (advisor_column_usage Examples.unknown_alias_advisor)))
    = generate_recommendations Examples.unknown_alias_advisor ∧
  (∀ recs,
     generate_recommendations_traced (alias_to_table_map Examples.unknown_alias_advisor)
       (advisor_column_usage Examples.unknown_alias_advisor) = Ok recs →
     ∀ k r, (FromSingle k ("v", Some "c"), r) ∉ recs) ∧
  ((∀ k q, q ∈ usage_get (advisor_column_usage Examples.unknown_alias_advisor) k →
           is_Some (resolve (alias_to_table_map Examples.unknown_alias_advisor) q.1) →
           has_column q) →
   ∃ recs, generate_recommendations Examples.unknown_alias_advisor = Ok recs).
Proof.
  apply (C6_unresolved_alias_dropped Examples.unknown_alias_advisor ("v", Some "c")).
  vm_compute. reflexivity.
Defined.

(** The unresolved alias scenario of the specification, and a
    reference without alias and without column name in ORDER BY. *)
Example unresolved_alias_examples :
  index_recommendations <$>
    analyze_query Examples.tokenizer Examples.no_regex Examples.insertion_order None
                  (raw_sql Examples.unknown_alias) = Ok [] ∧
  generate_recommendations Examples.unknown_alias_advisor
  = Ok [ {| statement := "CREATE INDEX idx_t_x ON t (x);";
            reason := "Column 'x' is used for filtering in the WHERE clause.";
            impact := "High"; ml_predicted_impact := None |} ].
Proof. by vm_compute. Qed.

Lemma C7_missing_where_clause_witness :
  has_finding "MISSING_WHERE_CLAUSE" (detect_anti_patterns Examples.no_regex Examples.delete_where) ↔
  (get_query_type Examples.delete_where = "UPDATE" ∨
   get_query_type Examples.delete_where = "DELETE") ∧
  extract_where_clause Examples.delete_where = None.
Proof.
  apply (C7_missing_where_clause Examples.no_regex Examples.delete_where).
  intros w Hw. vm_compute in Hw. injection Hw as <-. discriminate.
Defined.

(** MISSING_WHERE_CLAUSE on the statements of the specification. *)
Example missing_where_examples :
  finding_type <$> detect_anti_patterns Examples.no_regex Examples.delete_all
    = ["MISSING_WHERE_CLAUSE"] ∧
  detect_anti_patterns Examples.no_regex Examples.delete_where = [].
Proof. by vm_compute. Qed.

Lemma C10_advisor_needs_raw_sql_witness :
  IndexAdvisor_init Examples.tokenizer Examples.report_without_raw_sql = Raise IndexError ∧
  (IndexAdvisor_init Examples.tokenizer Examples.report_without_raw_sql ≫= generate_recommendations)
  = Raise IndexError.
Proof.
  apply (C10_advisor_needs_raw_sql Examples.tokenizer Examples.report_without_raw_sql);
    reflexivity.
Defined.

(** What the missed [RIGHT JOIN] costs: the join key of [orders] gets
    no recommendation. *)
Example right_join_recommendations :
  (λ r, statement <$> index_recommendations r) <$>
    analyze_query Examples.tokenizer Examples.no_regex Examples.insertion_order None
                  (raw_sql Examples.right_join)
  = Ok ["CREATE INDEX idx_users_id ON users (id);"].
Proof. by vm_compute. Qed.

(** The request handler fails on the statement of C9. *)
Example order_by_position_request (o : SetOrder) :
  analyze_query Examples.tokenizer Examples.no_regex o None
                (raw_sql Examples.order_by_position) = Raise TypeError.
Proof.
  unfold analyze_query.
  assert (SQLParser_init Examples.tokenizer (raw_sql Examples.order_by_position)
          = Ok Examples.order_by_position) as -> by by vm_compute.
  cbn [mbind result_bind].
  rewrite (run_analysis_order o Examples.insertion_order). by vm_compute.
Qed.

(** ** How far the classifier is total *)

Lemma token_tree_ind (P : token → Prop) :
  (∀ ty v, P (Tok ty v)) →
  (∀ c nm ts, Forall P ts → P (TokList c nm ts)) →
  ∀ t, P t.
Proof.
  intros Hleaf Hnode. fix IH 1. intros [ty v|c nm ts]; [apply Hleaf|].
  apply Hnode. induction ts as [|t ts IHts]; constructor; [apply IH|exact IHts].
Qed.

Lemma Forall_flat_map {A B} (P : B → Prop) (f : A → list B) (l : list A) :
  Forall (λ x, Forall P (f x)) l → Forall P (flat_map f l).
Proof.
  induction 1 as [|x l Hx _ IH]; simpl; [constructor|]. apply Forall_app. done.
Qed.

Lemma find_identifiers_named t :
  named_tree t = true → Forall has_column (_recursive_find_identifiers t).
Proof.
  induction t as [ty v|c nm ts IH] using token_tree_ind; [constructor|].
  cbn [named_tree _recursive_find_identifiers].
  intros [Hname Hts]%andb_true_iff.
  rewrite forallb_forall in Hts.
  assert (Forall (λ s, Forall has_column (_recursive_find_identifiers s)) ts) as Hsub.
  { rewrite Forall_forall in IH |- *. intros s Hs. apply IH; [done|].
    apply Hts. by apply list_elem_of_In. }
  destruct (decide (c = C_Function)) as [->|Hc].
  - apply Forall_flat_map. eapply Forall_impl; [exact Hsub|].
    intros s Hs. simpl. by destruct (is_class C_Parenthesis s).
  - apply Forall_app. split; [|by apply Forall_flat_map].
    destruct (decide (c = C_Identifier)); [|constructor].
    apply Forall_singleton. by apply bool_decide_eq_true in Hname.
Qed.

Lemma foldl_set_add_Forall {A} `{EqDecision A} (P : A → Prop) (s l : list A) :
  Forall P s → Forall P l → Forall P (foldl set_add s l).
Proof.
  rewrite !Forall_forall. intros Hs Hl x [?|?]%foldl_set_add_elem_of; auto.
Qed.

Lemma token_next_elem_of ts i t : token_next ts i = Some t → t ∈ ts.
Proof.
  unfold token_next. intros [Hin _]%find_some.
  apply list_elem_of_In in Hin. by eapply subseteq_drop.
Qed.

Lemma usage_step_has_columns ts st i t :
  Forall (λ t, named_tree t = true) ts → t ∈ ts →
  usage_has_columns st.1 → usage_has_columns (usage_step ts st (i, t)).1.
Proof.
  intros Hts Ht. destruct st as [u on]. simpl. intros (Hw & Hj & Ho & Hg).
  rewrite Forall_forall in Hts.
  assert (Forall has_column (_recursive_find_identifiers t)) as Hfound
    by by apply find_identifiers_named, Hts.
  assert (Forall has_column (find_identifiers_opt (token_next ts i))) as Hnext.
  { destruct (token_next ts i) as [n|] eqn:En; [|constructor].
    apply find_identifiers_named, Hts. by eapply token_next_elem_of. }
  unfold usage_step, usage_has_columns, add_join, add_where, add_order, add_group.
  repeat case_match; simplify_eq/=;
    repeat split; auto using foldl_set_add_Forall.
Qed.

Lemma collect_usage_has_columns ts :
  Forall (λ t, named_tree t = true) ts → usage_has_columns (collect_usage ts).
Proof.
  intros Hts. unfold collect_usage.
  assert (∀ l st, Forall (λ it, it.2 ∈ ts) l → usage_has_columns st.1 →
                  usage_has_columns (foldl (usage_step ts) st l).1) as Hfold.
  { induction l as [|[i t] l IH]; intros st Hl Hst; [done|].
    apply Forall_cons in Hl as [Ht Hl]. simpl. apply IH; [done|].
    by apply usage_step_has_columns. }
  apply Hfold.
  - apply Forall_forall. intros [i t] Hin. simpl.
    unfold enumerate in Hin. by apply elem_of_zip_r in Hin.
  - repeat split; constructor.
Qed.

Lemma py_sorted_refs_has_columns l :
  Forall has_column l → ∃ l', py_sorted_refs l = Ok l'.
Proof.
  intros Hl. unfold py_sorted_refs. case_decide as Hclash; [|eauto].
  rewrite Forall_forall in Hl.
  apply Exists_exists in Hclash as (p & Hp & Hq).
  apply Exists_exists in Hq as (q & Hq & _ & _ & [HN|HN]).
  - destruct (Hl p Hp) as [? ?]. congruence.
  - destruct (Hl q Hq) as [? ?]. congruence.
Qed.

(** On a statement all of whose Identifiers have a name, the classifier
    returns a usage map. *)
Lemma analyze_column_usage_named o p :
  Forall (λ t, named_tree t = true) (tokens (parsed p)) →
  ∃ u, analyze_column_usage o p = Ok u.
Proof.
  intros (Hw & Hj & Ho & Hg)%collect_usage_has_columns.
  unfold analyze_column_usage. rewrite !py_sorted_refs_set.
  destruct (py_sorted_refs_has_columns _ Hw) as [? ->].
  destruct (py_sorted_refs_has_columns _ Hj) as [? ->].
  destruct (py_sorted_refs_has_columns _ Ho) as [? ->].
  destruct (py_sorted_refs_has_columns _ Hg) as [? ->].
  simpl. eauto.
Qed.

(** ** The replacement of the first occurrence *)

(** [str_replace_first] rewrites the leftmost occurrence of [old]: if
    [old] occurs at offset [n] and at no smaller offset, the result is
    the text before [n], then [new], then the text after the occurrence. *)
Lemma str_replace_first_leftmost old new s n :
  String.prefix old (str_drop n s) = true →
  (∀ k, (k < n)%nat → String.prefix old (str_drop k s) = false) →
  str_replace_first old new s
  = str_take n s +:+ new +:+ str_drop (n + String.length old) s.
Proof.
  revert s. induction n as [|n IH]; intros s Hocc Hfirst.
  - cbn [str_drop] in Hocc.
    destruct s as [|c s]; cbn [str_replace_first str_take]; by rewrite Hocc.
  - pose proof (Hfirst 0%nat ltac:(lia)) as H0. cbn [str_drop] in H0.
    destruct s as [|c s]; [cbn [str_drop] in Hocc; congruence|].
    cbn [str_replace_first]. rewrite H0.
    cbn [str_take str_drop Nat.add]. rewrite IH; [done|done|].
    intros k Hk. apply (Hfirst (S k)). lia.
Qed.

(** Without an occurrence the text is unchanged. *)
Lemma str_replace_first_absent old new s :
  (∀ k, String.prefix old (str_drop k s) = false) →
  str_replace_first old new s = s.
Proof.
  induction s as [|c s IH]; intros Habs.
  - pose proof (Habs 0%nat) as H0. cbn [str_drop] in H0.
    cbn [str_replace_first]. by rewrite H0.
  - pose proof (Habs 0%nat) as H0. cbn [str_drop] in H0.
    cbn [str_replace_first]. rewrite H0.
    f_equal. apply IH. intros k. apply (Habs (S k)).
Qed.

(** ** Empty buckets *)

Lemma foldl_usage_inv (I : ColumnUsage * bool → Prop) ts l st :
  (∀ st it, it ∈ l → I st → I (usage_step ts st it)) →
  I st → I (foldl (usage_step ts) st l).
Proof.
  revert st. induction l as [|it l IH]; intros st Hstep Hst; [done|].
  simpl. apply IH.
  - intros st' it' Hin. apply Hstep. by right.
  - apply Hstep; [by left|done].
Qed.

Lemma enumerate_elem_of {A} (l : list A) i x : (i, x) ∈ enumerate l → x ∈ l.
Proof. unfold enumerate. apply elem_of_zip_r. Qed.

(** A role that no top-level token introduces keeps an empty bucket:
    no WHERE node, no [ON] keyword, no keyword that contains [ORDER BY],
    no keyword that contains [GROUP BY] (a keyword that contains
    [ORDER BY] is not looked at for [GROUP BY]). *)
Lemma collect_usage_empty_buckets ts :
  (Forall (λ t, is_class C_Where t = false) ts →
   where_filters (collect_usage ts) = []) ∧
  (Forall (λ t, is_keyword t && bool_decide (normalized t = "ON") = false) ts →
   join_keys (collect_usage ts) = []) ∧
  (Forall (λ t, is_keyword t && str_contains "ORDER BY" (normalized t) = false) ts →
   order_by (collect_usage ts) = []) ∧
  (Forall (λ t, is_keyword t && str_contains "GROUP BY" (normalized t) = false) ts →
   group_by (collect_usage ts) = []).
Proof.
  unfold collect_usage. repeat split; intros Hts; rewrite Forall_forall in Hts.
  - apply (foldl_usage_inv (λ st, where_filters st.1 = [])); [|done].
    intros [u on] [i t] Hin%enumerate_elem_of Hu. simpl in Hu.
    specialize (Hts t Hin). unfold usage_step. rewrite Hts.
    repeat case_match; simplify_eq/=; done.
  - apply (foldl_usage_inv (λ st, join_keys st.1 = [] ∧ st.2 = false)); [|done].
    intros [u on] [i t] Hin%enumerate_elem_of [Hu Hon]. simpl in Hu, Hon. subst on.
    specialize (Hts t Hin). unfold usage_step. rewrite Hts.
    repeat case_match; simplify_eq/=; done.
  - apply (foldl_usage_inv (λ st, order_by st.1 = [])); [|done].
    intros [u on] [i t] Hin%enumerate_elem_of Hu. simpl in Hu.
    specialize (Hts t Hin). unfold usage_step.
    destruct (is_keyword t); simpl in Hts; [rewrite Hts|];
      repeat case_match; simplify_eq/=; done.
  - apply (foldl_usage_inv (λ st, group_by st.1 = [])); [|done].
    intros [u on] [i t] Hin%enumerate_elem_of Hu. simpl in Hu.
    specialize (Hts t Hin). unfold usage_step.
    destruct (is_keyword t); simpl in Hts; [rewrite Hts|];
      repeat case_match; simplify_eq/=; done.
Qed.

(** ** The alias table of the parser *)

Lemma foldM_total {A B} (f : B → A → result B) (l : list A) (b : B) :
  (∀ b x, x ∈ l → ∃ b', f b x = Ok b') → ∃ b', foldM f b l = Ok b'.
Proof.
  revert b. induction l as [|x l IH]; intros b Hf; simpl; [eauto|].
  destruct (Hf b x) as [b1 ->]; [by left|]. simpl. apply IH.
  intros b2 y Hy. apply Hf. by right.
Qed.

Lemma foldM_raise_inv {A B} (f : B → A → result B) (e0 : exn) (l : list A) (b : B) e :
  (∀ b x e, f b x = Raise e → e = e0) → foldM f b l = Raise e → e = e0.
Proof.
  intros Hf. revert b. induction l as [|x l IH]; intros b; simpl; [done|].
  destruct (f b x) as [b1|e1] eqn:E; simpl; [apply IH|].
  intros [= <-]. by eapply Hf.
Qed.

Lemma parser_fold_flag_off ts m :
  no_table_keyword ts → foldM parser_step (m, false) ts = Ok (m, false).
Proof.
  induction 1 as [|t ts Ht _ IH]; [done|].
  cbn [foldM]. unfold parser_step at 1. simpl. rewrite Ht. simpl. exact IH.
Qed.

Lemma advisor_keyword_is_table_keyword t :
  is_advisor_table_keyword t = true → is_table_keyword t = true.
Proof.
  unfold is_advisor_table_keyword, is_table_keyword.
  intros [-> Hn%bool_decide_eq_true]%andb_true_iff. simpl.
  repeat (apply elem_of_cons in Hn as [Hn|Hn]; [by rewrite Hn|]).
  by apply elem_of_nil in Hn.
Qed.

Lemma advisor_fold_flag_off ts m :
  no_table_keyword ts → ∃ b, foldM advisor_step (m, false) ts = Ok (m, b).
Proof.
  intros Hts. assert (∀ b, ∃ b', foldM advisor_step (m, b) ts = Ok (m, b') ∨ b = true) as H.
  { induction Hts as [|t ts Ht _ IH]; intros b; [eexists; by left|].
    destruct b; [exists true; by right|].
    cbn [foldM]. unfold advisor_step at 1. simpl.
    destruct (is_advisor_table_keyword t) eqn:Ek.
    { apply advisor_keyword_is_table_keyword in Ek. congruence. }
    destruct (IH (if is_keyword t then false else false)) as [b' [Hb'|Hb']].
    - exists b'. by left.
    - by destruct (is_keyword t). }
  destruct (H false) as [b' [Hb'|Hb']]; [eauto|done].
Qed.

(** X1.  A statement without a top-level [FROM] or [JOIN] keyword has
    no tables, whatever identifiers it holds: the parser and the advisor
    both return the empty alias table, [extract_tables] the empty list,
    and the report of [run_analysis] has no tables and join count 0. *)
Theorem no_table_keyword_no_tables (o : SetOrder) (re : string → string → bool)
    (p : SQLParser) :
  no_table_keyword (tokens (parsed p)) →
  _get_tables_and_aliases p = Ok [] ∧
  map_aliases_scan (parsed p) = Ok [] ∧
  extract_tables o p = Ok [] ∧
  ∀ r, run_analysis o re p = Ok r → tables r = [] ∧ join_count r = 0.
Proof.
  intros Hts.
  assert (_get_tables_and_aliases p = Ok []) as Hm.
  { unfold _get_tables_and_aliases. by rewrite parser_fold_flag_off. }
  assert (extract_tables o p = Ok []) as Ht.
  { unfold extract_tables. rewrite Hm. simpl. by rewrite py_sorted_names_set. }
  split; [done|]. split; [|split; [done|]].
  - unfold map_aliases_scan.
    destruct (advisor_fold_flag_off (tokens (parsed p)) ([] : AliasTable) Hts) as [b Hb].
    exact (f_equal (fmap (M:=result) fst) Hb).
  - intros r (ts & u & Hts' & _ & ->)%run_analysis_Ok. simpl.
    rewrite Ht in Hts'. by injection Hts' as <-.
Qed.

Lemma record_table_group m t :
  match t with TokList _ _ _ => True | Tok _ _ => False end →
  ∃ m', record_table m t = Ok m'.
Proof. destruct t; [done|]. simpl. eauto. Qed.

Lemma record_table_raise m t e : record_table m t = Raise e → e = AttributeError.
Proof. destruct t; simpl; congruence. Qed.

Lemma parser_step_raise st t e : parser_step st t = Raise e → e = AttributeError.
Proof.
  destruct st as [m [|]]; unfold parser_step; simpl; [|done].
  destruct t as [ty v|[] nm ts]; simpl; try done.
  destruct (foldM record_table m (get_identifiers ts)) eqn:E; simpl; [done|].
  intros [= <-]. revert E. apply foldM_raise_inv. apply record_table_raise.
Qed.

Lemma advisor_step_raise st t e : advisor_step st t = Raise e → e = AttributeError.
Proof.
  destruct st as [m [|]]; unfold advisor_step; simpl; [|done].
  destruct t as [ty v|[] nm ts]; simpl; try done.
  destruct (foldM record_table m (get_identifiers ts)) eqn:E; simpl; [done|].
  intros [= <-]. revert E. apply foldM_raise_inv. apply record_table_raise.
Qed.

Lemma step_total_on_groups t :
  match t with
  | TokList C_IdentifierList _ subs =>
      Forall (λ s, match s with TokList _ _ _ => True | Tok _ _ => False end)
             (get_identifiers subs)
  | _ => True
  end →
  ∀ st, (∃ st', parser_step st t = Ok st') ∧ (∃ st', advisor_step st t = Ok st').
Proof.
  intros Ht [m b]. unfold parser_step, advisor_step.
  destruct b; simpl; [|eauto].
  destruct t as [ty v|c nm ts]; simpl; [eauto|].
  destruct c; simpl; eauto.
  destruct (foldM_total record_table (get_identifiers ts) m) as [m' ->]; [|simpl; eauto].
  intros m0 s Hs. apply record_table_group. rewrite Forall_forall in Ht. by apply Ht.
Qed.

(** X2.  The two alias scans fail in one way only, with the
    [AttributeError] of a leaf token (a number, a keyword) met among the
    members of an IdentifierList, and they return a table whenever the
    members of every top-level IdentifierList are groups. *)
Theorem alias_scans_total_on_groups (p : SQLParser) :
  (∀ e, _get_tables_and_aliases p = Raise e → e = AttributeError) ∧
  (∀ e, map_aliases_scan (parsed p) = Raise e → e = AttributeError) ∧
  (lists_hold_groups (tokens (parsed p)) →
   (∃ m, _get_tables_and_aliases p = Ok m) ∧ (∃ m, map_aliases_scan (parsed p) = Ok m)).
Proof.
  unfold _get_tables_and_aliases, map_aliases_scan. split; [|split].
  - intros e. destruct (foldM parser_step _ _) eqn:E; simpl; [done|].
    intros [= <-]. revert E. apply foldM_raise_inv. apply parser_step_raise.
  - intros e. destruct (foldM advisor_step _ _) eqn:E; simpl; [done|].
    intros [= <-]. revert E. apply foldM_raise_inv. apply advisor_step_raise.
  - intros Hts. unfold lists_hold_groups in Hts. rewrite Forall_forall in Hts. split.
    + destruct (foldM_total parser_step (tokens (parsed p)) ([], false)) as [st ->];
        [|simpl; eauto].
      intros st t Ht. by apply step_total_on_groups, Hts.
    + destruct (foldM_total advisor_step (tokens (parsed p)) ([], false)) as [st ->];
        [|simpl; eauto].
      intros st t Ht. by apply step_total_on_groups, Hts.
Qed.

(** ** The table list *)

Lemma all_str_sorted_cases l ts :
  NoDup l → py_sorted_names l = Ok ts →
  NoDup ts ∧ (ts = [None] ∨ ∃ ss, ts = Some <$> ss ∧ StronglySorted String.le ss).
Proof.
  intros Hnd Hs. split.
  { apply py_sorted_names_perm in Hs. by rewrite Hs. }
  unfold py_sorted_names in Hs. destruct (all_str l) as [ss|] eqn:E.
  - injection Hs as <-. right. eexists. split; [done|].
    apply StronglySorted_merge_sort; apply _.
  - case_decide as Hlen; [|done]. injection Hs as <-. left.
    apply all_str_None in E.
    destruct l as [|x [|y l]]; simpl in Hlen; [by apply elem_of_nil in E| |lia].
    by apply list_elem_of_singleton in E as <-.
Qed.

Lemma py_sorted_names_raise l :
  NoDup l →
  py_sorted_names l = Raise TypeError ↔ None ∈ l ∧ ∃ s, Some s ∈ l.
Proof.
  intros Hnd. unfold py_sorted_names. destruct (all_str l) as [ss|] eqn:E.
  - split; [done|]. intros [Hn _]. apply all_str_None in Hn. congruence.
  - apply all_str_None in E. case_decide as Hlen.
    + split; [done|]. intros [_ [s Hs]].
      destruct l as [|x [|y l]]; simpl in Hlen; [by apply elem_of_nil in E| |lia].
      apply list_elem_of_singleton in E, Hs. congruence.
    + split; [|done]. intros _. split; [done|].
      destruct l as [|x [|y l]]; simpl in Hlen; [lia..|].
      apply NoDup_cons in Hnd as [Hx _]. rewrite not_elem_of_cons in Hx.
      destruct x as [s|]; [exists s; by left|].
      destruct y as [s|]; [exists s; right; by left|]. by destruct Hx.
Qed.

(** X3.  [extract_tables] returns the real names without duplicates
    and in ascending order; the one list it returns that holds [None] is
    [[None]].  Given the alias table, it fails, with a [TypeError], exactly
    when the real names hold both [None] and a string. *)
Theorem extract_tables_sorted (o : SetOrder) (p : SQLParser) :
  (∀ ts, extract_tables o p = Ok ts →
         NoDup ts ∧ (ts = [None] ∨ ∃ ss, ts = Some <$> ss ∧ StronglySorted String.le ss)) ∧
  (∀ m, _get_tables_and_aliases p = Ok m →
        extract_tables o p = Raise TypeError ↔
        None ∈ dict_values m ∧ ∃ s, Some s ∈ dict_values m).
Proof.
  unfold extract_tables. split.
  - intros ts (m & Hm & Hs)%bind_Ok. rewrite py_sorted_names_set in Hs.
    revert Hs. apply all_str_sorted_cases, NoDup_remove_dups.
  - intros m ->. simpl. rewrite py_sorted_names_set.
    rewrite py_sorted_names_raise by apply NoDup_remove_dups.
    unfold py_set. by setoid_rewrite elem_of_remove_dups.
Qed.

(** ** The column list *)

Lemma foldl_set_add_NoDup {A} `{EqDecision A} (s l : list A) :
  NoDup s → NoDup (foldl set_add s l).
Proof.
  revert s. induction l as [|x l IH]; intros s Hs; [done|].
  simpl. apply IH. unfold set_add. case_decide; [done|].
  apply NoDup_app. split; [done|]. split; [|apply NoDup_singleton].
  by intros y Hy ->%list_elem_of_singleton.
Qed.

Lemma column_candidates_app m l1 l2 :
  column_candidates m (l1 ++ l2) = column_candidates m l1 ++ column_candidates m l2.
Proof. unfold column_candidates. by rewrite filter_app, fmap_app. Qed.

Lemma sub_tokens_foldM p ts cs :
  (fix sub_tokens (ts : list token) (column_set : list (option string)) {struct ts} :=
     match ts with
     | [] => Ok column_set
     | sub_token :: ts' =>
         column_set ← _recursive_extract_columns p sub_token column_set;
         sub_tokens ts' column_set
     end) ts cs
  = foldM (λ column_set t, _recursive_extract_columns p t column_set) cs ts.
Proof.
  revert cs. induction ts as [|t ts IH]; intros cs; [done|].
  cbn -[_recursive_extract_columns].
  destruct (_recursive_extract_columns p t cs) as [cs'|e]; [apply IH|done].
Qed.

(** The equation of [_recursive_extract_columns] on a group. *)
Lemma recursive_extract_columns_group p c nm ts cs :
  _recursive_extract_columns p (TokList c nm ts) cs =
  if decide (c = C_Function)
  then foldM (λ column_set t, _recursive_extract_columns p t column_set) cs ts
  else
    column_set ←
      (if decide (c = C_Identifier) then
         tables ← _get_tables_and_aliases p;
         if decide (real_name nm ∈ dict_keys tables ++ dict_values tables) then Ok cs
         else Ok (set_add cs (get_name nm))
       else Ok cs);
    foldM (λ column_set t, _recursive_extract_columns p t column_set) column_set ts.
Proof.
  cbn [_recursive_extract_columns]. destruct (decide (c = C_Function)).
  - apply sub_tokens_foldM.
  - destruct (if decide (c = C_Identifier) then _ else _) as [cs'|e]; simpl; [|done].
    apply sub_tokens_foldM.
Qed.

Lemma recursive_extract_columns_spec p m :
  _get_tables_and_aliases p = Ok m →
  ∀ t cs, _recursive_extract_columns p t cs
          = Ok (foldl set_add cs (column_candidates m (identifiers_of t))).
Proof.
  intros Hm t. induction t as [ty v|c nm ts IH] using token_tree_ind; intros cs; [done|].
  rewrite recursive_extract_columns_group. cbn [identifiers_of].
  assert (∀ cs, foldM (λ column_set t, _recursive_extract_columns p t column_set) cs ts
                = Ok (foldl set_add cs (column_candidates m (flat_map identifiers_of ts)))) as Hsub.
  { clear cs. induction IH as [|t ts Ht _ IHts]; intros cs; [done|].
    cbn [foldM flat_map]. rewrite Ht. simpl.
    rewrite IHts, column_candidates_app, foldl_app. done. }
  rewrite column_candidates_app, foldl_app.
  destruct (decide (c = C_Function)) as [->|Hf]; [by rewrite Hsub|].
  destruct (decide (c = C_Identifier)) as [->|Hi]; [|simpl; apply Hsub].
  rewrite Hm. cbn [mbind result_bind].
  assert (column_candidates m [nm] =
          if decide (real_name nm ∈ dict_keys m ++ dict_values m) then []
          else [get_name nm]) as ->.
  { unfold column_candidates. rewrite filter_cons, filter_nil. unfold table_reference.
    destruct (decide (real_name nm ∈ dict_keys m ++ dict_values m)).
    - by rewrite decide_False by tauto.
    - by rewrite decide_True by done. }
  destruct (decide (real_name nm ∈ dict_keys m ++ dict_values m)); simpl; apply Hsub.
Qed.

Lemma extract_columns_set_spec p m :
  _get_tables_and_aliases p = Ok m →
  extract_columns_set p
  = Ok (foldl set_add [] (column_candidates m (flat_map identifiers_of (tokens (parsed p))))).
Proof.
  intros Hm. unfold extract_columns_set. generalize (@nil (option string)).
  induction (tokens (parsed p)) as [|t ts IH]; intros cs; [done|].
  cbn [foldM flat_map]. rewrite (recursive_extract_columns_spec p m Hm). simpl.
  rewrite IH, column_candidates_app, foldl_app. done.
Qed.

(** X4.  Given the alias table, the column list is the duplicate-free
    list of the names of all Identifier nodes of the tree, at any depth
    and under Function nodes as well (so function names are in it),
    except those whose real name is an alias or a real name of the alias
    table. *)
Theorem extract_columns_identifiers (o : SetOrder) (p : SQLParser) (m : AliasTable)
    (cs : list (option string)) :
  _get_tables_and_aliases p = Ok m →
  extract_columns o p = Ok cs →
  NoDup cs ∧
  ∀ n, n ∈ cs ↔ ∃ nm, nm ∈ flat_map identifiers_of (tokens (parsed p)) ∧
                      ¬ table_reference m nm ∧ get_name nm = n.
Proof.
  intros Hm. unfold extract_columns. rewrite (extract_columns_set_spec p m Hm). simpl.
  rewrite py_sorted_names_set. intros Hs%py_sorted_names_perm. split.
  - rewrite Hs. apply foldl_set_add_NoDup, NoDup_nil_2.
  - intros n. rewrite Hs, foldl_set_add_elem_of, elem_of_nil.
    unfold column_candidates. rewrite list_elem_of_fmap.
    split.
    + intros [Hn|(nm & -> & [Hnr Hin]%list_elem_of_filter)];
        [done|]. by exists nm.
    + intros (nm & Hin & Hnr & <-). right. exists nm. split; [done|].
      by apply list_elem_of_filter.
Qed.

(** ** What the advisor knows of the parser's aliases *)

Lemma dict_set_keys_elem_of {K V} `{EqDecision K} (k x : K) (v : V) (d : pydict K V) :
  x ∈ dict_keys (dict_set k v d) ↔ x ∈ dict_keys d ∨ x = k.
Proof.
  unfold dict_keys. rewrite dict_set_keys. case_decide as Hk.
  - split; [by left|]. by intros [?| ->].
  - rewrite elem_of_app, list_elem_of_singleton. done.
Qed.

Lemma record_table_covers mA mP t mA' mP' :
  dict_keys mP ⊆ dict_keys mA →
  record_table mA t = Ok mA' → record_table mP t = Ok mP' →
  dict_keys mP' ⊆ dict_keys mA'.
Proof.
  destruct t as [ty v|c nm ts]; simpl; [done|].
  intros Hsub [= <-] [= <-] x. rewrite !dict_set_keys_elem_of.
  intros [?| ->]; [left; by apply Hsub|by right].
Qed.

Lemma record_table_grows m t m' :
  record_table m t = Ok m' → dict_keys m ⊆ dict_keys m'.
Proof.
  destruct t as [ty v|c nm ts]; simpl; [done|].
  intros [= <-] x. rewrite dict_set_keys_elem_of. by left.
Qed.

Lemma foldM_record_table_covers l mA mP mA' mP' :
  dict_keys mP ⊆ dict_keys mA →
  foldM record_table mA l = Ok mA' → foldM record_table mP l = Ok mP' →
  dict_keys mP' ⊆ dict_keys mA'.
Proof.
  revert mA mP. induction l as [|t l IH]; intros mA mP Hsub; simpl.
  - by intros [= <-] [= <-].
  - intros (mA1 & HA1 & HA)%bind_Ok (mP1 & HP1 & HP)%bind_Ok.
    eapply IH; [|done..]. by eapply record_table_covers.
Qed.

Lemma foldM_record_table_grows l m m' :
  foldM record_table m l = Ok m' → dict_keys m ⊆ dict_keys m'.
Proof.
  revert m. induction l as [|t l IH]; intros m; simpl.
  - by intros [= <-].
  - intros (m1 & H1 & H)%bind_Ok. etrans; [by eapply record_table_grows|by apply IH].
Qed.

Lemma table_keyword_cases t :
  is_table_keyword t = true →
  is_advisor_table_keyword t = true ∨
  (is_keyword t = true ∧ normalized t ∈ ["RIGHT JOIN"; "INNER JOIN"; ","]).
Proof.
  unfold is_table_keyword, is_advisor_table_keyword.
  intros [Hk Hn%bool_decide_eq_true]%andb_true_iff. rewrite Hk. simpl.
  repeat (apply elem_of_cons in Hn as [Hn|Hn];
          [rewrite Hn; first [by left | right; split; [done|]; rewrite !elem_of_cons; tauto]|]).
  by apply elem_of_nil in Hn.
Qed.

Lemma step_covers stA stP t stA' stP' :
  (is_keyword t = true → normalized t ∉ ["RIGHT JOIN"; "INNER JOIN"; ","]) →
  covers stA stP →
  advisor_step stA t = Ok stA' → parser_step stP t = Ok stP' →
  covers stA' stP'.
Proof.
  intros Hkw. destruct stA as [mA fA], stP as [mP fP]. intros [Hflag Hsub]. simpl in *.
  unfold advisor_step, parser_step.
  intros (mA1 & HA1 & [= <-])%bind_Ok ([mP1 fP1] & HP1 & [= <-])%bind_Ok.
  assert (dict_keys mP1 ⊆ dict_keys mA1 ∧
          (fP1 = true → fA = true ∧ is_table_keyword t = false → is_keyword t = false))
    as [Hsub1 Hstay].
  { destruct fP.
    - rewrite Hflag in HA1 by done.
      apply bind_Ok in HP1 as (mP2 & HP2 & [= <- <-]). split.
      + destruct t as [ty v|[] nm ts]; simpl in *; simplify_eq; try done.
        * by eapply (record_table_covers _ _ (TokList C_Identifier nm ts)).
        * by eapply foldM_record_table_covers.
      + intros Hstay _.
        destruct (is_whitespace t || bool_decide (normalized t = ",")) eqn:E; [|done].
        apply orb_true_iff in E as [Hws|Hcomma%bool_decide_eq_true].
        * destruct t as [[] v|]; done.
        * destruct (is_keyword t) eqn:Ek; [|done].
          destruct (Hkw eq_refl). rewrite Hcomma, !elem_of_cons. tauto.
    - injection HP1 as <- <-. split; [|done].
      destruct fA; [|by simplify_eq].
      etrans; [exact Hsub|].
      destruct t as [ty v|[] nm ts]; simpl in *; simplify_eq; try done.
      + by eapply (record_table_grows _ (TokList C_Identifier nm ts)).
      + by eapply foldM_record_table_grows. }
  split; [|done]. simpl.
  destruct (is_table_keyword t) eqn:Etk.
  - intros _. destruct (table_keyword_cases t Etk) as [->|[Hk Hn]]; [done|].
    by destruct (Hkw Hk).
  - intros HfP1.
    destruct (is_advisor_table_keyword t) eqn:Eak; [done|].
    assert (fA = true) as ->.
    { destruct fP; [by apply Hflag|]. by simplify_eq. }
    rewrite Hstay; done.
Qed.

Lemma fold_covers ts stA stP stA' stP' :
  advisor_knows_keywords ts →
  covers stA stP →
  foldM advisor_step stA ts = Ok stA' → foldM parser_step stP ts = Ok stP' →
  covers stA' stP'.
Proof.
  intros Hts. revert stA stP.
  induction Hts as [|t ts Ht _ IH]; intros stA stP Hc; simpl.
  - by intros [= <-] [= <-].
  - intros (stA1 & HA1 & HA)%bind_Ok (stP1 & HP1 & HP)%bind_Ok.
    eapply IH; [|done..]. by eapply step_covers.
Qed.

(** X5.  On a statement whose top-level keywords are not [RIGHT JOIN]
    or [INNER JOIN], every alias of the parser's table is an alias of the
    advisor's table: the advisor loses an alias of the parser through
    these two keywords only. *)
Theorem advisor_holds_parser_aliases (p : SQLParser) (mP mA : AliasTable) :
  advisor_knows_keywords (tokens (parsed p)) →
  _get_tables_and_aliases p = Ok mP →
  map_aliases_scan (parsed p) = Ok mA →
  dict_keys mP ⊆ dict_keys mA.
Proof.
  unfold _get_tables_and_aliases, map_aliases_scan.
  intros Hts ([mP' fP] & HP & ->)%fmap_Ok ([mA' fA] & HA & ->)%fmap_Ok.
  by destruct (fold_covers _ _ _ _ _ Hts (conj (λ H, H) (reflexivity _)) HA HP).
Qed.

(** ** The buckets of the classifier *)

Lemma on_keyword_is_leaf t : is_keyword t = true → ∀ c, is_class c t = false.
Proof. by destruct t. Qed.

Lemma on_keyword_not_order_by t :
  is_on_keyword t = true → introduces_order_by t = false ∧ introduces_group_by t = false.
Proof.
  unfold is_on_keyword, introduces_order_by, introduces_group_by.
  intros [-> Hn%bool_decide_eq_true]%andb_true_iff. by rewrite Hn.
Qed.

Lemma usage_step_where ts u b i t :
  where_filters (usage_step ts (u, b) (i, t)).1 =
  if is_class C_Where t then foldl set_add (where_filters u) (_recursive_find_identifiers t)
  else where_filters u.
Proof.
  unfold usage_step. destruct t; simpl; repeat case_match; simplify_eq/=; done.
Qed.

Lemma usage_step_order ts u b i t :
  order_by (usage_step ts (u, b) (i, t)).1 =
  if introduces_order_by t
  then foldl set_add (order_by u) (find_identifiers_opt (token_next ts i))
  else order_by u.
Proof.
  unfold usage_step.
  destruct (is_keyword t && bool_decide (normalized t = "ON")) eqn:Eon.
  { by destruct (on_keyword_not_order_by t Eon) as [-> _]. }
  unfold introduces_order_by. destruct t; simpl; repeat case_match; simplify_eq/=; done.
Qed.

Lemma usage_step_group ts u b i t :
  group_by (usage_step ts (u, b) (i, t)).1 =
  if introduces_group_by t
  then foldl set_add (group_by u) (find_identifiers_opt (token_next ts i))
  else group_by u.
Proof.
  unfold usage_step.
  destruct (is_keyword t && bool_decide (normalized t = "ON")) eqn:Eon.
  { by destruct (on_keyword_not_order_by t Eon) as [_ ->]. }
  unfold introduces_group_by. destruct t; simpl; repeat case_match; simplify_eq/=; done.
Qed.

Lemma usage_step_join ts u b i t :
  join_keys (usage_step ts (u, b) (i, t)).1 =
  (if b && is_class C_Comparison t
   then foldl set_add (join_keys u) (_recursive_find_identifiers t)
   else join_keys u) ∧
  (usage_step ts (u, b) (i, t)).2 =
  (if is_on_keyword t then true else if b && is_class C_Comparison t then false else b).
Proof.
  unfold usage_step, is_on_keyword.
  destruct t; simpl; rewrite ?andb_false_r; repeat case_match; simplify_eq/=; done.
Qed.

Section bucket.
Context {S A : Type} `{EqDecision A} (proj : S → list A) (step : S → nat * token → S).

Lemma foldl_bucket_NoDup l st :
  (∀ st it, ∃ l', proj (step st it) = foldl set_add (proj st) l') →
  NoDup (proj st) → NoDup (proj (foldl step st l)).
Proof.
  intros Hstep. revert st. induction l as [|it l IH]; intros st Hnd; [done|].
  simpl. apply IH. destruct (Hstep st it) as [l' ->]. by apply foldl_set_add_NoDup.
Qed.

Lemma foldl_bucket_elem_of (c : nat * token → bool) (a : nat * token → list A) l st x :
  (∀ st it, proj (step st it) = if c it then foldl set_add (proj st) (a it) else proj st) →
  x ∈ proj (foldl step st l) ↔
  x ∈ proj st ∨ ∃ it, it ∈ l ∧ c it = true ∧ x ∈ a it.
Proof.
  intros Hstep. revert st. induction l as [|it l IH]; intros st; simpl.
  - split; [by left|]. intros [?|(it & []%elem_of_nil & _)]. done.
  - rewrite IH, Hstep. split.
    + intros [Hx|(it' & Hin & Hc & Hx)].
      * destruct (c it) eqn:Ec; [|by left].
        apply foldl_set_add_elem_of in Hx as [?|?]; [by left|].
        right. exists it. split; [by left|done].
      * right. exists it'. split; [by right|done].
    + intros [Hx|(it' & Hin & Hc & Hx)].
      * left. destruct (c it); [|done]. apply foldl_set_add_elem_of. by left.
      * apply elem_of_cons in Hin as [->|Hin].
        -- left. rewrite Hc. apply foldl_set_add_elem_of. by right.
        -- right. by exists it'.
Qed.
End bucket.

Lemma enumerate_from_elem_of {A} (l : list A) k i x :
  (i, x) ∈ zip (seq k (length l)) l ↔ (k ≤ i)%nat ∧ l !! (i - k)%nat = Some x.
Proof.
  revert k. induction l as [|y l IH]; intros k; simpl.
  - split; [by intros ?%elem_of_nil|]. by intros [_ ?].
  - rewrite elem_of_cons, IH. split.
    + intros [[= -> ->]|[Hk Hl]].
      * split; [lia|]. by rewrite Nat.sub_diag.
      * split; [lia|]. by replace (i - k)%nat with (Datatypes.S (i - Datatypes.S k)) by lia.
    + intros [Hk Hl]. destruct (decide (i = k)) as [->|Hne].
      * left. rewrite Nat.sub_diag in Hl. by simplify_eq/=.
      * right. split; [lia|].
        by replace (i - k)%nat with (Datatypes.S (i - Datatypes.S k)) in Hl by lia.
Qed.

Lemma enumerate_lookup {A} (l : list A) i x : (i, x) ∈ enumerate l ↔ l !! i = Some x.
Proof.
  unfold enumerate. rewrite enumerate_from_elem_of, Nat.sub_0_r. split; [by intros [_ ?]|].
  intros ?. split; [lia|done].
Qed.

Lemma collect_usage_NoDup ts :
  NoDup (where_filters (collect_usage ts)) ∧ NoDup (join_keys (collect_usage ts)) ∧
  NoDup (order_by (collect_usage ts)) ∧ NoDup (group_by (collect_usage ts)).
Proof.
  unfold collect_usage. repeat split.
  - apply (foldl_bucket_NoDup (λ st, where_filters st.1)); [|apply NoDup_nil_2].
    intros [u b] [i t]. rewrite usage_step_where. simpl.
    destruct (is_class C_Where t); [eauto|by exists []].
  - apply (foldl_bucket_NoDup (λ st, join_keys st.1)); [|apply NoDup_nil_2].
    intros [u b] [i t]. destruct (usage_step_join ts u b i t) as [-> _]. simpl.
    destruct (b && is_class C_Comparison t); [eauto|by exists []].
  - apply (foldl_bucket_NoDup (λ st, order_by st.1)); [|apply NoDup_nil_2].
    intros [u b] [i t]. rewrite usage_step_order. simpl.
    destruct (introduces_order_by t); [eauto|by exists []].
  - apply (foldl_bucket_NoDup (λ st, group_by st.1)); [|apply NoDup_nil_2].
    intros [u b] [i t]. rewrite usage_step_group. simpl.
    destruct (introduces_group_by t); [eauto|by exists []].
Qed.

Lemma py_sorted_refs_sorted o l l' :
  NoDup l → py_sorted_refs (list_of_set o l) = Ok l' →
  l' ≡ₚ l ∧ NoDup l' ∧ StronglySorted ref_le l'.
Proof.
  intros Hnd Hs. assert (l' ≡ₚ l) as Hp.
  { apply py_sorted_refs_perm in Hs. rewrite Hs. apply list_of_set_perm. }
  split; [done|]. split; [by rewrite Hp|].
  unfold py_sorted_refs in Hs. case_decide; [done|]. injection Hs as <-.
  apply StronglySorted_merge_sort; apply _.
Qed.

Lemma analyze_column_usage_Ok o p u :
  analyze_column_usage o p = Ok u →
  let c := collect_usage (tokens (parsed p)) in
  (where_filters u ≡ₚ where_filters c ∧ StronglySorted ref_le (where_filters u)) ∧
  (join_keys u ≡ₚ join_keys c ∧ StronglySorted ref_le (join_keys u)) ∧
  (order_by u ≡ₚ order_by c ∧ StronglySorted ref_le (order_by u)) ∧
  (group_by u ≡ₚ group_by c ∧ StronglySorted ref_le (group_by u)).
Proof.
  unfold analyze_column_usage.
  intros (wf & Hwf & (jk & Hjk & (ob & Hob & (gb & Hgb & [= <-])%bind_Ok)%bind_Ok)%bind_Ok)%bind_Ok.
  destruct (collect_usage_NoDup (tokens (parsed p))) as (N1 & N2 & N3 & N4). simpl.
  destruct (py_sorted_refs_sorted _ _ _ N1 Hwf) as (? & _ & ?).
  destruct (py_sorted_refs_sorted _ _ _ N2 Hjk) as (? & _ & ?).
  destruct (py_sorted_refs_sorted _ _ _ N3 Hob) as (? & _ & ?).
  destruct (py_sorted_refs_sorted _ _ _ N4 Hgb) as (? & _ & ?).
  done.
Qed.

(** X6.  Every bucket of a usage map that [analyze_column_usage]
    returns is free of duplicates and in ascending tuple order. *)
Theorem usage_buckets_sorted (o : SetOrder) (p : SQLParser) (u : ColumnUsage) :
  analyze_column_usage o p = Ok u →
  (NoDup (where_filters u) ∧ StronglySorted ref_le (where_filters u)) ∧
  (NoDup (join_keys u) ∧ StronglySorted ref_le (join_keys u)) ∧
  (NoDup (order_by u) ∧ StronglySorted ref_le (order_by u)) ∧
  (NoDup (group_by u) ∧ StronglySorted ref_le (group_by u)).
Proof.
  intros ((P1 & ?) & (P2 & ?) & (P3 & ?) & (P4 & ?))%analyze_column_usage_Ok.
  destruct (collect_usage_NoDup (tokens (parsed p))) as (N1 & N2 & N3 & N4).
  repeat split; try done.
  - by rewrite P1.
  - by rewrite P2.
  - by rewrite P3.
  - by rewrite P4.
Qed.

Lemma collect_usage_where ts x :
  x ∈ where_filters (collect_usage ts) ↔
  ∃ t, t ∈ ts ∧ is_class C_Where t = true ∧ x ∈ _recursive_find_identifiers t.
Proof.
  unfold collect_usage.
  pose proof (foldl_bucket_elem_of (λ st, where_filters st.1) (usage_step ts)
                (λ it, is_class C_Where it.2) (λ it, _recursive_find_identifiers it.2)
                (enumerate ts) (empty_usage, false) x) as H.
  simpl in H. rewrite H; [|intros [u0 b] [j t0]; apply usage_step_where]. clear H.
  split.
  - intros [[]%elem_of_nil|([i t] & Hin%enumerate_lookup & Hc & Hx)].
    exists t. split; [by eapply list_elem_of_lookup_2|done].
  - intros (t & [i Hi]%list_elem_of_lookup_1 & Hc & Hx).
    right. exists (i, t). split; [by apply enumerate_lookup|done].
Qed.

Lemma collect_usage_order ts x :
  x ∈ order_by (collect_usage ts) ↔
  ∃ i t, ts !! i = Some t ∧ introduces_order_by t = true ∧
         x ∈ find_identifiers_opt (token_next ts i).
Proof.
  unfold collect_usage.
  pose proof (foldl_bucket_elem_of (λ st, order_by st.1) (usage_step ts)
                (λ it, introduces_order_by it.2)
                (λ it, find_identifiers_opt (token_next ts it.1))
                (enumerate ts) (empty_usage, false) x) as H.
  simpl in H. rewrite H; [|intros [u0 b] [j t0]; apply usage_step_order]. clear H.
  split.
  - intros [[]%elem_of_nil|([i t] & Hin%enumerate_lookup & Hc & Hx)]. by exists i, t.
  - intros (i & t & Hi & Hc & Hx).
    right. exists (i, t). split; [by apply enumerate_lookup|done].
Qed.

Lemma collect_usage_group ts x :
  x ∈ group_by (collect_usage ts) ↔
  ∃ i t, ts !! i = Some t ∧ introduces_group_by t = true ∧
         x ∈ find_identifiers_opt (token_next ts i).
Proof.
  unfold collect_usage.
  pose proof (foldl_bucket_elem_of (λ st, group_by st.1) (usage_step ts)
                (λ it, introduces_group_by it.2)
                (λ it, find_identifiers_opt (token_next ts it.1))
                (enumerate ts) (empty_usage, false) x) as H.
  simpl in H. rewrite H; [|intros [u0 b] [j t0]; apply usage_step_group]. clear H.
  split.
  - intros [[]%elem_of_nil|([i t] & Hin%enumerate_lookup & Hc & Hx)]. by exists i, t.
  - intros (i & t & Hi & Hc & Hx).
    right. exists (i, t). split; [by apply enumerate_lookup|done].
Qed.

(** X7.  What the buckets hold.  A reference is in [where_filters]
    exactly when it is found under some top-level WHERE node; in
    [order_by] exactly when it is found under the token that follows
    (whitespace skipped) some top-level keyword that contains [ORDER BY];
    in [group_by] likewise for a keyword that contains [GROUP BY] and
    not [ORDER BY]. *)
Theorem usage_buckets_hold (o : SetOrder) (p : SQLParser) (u : ColumnUsage) (x : column_ref) :
  analyze_column_usage o p = Ok u →
  let ts := tokens (parsed p) in
  (x ∈ where_filters u ↔
   ∃ t, t ∈ ts ∧ is_class C_Where t = true ∧ x ∈ _recursive_find_identifiers t) ∧
  (x ∈ order_by u ↔
   ∃ i t, ts !! i = Some t ∧ introduces_order_by t = true ∧
          x ∈ find_identifiers_opt (token_next ts i)) ∧
  (x ∈ group_by u ↔
   ∃ i t, ts !! i = Some t ∧ introduces_group_by t = true ∧
          x ∈ find_identifiers_opt (token_next ts i)).
Proof.
  intros ((P1 & _) & _ & (P3 & _) & (P4 & _))%analyze_column_usage_Ok ts.
  rewrite P1, P3, P4.
  split; [apply collect_usage_where|]. split; [apply collect_usage_order|].
  apply collect_usage_group.
Qed.

(** ** The join keys *)

Lemma usage_fold_join ts l st :
  (join_keys (foldl (usage_step ts) st l).1, (foldl (usage_step ts) st l).2)
  = foldl join_step (join_keys st.1, st.2) (l.*2).
Proof.
  revert st. induction l as [|[i t] l IH]; intros [u b]; [done|].
  rewrite fmap_cons. cbn [foldl]. rewrite IH. f_equal.
  destruct (usage_step_join ts u b i t) as [Hj Hb].
  unfold join_step. cbn [fst snd]. by rewrite Hj, Hb.
Qed.

Lemma enumerate_snd {A} (l : list A) : (enumerate l).*2 = l.
Proof. unfold enumerate. apply snd_zip. by rewrite length_seq. Qed.

Lemma join_fold_flag l j b : (foldl join_step (j, b) l).2 = after_on b l.
Proof. revert j b. induction l as [|t l IH]; intros j b; [done|]. simpl. apply IH. Qed.

Lemma join_fold_elem_of l j b x :
  x ∈ (foldl join_step (j, b) l).1 ↔
  x ∈ j ∨ ∃ l1 t l3, l = l1 ++ t :: l3 ∧ is_class C_Comparison t = true ∧
                     after_on b l1 = true ∧ x ∈ _recursive_find_identifiers t.
Proof.
  revert j b. induction l as [|t0 l IH]; intros j b.
  - simpl. split; [by left|]. intros [?|(l1 & t & l3 & Hl & _)]; [done|].
    by destruct l1.
  - cbn [foldl]. unfold join_step at 2. cbn [fst snd]. rewrite IH. split.
    + intros [Hx|(l1 & t & l3 & -> & Hc & Hon & Hx)].
      * destruct b, (is_class C_Comparison t0) eqn:Ec; simpl in Hx; try by left.
        apply foldl_set_add_elem_of in Hx as [?|?]; [by left|].
        right. by exists [], t0, l.
      * right. by exists (t0 :: l1), t, l3.
    + intros [Hx|(l1 & t & l3 & Hl & Hc & Hon & Hx)].
      * left. destruct (b && is_class C_Comparison t0); [|done].
        apply foldl_set_add_elem_of. by left.
      * destruct l1 as [|t1 l1]; simplify_eq/=.
        -- left. rewrite Hc. apply foldl_set_add_elem_of. by right.
        -- right. by exists l1, t, l3.
Qed.

Lemma on_keyword_not_comparison t :
  is_on_keyword t = true → is_class C_Comparison t = false.
Proof. by destruct t. Qed.

Lemma after_on_cases b l :
  after_on b l = true ↔
  (b = true ∧ Forall (λ t, is_class C_Comparison t = false) l) ∨
  ∃ l1 t l2, l = l1 ++ t :: l2 ∧ is_on_keyword t = true ∧
             Forall (λ t, is_class C_Comparison t = false) l2.
Proof.
  revert b. induction l as [|t l IH]; intros b.
  - simpl. split; [by left|]. intros [[? _]|(l1 & ? & ? & ? & _)]; [done|by destruct l1].
  - unfold after_on. cbn [foldl]. fold (after_on (if is_on_keyword t then true
      else if b && is_class C_Comparison t then false else b) l).
    rewrite IH. clear IH. destruct (is_on_keyword t) eqn:Eon.
    + pose proof (on_keyword_not_comparison t Eon) as Hc. split.
      * intros [[_ Hl]|(l1 & t' & l2 & -> & ? & ?)].
        -- right. by exists [], t, l.
        -- right. by exists (t :: l1), t', l2.
      * intros [[-> Hl]|(l1 & t' & l2 & Hl & ? & ?)].
        -- left. by apply Forall_cons in Hl as [_ ?].
        -- destruct l1 as [|t1 l1]; simplify_eq/=; [by left|].
           right. by exists l1, t', l2.
    + split.
      * intros [[Hb Hl]|(l1 & t' & l2 & -> & ? & ?)].
        -- left. destruct b, (is_class C_Comparison t) eqn:Ec; simplify_eq/=.
           split; [done|]. by constructor.
        -- right. by exists (t :: l1), t', l2.
      * intros [[-> Hl]|(l1 & t' & l2 & Hl & ? & ?)].
        -- apply Forall_cons in Hl as [-> Hl]. by left.
        -- destruct l1 as [|t1 l1]; simplify_eq/=; [congruence|].
           right. by exists l1, t', l2.
Qed.

Lemma collect_usage_join ts x :
  x ∈ join_keys (collect_usage ts) ↔
  ∃ t, first_comparison_after_on ts t ∧ x ∈ _recursive_find_identifiers t.
Proof.
  unfold collect_usage.
  pose proof (usage_fold_join ts (enumerate ts) (empty_usage, false)) as H.
  rewrite enumerate_snd in H. simpl in H.
  apply (f_equal fst) in H. simpl in H. rewrite H. clear H.
  rewrite join_fold_elem_of. split.
  - intros [[]%elem_of_nil|(l1 & t & l3 & -> & Hc & Hon & Hx)].
    apply after_on_cases in Hon as [[? _]|(l0 & t_on & l2 & -> & Hon & Hl2)]; [done|].
    exists t. split; [|done]. exists l0, t_on, l2, l3.
    by rewrite <-app_assoc.
  - intros (t & (l1 & t_on & l2 & l3 & -> & Hon & Hl2 & Hc) & Hx).
    right. exists (l1 ++ t_on :: l2), t, l3. rewrite <-app_assoc. simpl.
    repeat split; try done. apply after_on_cases. right. by exists l1, t_on, l2.
Qed.

(** X8.  A reference is in [join_keys] exactly when it is found under
    a top-level Comparison node that is the first Comparison after some
    top-level [ON] keyword: a second condition of the same [ON] (a
    later Comparison with no [ON] in between) adds nothing. *)
Theorem join_keys_first_comparison (o : SetOrder) (p : SQLParser) (u : ColumnUsage)
    (x : column_ref) :
  analyze_column_usage o p = Ok u →
  x ∈ join_keys u ↔
  ∃ t, first_comparison_after_on (tokens (parsed p)) t ∧
       x ∈ _recursive_find_identifiers t.
Proof.
  intros (_ & (P2 & _) & _)%analyze_column_usage_Ok.
  rewrite P2. apply collect_usage_join.
Qed.

(** ** The combinations of findings *)

(** X9.  [detect_anti_patterns] returns one of five lists of finding
    types, whatever the statement and the regular-expression engine:
    none, one of the three, or [SELECT_STAR] followed by
    [FUNCTION_ON_COLUMN_IN_WHERE].  [MISSING_WHERE_CLAUSE] never comes
    with another finding. *)
Theorem anti_patterns_combinations (re : string → string → bool) (p : SQLParser) :
  finding_type <$> detect_anti_patterns re p ∈
  [ []; ["SELECT_STAR"]; ["MISSING_WHERE_CLAUSE"]; ["FUNCTION_ON_COLUMN_IN_WHERE"];
    ["SELECT_STAR"; "FUNCTION_ON_COLUMN_IN_WHERE"] ].
Proof.
  unfold detect_anti_patterns.
  destruct (bool_decide (get_query_type p = "SELECT")) eqn:Esel.
  - apply bool_decide_eq_true in Esel. rewrite Esel.
    change (bool_decide ("SELECT" ∈ ["UPDATE"; "DELETE"])) with false.
    cbn [andb].
    destruct (existsb _ _), (truthy (extract_where_clause p) && re _ _); cbn;
      repeat first [by left | right].
  - cbn [andb].
    destruct (bool_decide (get_query_type p ∈ ["UPDATE"; "DELETE"])); cbn [andb].
    + destruct (truthy (extract_where_clause p)); cbn; [|repeat first [by left | right]].
      destruct (re _ _); cbn; repeat first [by left | right].
    + destruct (truthy (extract_where_clause p) && re _ _); cbn; repeat first [by left | right].
Qed.

(** ** Which recommendations the advisor returns *)

Lemma foldl_claimed_by_inv claimed items p :
  p ∈ foldl claimed_by claimed items →
  p ∈ claimed ∨ ∃ e, e ∈ items ∧ (1 < length e.2)%nat ∧ p ∈ e.2.
Proof.
  revert claimed. induction items as [|e items IH]; intros claimed Hp; [by left|].
  simpl in Hp. apply IH in Hp as [Hp|(e' & ? & ? & ?)].
  - unfold claimed_by in Hp. case_decide as Hbig; [|by left].
    apply foldl_set_add_elem_of in Hp as [?|?]; [by left|].
    right. exists e. split; [by left|done].
  - right. exists e'. split; [by right|done].
Qed.

Lemma resolved_to_elem_of m t wf p :
  p ∈ resolved_to m t wf ↔ resolve m p.1 = Some t ∧ p ∈ wf.
Proof. unfold resolved_to. by rewrite list_elem_of_filter. Qed.

(** The set [recommended_composite_cols] after the composite block. *)
Lemma composite_phase_claimed m wf comps claimed p :
  Forall has_column wf →
  composite_phase m wf = Ok (comps, claimed) →
  p ∈ claimed ↔ in_composite m wf p.
Proof.
  intros Hwf. rewrite composite_phase_named by done. unfold in_composite.
  case_decide as Hbig; intros [= <- <-].
  - split.
    + intros [[]%elem_of_nil|([t cols] & [-> Hne]%build_table_to_cols_elem_of & Hlen & Hp)]
        %foldl_claimed_by_inv.
      simpl in Hlen, Hp. apply resolved_to_elem_of in Hp as Hp'. destruct Hp' as [Hres Hin].
      split; [done|]. by exists t.
    + intros (Hin & t & Hres & Hlen).
      apply (foldl_claimed_by_elem_of _ _ (t, resolved_to m t wf)); simpl; [|done|].
      * apply build_table_to_cols_elem_of. split; [done|].
        intros Hnil. rewrite Hnil in Hlen. simpl in Hlen. lia.
      * by apply resolved_to_elem_of.
  - split; [by intros ?%elem_of_nil|]. intros (_ & t & _ & Hlen). exfalso. apply Hbig.
    eapply Nat.lt_le_trans; [exact Hlen|]. apply length_filter.
Qed.

Lemma composite_phase_comps m wf comps claimed t r :
  Forall has_column wf →
  composite_phase m wf = Ok (comps, claimed) →
  (FromComposite t, r) ∈ comps ↔
  (1 < length (resolved_to m t wf))%nat ∧
  r = composite_rec t (merge_sort String.le (column_names (resolved_to m t wf))).
Proof.
  intros Hwf. rewrite composite_phase_named by done.
  case_decide as Hbig; intros [= <- <-].
  - rewrite list_elem_of_bind. split.
    + intros ([t' cols] & Hin & [-> Hne]%build_table_to_cols_elem_of).
      unfold composite_of in Hin. simpl in Hin. case_decide; [|by apply elem_of_nil in Hin].
      apply list_elem_of_singleton in Hin. by simplify_eq.
    + intros [Hlen ->]. exists (t, resolved_to m t wf). split.
      * unfold composite_of. simpl. rewrite decide_True by done. by left.
      * apply build_table_to_cols_elem_of. split; [done|].
        intros Hnil. rewrite Hnil in Hlen. simpl in Hlen. lia.
  - split; [by intros ?%elem_of_nil|]. intros [Hlen _]. exfalso. apply Hbig.
    eapply Nat.lt_le_trans; [exact Hlen|]. apply length_filter.
Qed.

Lemma composite_phase_origin m wf comps claimed e :
  Forall has_column wf →
  composite_phase m wf = Ok (comps, claimed) →
  e ∈ comps → ∃ t, e.1 = FromComposite t.
Proof.
  intros Hwf. rewrite composite_phase_named by done.
  case_decide; intros [= <- <-]; [|by intros ?%elem_of_nil].
  intros (e' & Hin & _)%list_elem_of_bind. apply composite_of_origin in Hin. eauto.
Qed.

Lemma singles_elem_of m claimed u k' k p r :
  (FromSingle k p, r) ∈ singles m claimed u k' ↔
  k' = k ∧ p ∈ usage_get u k ∧ (p ∉ claimed) ∧
  ∃ table c, resolve m p.1 = Some table ∧ p.2 = Some c ∧
             r = single_rec k (reason_text k) table c.
Proof.
  unfold singles. rewrite list_elem_of_bind. split.
  - intros (q & Hin & Hq). unfold single_of in Hin.
    case_decide as Hcl; [by apply elem_of_nil in Hin|].
    destruct (resolve m q.1) as [table|] eqn:Hres; [|by apply elem_of_nil in Hin].
    destruct q.2 as [c|] eqn:Hc; [|by apply elem_of_nil in Hin].
    apply list_elem_of_singleton in Hin. injection Hin as -> -> ->.
    repeat split; try done. by exists table, c.
  - intros (-> & Hin & Hcl & table & c & Hres & Hc & ->). exists p. split; [|done].
    unfold single_of. rewrite decide_False by done. rewrite Hres, Hc. by left.
Qed.

Lemma singles_origin m claimed u k e :
  e ∈ singles m claimed u k → ∃ p, e.1 = FromSingle k p.
Proof.
  unfold singles. intros (q & Hin & _)%list_elem_of_bind.
  apply single_of_origin in Hin as [? _]. eauto.
Qed.

(** X10.  Single-column recommendations.  When the references of the
    three buckets have a column name, the advisor returns, and the
    single-column loop appends a recommendation for the reference [p]
    of the bucket [k] exactly when the alias of [p] resolves to a table
    and [p] is not part of a composite index; the recommendation is
    then the one of that table and column, with impact [Medium] for
    [order_by] and [High] otherwise. *)
Theorem single_recommendation_iff (a : IndexAdvisor) :
  let m := alias_to_table_map a in
  let u := advisor_column_usage a in
  Forall has_column (where_filters u) →
  Forall has_column (join_keys u) →
  Forall has_column (order_by u) →
  ∃ recs,
    generate_recommendations_traced m u = Ok recs ∧
    generate_recommendations a = Ok recs.*2 ∧
    ∀ k p r,
      (FromSingle k p, r) ∈ recs ↔
      p ∈ usage_get u k ∧ ¬ in_composite m (where_filters u) p ∧
      ∃ table c, resolve m p.1 = Some table ∧ p.2 = Some c ∧
                 r = single_rec k (reason_text k) table c.
Proof.
  intros m u Hwf Hjk Hob.
  destruct (generate_traced_named m u Hwf Hjk Hob) as (comps & claimed & Hcomp & Hgen).
  eexists. split; [exact Hgen|]. split.
  { unfold generate_recommendations. fold m u. by rewrite Hgen. }
  intros k p r. rewrite !elem_of_app, !singles_elem_of.
  rewrite (composite_phase_claimed m _ comps claimed p Hwf Hcomp). split.
  - intros [Hin|[H|[H|H]]].
    + apply (composite_phase_origin _ _ _ _ _ Hwf Hcomp) in Hin as [t Ht]. done.
    + by destruct H as (_ & ? & ? & ?).
    + by destruct H as (_ & ? & ? & ?).
    + by destruct H as (_ & ? & ? & ?).
  - intros (Hin & Hcl & Hr). right. destruct k; [left|right; left|right; right]; done.
Qed.

(** X11.  Composite recommendations.  Under the same condition the
    composite loop appends a recommendation for [table] exactly when
    more than one reference of [where_filters] resolves to [table]; it
    is the one on the sorted column names of these references. *)
Theorem composite_recommendation_iff (a : IndexAdvisor) :
  let m := alias_to_table_map a in
  let u := advisor_column_usage a in
  Forall has_column (where_filters u) →
  Forall has_column (join_keys u) →
  Forall has_column (order_by u) →
  ∃ recs,
    generate_recommendations_traced m u = Ok recs ∧
    generate_recommendations a = Ok recs.*2 ∧
    ∀ table r,
      (FromComposite table, r) ∈ recs ↔
      (1 < length (resolved_to m table (where_filters u)))%nat ∧
      r = composite_rec table
            (merge_sort String.le (column_names (resolved_to m table (where_filters u)))).
Proof.
  intros m u Hwf Hjk Hob.
  destruct (generate_traced_named m u Hwf Hjk Hob) as (comps & claimed & Hcomp & Hgen).
  eexists. split; [exact Hgen|]. split.
  { unfold generate_recommendations. fold m u. by rewrite Hgen. }
  intros t r. rewrite !elem_of_app.
  rewrite <-(composite_phase_comps m _ comps claimed t r Hwf Hcomp). split; [|by left].
  intros [Hin|[H|[H|H]]]; [done|..]; by apply singles_origin in H as [? ?].
Qed.

Lemma StronglySorted_lookup {A} (R : relation A) (l : list A) i j x y :
  StronglySorted R l → (i < j)%nat → l !! i = Some x → l !! j = Some y → R x y.
Proof.
  intros Hs. revert i j. induction Hs as [|z l Hs IH Hz]; intros i j Hij Hi Hj; [done|].
  destruct j as [|j]; [lia|]. simpl in Hj. destruct i as [|i].
  - simpl in Hi. simplify_eq. rewrite Forall_forall in Hz.
    by eapply Hz, list_elem_of_lookup_2.
  - simpl in Hi. apply (IH i j); [lia|done..].
Qed.

(** X12.  The order of the recommendations: those of the composite
    loop, then the single-column ones of [where_filters], of
    [join_keys] and of [order_by]. *)
Theorem recommendations_in_append_order (a : IndexAdvisor) :
  let m := alias_to_table_map a in
  let u := advisor_column_usage a in
  Forall has_column (where_filters u) →
  Forall has_column (join_keys u) →
  Forall has_column (order_by u) →
  ∃ recs,
    generate_recommendations_traced m u = Ok recs ∧
    generate_recommendations a = Ok recs.*2 ∧
    ∀ i j e1 e2, (i < j)%nat → recs !! i = Some e1 → recs !! j = Some e2 →
                 (origin_rank e1.1 ≤ origin_rank e2.1)%nat.
Proof.
  intros m u Hwf Hjk Hob.
  destruct (generate_traced_named m u Hwf Hjk Hob) as (comps & claimed & Hcomp & Hgen).
  eexists. split; [exact Hgen|]. split.
  { unfold generate_recommendations. fold m u. by rewrite Hgen. }
  assert (StronglySorted (λ e1 e2 : origin * Recommendation,
            (origin_rank e1.1 ≤ origin_rank e2.1)%nat)
            (comps ++ singles m claimed u WhereFilters ++ singles m claimed u JoinKeys
                   ++ singles m claimed u OrderBy)) as Hs.
  { assert (∀ l n, Forall (λ e : origin * Recommendation, origin_rank e.1 = n) l →
              StronglySorted (λ e1 e2 : origin * Recommendation,
                (origin_rank e1.1 ≤ origin_rank e2.1)%nat) l) as Hconst.
    { intros l n Hl. induction Hl as [|e l He Hl IH]; constructor; [done|].
      eapply Forall_impl; [exact Hl|]. simpl. intros e' He'. lia. }
    assert (Forall (λ e : origin * Recommendation, origin_rank e.1 = 0%nat) comps) as H0.
    { apply Forall_forall. intros e He.
      apply (composite_phase_origin _ _ _ _ _ Hwf Hcomp) in He as [t ->]. done. }
    assert (∀ k n, (∀ p, origin_rank (FromSingle k p) = n) →
              Forall (λ e : origin * Recommendation, origin_rank e.1 = n)
                     (singles m claimed u k)) as Hk.
    { intros k n Hn. apply Forall_forall. intros e [p ->]%singles_origin. apply Hn. }
    pose proof (Hk WhereFilters 1%nat (λ _, eq_refl)) as H1.
    pose proof (Hk JoinKeys 2%nat (λ _, eq_refl)) as H2.
    pose proof (Hk OrderBy 3%nat (λ _, eq_refl)) as H3.
    rewrite Forall_forall in H0, H1, H2, H3.
    repeat apply StronglySorted_app_2;
      try (by eapply Hconst; apply Forall_forall; eauto).
    all: intros e1 e2 He1 He2; rewrite ?elem_of_app in He2;
      repeat match goal with H : _ ∨ _ |- _ => destruct H end;
      repeat match goal with
             | H : _ ∈ _ |- _ =>
                 first [apply H0 in H | apply H1 in H | apply H2 in H | apply H3 in H]
             end; lia. }
  intros i j e1 e2 Hij Hi Hj. exact (StronglySorted_lookup _ _ i j e1 e2 Hs Hij Hi Hj).
Qed.

(** X13.  Nothing removes a repeated statement: a reference that is in
    two buckets, resolves, and is not part of a composite index gets
    two recommendations with the same [CREATE INDEX] statement. *)
Theorem same_statement_twice (a : IndexAdvisor) (k1 k2 : usage_type) (p : column_ref) :
  let m := alias_to_table_map a in
  let u := advisor_column_usage a in
  Forall has_column (where_filters u) →
  Forall has_column (join_keys u) →
  Forall has_column (order_by u) →
  k1 ≠ k2 → p ∈ usage_get u k1 → p ∈ usage_get u k2 →
  is_Some (resolve m p.1) → ¬ in_composite m (where_filters u) p →
  ∃ recs i j r1 r2,
    generate_recommendations a = Ok recs ∧ i ≠ j ∧
    recs !! i = Some r1 ∧ recs !! j = Some r2 ∧ statement r1 = statement r2.
Proof.
  intros m u Hwf Hjk Hob Hk Hin1 Hin2 [table Hres] Hcl.
  destruct (generate_traced_named m u Hwf Hjk Hob) as (comps & claimed & Hcomp & Hgen).
  assert (is_Some p.2) as [c Hc].
  { assert (Forall has_column (usage_get u k1)) as Hall by by destruct k1.
    rewrite Forall_forall in Hall. by apply Hall. }
  rewrite <-(composite_phase_claimed m _ comps claimed p Hwf Hcomp) in Hcl.
  set (recs := comps ++ singles m claimed u WhereFilters ++ singles m claimed u JoinKeys
                     ++ singles m claimed u OrderBy) in *.
  assert (∀ k, p ∈ usage_get u k →
            (FromSingle k p, single_rec k (reason_text k) table c) ∈ recs) as Hmem.
  { intros k Hin. unfold recs. rewrite !elem_of_app, !singles_elem_of.
    right. destruct k; [left|right; left|right; right]; repeat split; eauto. }
  destruct (proj1 (list_elem_of_lookup _ _) (Hmem k1 Hin1)) as [i Hi].
  destruct (proj1 (list_elem_of_lookup _ _) (Hmem k2 Hin2)) as [j Hj].
  exists recs.*2, i, j, (single_rec k1 (reason_text k1) table c),
         (single_rec k2 (reason_text k2) table c).
  split; [unfold generate_recommendations; fold m u; by rewrite Hgen|].
  split; [intros ->; rewrite Hi in Hj; by simplify_eq|].
  rewrite !list_lookup_fmap, Hi, Hj. done.
Qed.

(** ** The list of rewrite suggestions *)

(** X14.  [suggest_rewrites] returns at most one suggestion of each
    rule, the one of the UNION rule first: however many bare [UNION]
    keywords or [IN] subqueries the statement has, the list is one of
    four. *)
Theorem suggest_rewrites_at_most_one_each (p : SQLParser) :
  suggest_rewrites p ∈
  [ []; [union_all_suggestion (raw_sql p)]; [subquery_to_join_suggestion];
    [union_all_suggestion (raw_sql p); subquery_to_join_suggestion] ].
Proof.
  unfold suggest_rewrites.
  destruct (check_union_cases p) as [-> | ->], (check_subquery_cases p) as [-> | ->];
    simpl; repeat first [by left | right].
Qed.

(** X15.  The SQL text of the UNION suggestion.  The replacement is
    made on the raw text, not on the token that fired the rule: the
    leftmost [UNION] of the text (upper case) is the one rewritten,
    wherever it stands, and when the text has no upper-case [UNION]
    (the keyword was written in lower case) the suggested SQL is the
    raw text unchanged. *)
Theorem union_suggestion_text (p : SQLParser) (s : Suggestion) :
  s ∈ suggest_rewrites p →
  suggestion_type s = "REPLACE_UNION_WITH_UNION_ALL" →
  (∀ n, String.prefix "UNION" (str_drop n (raw_sql p)) = true →
        (∀ k, (k < n)%nat → String.prefix "UNION" (str_drop k (raw_sql p)) = false) →
        suggested_sql s
        = str_take n (raw_sql p) +:+ "UNION ALL" +:+ str_drop (n + 5) (raw_sql p)) ∧
  ((∀ k, String.prefix "UNION" (str_drop k (raw_sql p)) = false) →
   suggested_sql s = raw_sql p).
Proof.
  intros Hin Hty.
  assert (s = union_all_suggestion (raw_sql p)) as ->.
  { unfold suggest_rewrites in Hin.
    destruct (check_union_cases p) as [Hu|Hu], (check_subquery_cases p) as [Hs|Hs];
      rewrite Hu, Hs in Hin; simpl in Hin;
      repeat (apply elem_of_cons in Hin as [->|Hin]; [done || by simpl in Hty|]);
      by apply elem_of_nil in Hin. }
  simpl. split.
  - intros n Hocc Hfirst. by rewrite (str_replace_first_leftmost _ _ _ n).
  - apply str_replace_first_absent.
Qed.

(** ** The request handler *)

(** X16.  The impact classifier only labels.  With a classifier loaded
    the handler fails exactly when it fails without one, and its
    response is the response without one in which every recommendation
    carries the same label, the prediction on the join count and the
    number of WHERE references of the report: analysis, statements,
    reasons, impacts and rewrite suggestions do not depend on the
    classifier. *)
Theorem classifier_only_labels (sqlparse_parse : string → list Statement)
    (re : string → string → bool) (o : SetOrder) (predict : Z → nat → string)
    (sql : string) :
  analyze_query sqlparse_parse re o (Some predict) sql
  = labelled predict <$> analyze_query sqlparse_parse re o None sql.
Proof.
  unfold analyze_query.
  destruct (SQLParser_init sqlparse_parse sql) as [p|]; simpl; [|done].
  destruct (run_analysis o re p) as [r|]; simpl; [|done].
  destruct (IndexAdvisor_init sqlparse_parse (with_raw_sql r sql)) as [a|]; simpl; [|done].
  destruct (generate_recommendations a) as [recs|]; simpl; done.
Qed.

Lemma first_statement_head parse1 parse2 (sql : string) :
  head (parse1 sql) = head (parse2 sql) →
  first_statement parse1 sql = first_statement parse2 sql.
Proof. unfold first_statement. destruct (parse1 sql), (parse2 sql); naive_solver. Qed.

(** X17.  The handler reads the first statement only.  On a text in
    which the tokenizer finds no statement (the empty text, blanks) it
    raises [IndexError]; otherwise its result is the same for two
    tokenizers that agree on the first statement of the text, so what
    follows the first statement has no part in the analysis. *)
Theorem handler_reads_first_statement (parse1 parse2 : string → list Statement)
    (re : string → string → bool) (o : SetOrder) (model : option (Z → nat → string))
    (sql : string) :
  head (parse1 sql) = head (parse2 sql) →
  analyze_query parse1 re o model sql = analyze_query parse2 re o model sql ∧
  (parse1 sql = [] → analyze_query parse1 re o model sql = Raise IndexError).
Proof.
  intros Hhd. pose proof (first_statement_head parse1 parse2 sql Hhd) as Hfs. split.
  - assert (∀ r, IndexAdvisor_init parse1 (with_raw_sql r sql)
                 = IndexAdvisor_init parse2 (with_raw_sql r sql)) as Hinit.
    { intros r. unfold IndexAdvisor_init, _map_aliases_to_tables.
      change (default "" (report_raw_sql (with_raw_sql r sql))) with sql.
      by rewrite Hfs. }
    unfold analyze_query, SQLParser_init. rewrite Hfs.
    destruct (first_statement parse2 sql) as [st|]; simpl; [|done].
    destruct (run_analysis o re _) as [r|]; simpl; [|done].
    by rewrite Hinit.
  - intros Hnil. unfold analyze_query, SQLParser_init, first_statement. by rewrite Hnil.
Qed.

Lemma foldM_inv_elem {A B} (I : B → Prop) (f : B → A → result B) l :
  (∀ b x b', x ∈ l → I b → f b x = Ok b' → I b') →
  ∀ b b', I b → foldM f b l = Ok b' → I b'.
Proof.
  induction l as [|x l IH]; intros Hstep b b' Hb; simpl.
  - by intros [= <-].
  - intros (b1 & Hb1 & Hrest)%bind_Ok. eapply IH; [|by eapply Hstep; [left|..]|done].
    intros b2 y b3 Hy. apply Hstep. by right.
Qed.

Lemma dict_set_values {K V} `{EqDecision K} (P : V → Prop) (k : K) (v : V) (d : pydict K V) :
  P v → Forall P (dict_values d) → Forall P (dict_values (dict_set k v d)).
Proof.
  intros Hv. induction d as [|[k' v'] d IH]; intros Hd.
  - by repeat constructor.
  - simpl. apply Forall_cons in Hd as [Hv' Hd]. destruct (decide (k = k')).
    + by constructor.
    + constructor; [done|]. by apply IH.
Qed.

Lemma record_table_values m t m' :
  has_real_name t → Forall is_Some (dict_values m) → record_table m t = Ok m' →
  Forall is_Some (dict_values m').
Proof. destruct t; [done|]. simpl. intros Hn Hm [= <-]. by apply dict_set_values. Qed.

Lemma parser_step_values st t st' :
  match t with
  | TokList C_Identifier nm _ => is_Some (real_name nm)
  | TokList C_IdentifierList _ subs => Forall has_real_name (get_identifiers subs)
  | _ => True
  end →
  Forall is_Some (dict_values st.1) → parser_step st t = Ok st' →
  Forall is_Some (dict_values st'.1).
Proof.
  destruct st as [m b]. intros Ht Hm. unfold parser_step. destruct b; simpl.
  - intros ([m1 b1] & (m2 & Hm2 & [= <- <-])%bind_Ok & [= <-])%bind_Ok. simpl.
    destruct t as [ty v|c nm ts]; [by simplify_eq|].
    destruct c; try by simplify_eq.
    + by eapply (record_table_values m (TokList C_Identifier nm ts)).
    + rewrite Forall_forall in Ht.
      eapply (foldM_inv_elem (λ m, Forall is_Some (dict_values m))); [|exact Hm|exact Hm2].
      intros m3 s m4 Hs Hm3. apply record_table_values; [by apply Ht|done].
  - by intros [= <-].
Qed.

Lemma tables_have_names_groups ts : tables_have_names ts → lists_hold_groups ts.
Proof.
  unfold tables_have_names, lists_hold_groups. intros Hts.
  eapply Forall_impl; [exact Hts|].
  intros [ty v|c nm subs]; [done|]. destruct c; try done.
  intros Hsubs. eapply Forall_impl; [exact Hsubs|]. by intros [|].
Qed.

Lemma alias_scans_Ok p :
  lists_hold_groups (tokens (parsed p)) →
  (∃ m, _get_tables_and_aliases p = Ok m) ∧ (∃ m, map_aliases_scan (parsed p) = Ok m).
Proof.
  intros Hts. unfold lists_hold_groups in Hts. rewrite Forall_forall in Hts.
  unfold _get_tables_and_aliases, map_aliases_scan. split.
  - destruct (foldM_total parser_step (tokens (parsed p)) ([], false)) as [st ->];
      [|simpl; eauto].
    intros st t Ht. by apply step_total_on_groups, Hts.
  - destruct (foldM_total advisor_step (tokens (parsed p)) ([], false)) as [st ->];
      [|simpl; eauto].
    intros st t Ht. by apply step_total_on_groups, Hts.
Qed.

Lemma all_Some_strings (l : list (option string)) :
  Forall is_Some l → ∃ ss, l = Some <$> ss.
Proof.
  induction 1 as [|x l [s ->] _ [ss ->]]; [by exists []|]. by exists (s :: ss).
Qed.

Lemma extract_tables_named o p :
  tables_have_names (tokens (parsed p)) → ∃ ts, extract_tables o p = Ok ts.
Proof.
  intros Hts.
  destruct (alias_scans_Ok p (tables_have_names_groups _ Hts)) as [[m Hm] _].
  assert (Forall is_Some (dict_values m)) as Hv.
  { unfold _get_tables_and_aliases in Hm. apply fmap_Ok in Hm as (st & Hst & ->).
    unfold tables_have_names in Hts. rewrite Forall_forall in Hts.
    eapply (foldM_inv_elem (λ st, Forall is_Some (dict_values st.1))); [| |exact Hst].
    - intros st1 t st2 Ht. apply parser_step_values. by apply Hts.
    - constructor. }
  unfold extract_tables. rewrite Hm. simpl. rewrite py_sorted_names_set.
  destruct (all_Some_strings (py_set (dict_values m))) as [ss ->].
  { apply Forall_forall. intros x Hx. unfold py_set in Hx.
    rewrite elem_of_remove_dups in Hx. rewrite Forall_forall in Hv. by apply Hv. }
  rewrite py_sorted_names_strings. eauto.
Qed.

Lemma analyze_column_usage_has_columns o p u :
  Forall (λ t, named_tree t = true) (tokens (parsed p)) →
  analyze_column_usage o p = Ok u → usage_has_columns u.
Proof.
  intros (Hw & Hj & Ho & Hg)%collect_usage_has_columns.
  intros ((P1 & _) & (P2 & _) & (P3 & _) & (P4 & _))%analyze_column_usage_Ok.
  unfold usage_has_columns. by rewrite P1, P2, P3, P4.
Qed.

(** X18.  When the handler returns.  If the first statement of the
    text has a name on every Identifier, and its table references (the
    top-level Identifiers and the members of the top-level
    IdentifierLists) are groups with a real name, the handler returns a
    response, whatever the classifier and the order of the sets. *)
Theorem analyze_query_returns (sqlparse_parse : string → list Statement)
    (re : string → string → bool) (o : SetOrder) (model : option (Z → nat → string))
    (sql : string) (st : Statement) (rest : list Statement) :
  sqlparse_parse sql = st :: rest →
  Forall (λ t, named_tree t = true) (tokens st) →
  tables_have_names (tokens st) →
  ∃ resp, analyze_query sqlparse_parse re o model sql = Ok resp.
Proof.
  intros Hparse Hnamed Htables.
  set (p := {| raw_sql := sql; parsed := st |}).
  assert (first_statement sqlparse_parse sql = Ok st) as Hfs.
  { unfold first_statement. by rewrite Hparse. }
  destruct (extract_tables_named o p Htables) as [ts Hts].
  destruct (analyze_column_usage_named o p Hnamed) as [u Hu].
  destruct (analyze_column_usage_has_columns o p u Hnamed Hu) as (Hw & Hj & Ho & _).
  destruct (alias_scans_Ok p (tables_have_names_groups _ Htables)) as [_ [m Hm]].
  destruct (generate_traced_named m u Hw Hj Ho) as (comps & claimed & _ & Hgen).
  unfold analyze_query, SQLParser_init. rewrite Hfs. simpl. fold p.
  unfold run_analysis. rewrite Hts, Hu. simpl.
  unfold IndexAdvisor_init, _map_aliases_to_tables. simpl. rewrite Hfs. simpl.
  change (map_aliases_scan st) with (map_aliases_scan (parsed p)). rewrite Hm. simpl.
  unfold generate_recommendations. simpl. rewrite Hgen. simpl. eauto.
Qed.

(** ** The summary of the parser *)

Lemma named_tree_identifiers t :
  named_tree t = true → Forall (λ nm, is_Some (get_name nm)) (identifiers_of t).
Proof.
  induction t as [ty v|c nm ts IH] using token_tree_ind; [constructor|].
  cbn [named_tree identifiers_of]. intros [Hc Hts]%andb_true_iff.
  apply Forall_app. split.
  - destruct (decide (c = C_Identifier)); [|constructor].
    apply bool_decide_eq_true in Hc. by repeat constructor.
  - apply Forall_flat_map. rewrite forallb_forall in Hts.
    rewrite Forall_forall in IH. apply Forall_forall. intros t Ht.
    apply IH; [done|]. by apply Hts, list_elem_of_In.
Qed.

Lemma extract_columns_named o p :
  Forall (λ t, named_tree t = true) (tokens (parsed p)) →
  lists_hold_groups (tokens (parsed p)) →
  ∃ cs, extract_columns o p = Ok cs.
Proof.
  intros Hnamed Hgroups. destruct (alias_scans_Ok p Hgroups) as [[m Hm] _].
  unfold extract_columns. rewrite (extract_columns_set_spec p m Hm). simpl.
  rewrite py_sorted_names_set.
  destruct (all_Some_strings
              (foldl set_add [] (column_candidates m
                                   (flat_map identifiers_of (tokens (parsed p)))))) as [ss ->].
  { apply foldl_set_add_Forall; [constructor|].
    unfold column_candidates. apply Forall_fmap, Forall_forall.
    intros nm [_ Hin]%list_elem_of_filter. simpl.
    apply list_elem_of_In, in_flat_map in Hin as (t & Ht%list_elem_of_In & Hnm%list_elem_of_In).
    rewrite Forall_forall in Hnamed.
    pose proof (named_tree_identifiers t (Hnamed t Ht)) as Hall.
    rewrite Forall_forall in Hall. by apply Hall. }
  rewrite py_sorted_names_strings. eauto.
Qed.

(** X19.  [get_analysis_summary] returns under the condition under
    which the handler does, and its query type and tables are those of
    the report of [run_analysis]. *)
Theorem analysis_summary_returns (o : SetOrder) (p : SQLParser) :
  Forall (λ t, named_tree t = true) (tokens (parsed p)) →
  tables_have_names (tokens (parsed p)) →
  ∃ s, get_analysis_summary o p = Ok s ∧
       summary_where_clause s = extract_where_clause p ∧
       ∀ re r, run_analysis o re p = Ok r →
               summary_query_type s = query_type r ∧ summary_tables s = tables r.
Proof.
  intros Hnamed Htables.
  destruct (extract_tables_named o p Htables) as [ts Hts].
  destruct (extract_columns_named o p Hnamed (tables_have_names_groups _ Htables)) as [cs Hcs].
  unfold get_analysis_summary. rewrite Hts, Hcs. simpl. eexists. split; [done|].
  split; [done|]. simpl.
  intros re r (ts' & u & Hts' & _ & ->)%run_analysis_Ok. simpl.
  rewrite Hts in Hts'. by injection Hts' as <-.
Qed.

(** ** The plan tree *)

Section plan_facts.
Import PlanExplainer.
Variable py_repr : json → string.

Lemma json_tree_ind (P : json → Prop) :
  P JNull → (∀ b, P (JBool b)) → (∀ r, P (JNumber r)) → (∀ s, P (JString s)) →
  (∀ items, Forall P items → P (JArray items)) →
  (∀ fields, Forall (λ kv, P kv.2) fields → P (JObject fields)) →
  ∀ v, P v.
Proof.
  intros HN HB HR HS HA HO. fix IH 1.
  intros [|b|r|s|items|fields]; [apply HN|apply HB|apply HR|apply HS|..].
  - apply HA. induction items as [|x items IHl]; constructor; [apply IH|exact IHl].
  - apply HO. induction fields as [|[k x] fields IHl]; constructor; [apply IH|exact IHl].
Qed.

(** The equation of [_transform_plan_node] on a dictionary, with the
    lookup of ["Plans"] written as [node.get]. *)
Lemma transform_object fields :
  _transform_plan_node py_repr (JObject fields) =
  transformed_children ←
    match dict_get "Plans" fields with
    | None => Ok []
    | Some (JArray items) => forM (_transform_plan_node py_repr) items
    | Some (JString s) => if decide (s = "") then Ok [] else Raise AttributeError
    | Some (JObject fs) => if decide (fs = []) then Ok [] else Raise AttributeError
    | Some _ => Raise TypeError
    end;
  Ok {| node_type := default (JString "Unknown") (dict_get "Node Type" fields);
        estimated_cost := default (JNumber "0") (dict_get "Total Cost" fields);
        estimated_rows := default (JNumber "0") (dict_get "Plan Rows" fields);
        actual_time_ms := default (JNumber "0") (dict_get "Actual Total Time" fields);
        actual_rows := default (JNumber "0") (dict_get "Actual Rows" fields);
        details := detail py_repr fields "Join Filter" ++ detail py_repr fields "Hash Cond" ++
                   detail py_repr fields "Filter" ++ detail py_repr fields "Index Cond";
        children := transformed_children |}.
Proof.
  cbn [_transform_plan_node].
  match goal with |- ?lhs ≫= _ = ?rhs ≫= _ => cut (lhs = rhs) end.
  { by intros ->. }
  induction fields as [|[k v] fields IH]; [done|].
  cbn [dict_get]. destruct (decide ("Plans" = k)); [|exact IH].
  destruct v as [|b|r|s|items|fs]; try done.
  induction items as [|x items IHi]; [done|].
  cbn [forM]. by rewrite IHi.
Qed.

Lemma forM_total {A B} (f : A → result B) (l : list A) :
  Forall (λ x, ∃ y, f x = Ok y) l →
  ∃ ys, forM f l = Ok ys ∧ Forall2 (λ x y, f x = Ok y) l ys.
Proof.
  induction 1 as [|x l [y Hy] _ (ys & Hys & Hall)]; simpl.
  - exists []. split; [done|constructor].
  - rewrite Hy, Hys. simpl. exists (y :: ys). split; [done|]. by constructor.
Qed.

Lemma forM_raise {A B} (f : A → result B) (l : list A) e :
  forM f l = Raise e → ∃ x, x ∈ l ∧ f x = Raise e.
Proof.
  induction l as [|x l IH]; simpl; [done|].
  destruct (f x) as [y|e'] eqn:E; simpl.
  - destruct (forM f l) as [ys|e'']; simpl; [done|].
    intros [= <-]. destruct IH as (x' & ? & ?); [done|]. exists x'. split; [by right|done].
  - intros [= <-]. exists x. split; [by left|done].
Qed.

Lemma is_plan_returns_aux node :
  (is_plan node →
   ∃ out, _transform_plan_node py_repr node = Ok out ∧
          Forall2 (λ raw child, _transform_plan_node py_repr raw = Ok child)
                  (raw_children node) (children out)) ∧
  match node with
  | JArray items =>
      Forall (λ x, is_plan x → ∃ out, _transform_plan_node py_repr x = Ok out) items
  | _ => True
  end.
Proof.
  induction node as [| | | |items IH|fields IH] using json_tree_ind;
    (split; [intros Hplan; inversion Hplan as [fs Hget|fs items' Hget Hitems]; subst|]);
    try done.
  - eapply Forall_impl; [exact IH|]. simpl. intros x [Hx _] Hp.
    destruct (Hx Hp) as (out & ? & _). eauto.
  - rewrite transform_object. unfold raw_children. rewrite Hget. simpl.
    eexists. split; [done|]. simpl. constructor.
  - rewrite transform_object. unfold raw_children. rewrite Hget.
    destruct (forM_total (_transform_plan_node py_repr) items') as (ys & -> & Hall).
    { assert (("Plans", JArray items') ∈ fields) as Hin by by apply dict_get_elem_of.
      rewrite Forall_forall in IH. destruct (IH _ Hin) as [_ Hsub]. simpl in Hsub.
      rewrite Forall_forall in Hsub, Hitems |- *. intros x Hx.
      by apply Hsub; [|apply Hitems]. }
    simpl. eexists. split; [done|]. done.
Qed.

Lemma transform_raise_kinds node e :
  _transform_plan_node py_repr node = Raise e → e = AttributeError ∨ e = TypeError.
Proof.
  destruct e; [|by left|by right]. intros He. exfalso. revert He.
  assert ((_transform_plan_node py_repr node ≠ Raise IndexError) ∧
          match node with
          | JArray items =>
              Forall (λ x, _transform_plan_node py_repr x ≠ Raise IndexError) items
          | _ => True
          end) as [H _]; [|exact H].
  induction node as [| | | |items IH|fields IH] using json_tree_ind; (split; [|try done]);
    try done.
  - eapply Forall_impl; [exact IH|]. by intros x [? _].
  - rewrite transform_object.
    destruct (dict_get "Plans" fields) as [v|] eqn:Hget; [|done].
    destruct v as [|b|r|s|items|fs]; try done.
    + by destruct (decide (s = "")).
    + assert (("Plans", JArray items) ∈ fields) as Hin by by apply dict_get_elem_of.
      rewrite Forall_forall in IH. destruct (IH _ Hin) as [_ Hsub]. simpl in Hsub.
      destruct (forM _ items) as [ys|e] eqn:E; [done|]. simpl. intros [= ->].
      apply forM_raise in E as (x & Hx & Hraise).
      rewrite Forall_forall in Hsub. by apply (Hsub x Hx).
    + by destruct (decide (fs = [])).
Qed.

(** X20.  A raw plan as PostgreSQL prints it (an object whose
    ["Plans"], when present, is an array of such objects) is always
    transformed: the result has one child for every member of
    ["Plans"], in the same order, each the transformation of that
    member.  Whatever the input, a failure is an [AttributeError] (a
    node that is no dictionary) or a [TypeError] (a ["Plans"] that
    cannot be iterated). *)
Theorem transform_plan_returns (node : json) :
  (is_plan node →
   ∃ out, _transform_plan_node py_repr node = Ok out ∧
          Forall2 (λ raw child, _transform_plan_node py_repr raw = Ok child)
                  (raw_children node) (children out)) ∧
  (∀ e, _transform_plan_node py_repr node = Raise e → e = AttributeError ∨ e = TypeError).
Proof.
  split; [apply is_plan_returns_aux|]. intros e. apply transform_raise_kinds.
Qed.
End plan_facts.

(** ** Columns without a qualifier *)

Lemma find_identifiers_sound t x :
  x ∈ _recursive_find_identifiers t →
  ∃ nm, nm ∈ identifiers_of t ∧ x = (py_or_str (parent_name nm) "unknown", get_name nm).
Proof.
  revert x. induction t as [ty v|c nm ts IH] using token_tree_ind; intros x.
  { by intros ?%elem_of_nil. }
  cbn [_recursive_find_identifiers identifiers_of].
  assert (∀ s, s ∈ ts → x ∈ _recursive_find_identifiers s →
               ∃ nm', nm' ∈ (if decide (c = C_Identifier) then [nm] else [])
                              ++ flat_map identifiers_of ts ∧
                      x = (py_or_str (parent_name nm') "unknown", get_name nm')) as Hsub.
  { intros s Hs Hx. rewrite Forall_forall in IH.
    destruct (IH s Hs x Hx) as (nm' & Hnm' & ->). exists nm'. split; [|done].
    apply elem_of_app. right. apply list_elem_of_In, in_flat_map.
    exists s. split; by apply list_elem_of_In. }
  destruct (decide (c = C_Function)) as [->|Hf].
  - intros (s & Hs%list_elem_of_In & Hx%list_elem_of_In)%list_elem_of_In%in_flat_map.
    destruct (is_class C_Parenthesis s); [|by apply elem_of_nil in Hx]. by eapply Hsub.
  - intros [Hx|Hx]%elem_of_app.
    + destruct (decide (c = C_Identifier)); [|by apply elem_of_nil in Hx].
      apply list_elem_of_singleton in Hx. exists nm. split; [|done].
      apply elem_of_app. left. by left.
    + apply list_elem_of_In, in_flat_map in Hx as (s & Hs%list_elem_of_In & Hx%list_elem_of_In).
      by eapply Hsub.
Qed.

Lemma unqualified_alias ts t x :
  unqualified ts → t ∈ ts → x ∈ _recursive_find_identifiers t → x.1 = "unknown".
Proof.
  intros Hts Ht (nm & Hnm & ->)%find_identifiers_sound. simpl.
  unfold unqualified in Hts. rewrite Forall_forall in Hts.
  rewrite (Hts nm); [done|]. apply list_elem_of_In, in_flat_map.
  exists t. split; by apply list_elem_of_In.
Qed.

Lemma collect_usage_unqualified ts k x :
  unqualified ts → x ∈ usage_get (collect_usage ts) k → x.1 = "unknown".
Proof.
  intros Hts. destruct k; simpl.
  - intros (t & Ht & _ & Hx)%collect_usage_where. by eapply unqualified_alias.
  - intros (t & (l1 & t_on & l2 & l3 & Hsplit & _) & Hx)%collect_usage_join.
    eapply unqualified_alias; [done| |done]. rewrite Hsplit.
    apply elem_of_app. right. right. apply elem_of_app. right. by left.
  - intros (i & t & _ & _ & Hx)%collect_usage_order.
    destruct (token_next ts i) as [t'|] eqn:Hnext; [|by apply elem_of_nil in Hx].
    eapply unqualified_alias; [done| |done]. by eapply token_next_elem_of.
Qed.

Lemma build_table_to_cols_unresolved m wf :
  Forall (λ p : column_ref, resolve m p.1 = None) wf → build_table_to_cols m wf = [].
Proof.
  unfold build_table_to_cols. induction 1 as [|p wf Hp _ IH]; [done|].
  cbn [foldl].
  simpl in Hp.
  assert (group_step m [] p = []) as -> by (unfold group_step; by rewrite Hp).
  exact IH.
Qed.

Lemma foldM_single_unresolved m claimed k rt recs l :
  Forall (λ p : column_ref, resolve m p.1 = None) l →
  foldM (single_step m claimed k rt) recs l = Ok recs.
Proof.
  induction 1 as [|p l Hp _ IH]; [done|].
  simpl in Hp. cbn [foldM].
  assert (single_step m claimed k rt recs p = Ok recs) as ->.
  { unfold single_step. rewrite Hp. by case_decide. }
  exact IH.
Qed.

Lemma generate_traced_unresolved m u :
  (∀ k, Forall (λ p : column_ref, resolve m p.1 = None) (usage_get u k)) →
  generate_recommendations_traced m u = Ok [].
Proof.
  intros Hall.
  pose proof (Hall WhereFilters) as Hw. pose proof (Hall JoinKeys) as Hj.
  pose proof (Hall OrderBy) as Ho. cbn [usage_get] in Hw, Hj, Ho.
  assert (composite_phase m (where_filters u) = Ok ([], [])) as Hcomp.
  { unfold composite_phase. rewrite (build_table_to_cols_unresolved m _ Hw).
    by case_decide. }
  unfold generate_recommendations_traced. rewrite Hcomp.
  cbn [mbind result_bind foldM usage_types usage_get].
  rewrite (foldM_single_unresolved m _ _ _ _ _ Hw). cbn [mbind result_bind].
  rewrite (foldM_single_unresolved m _ _ _ _ _ Hj). cbn [mbind result_bind].
  by rewrite (foldM_single_unresolved m _ _ _ _ _ Ho).
Qed.

(** X21.  Columns written without a qualifier get no index.  A
    reference whose Identifier has no parent name is recorded under the
    alias [unknown], which the advisor looks up like any alias: if no
    Identifier of the statement is qualified and the advisor's alias
    table does not resolve [unknown], every response of the handler has
    an empty list of index recommendations. *)
Theorem unqualified_columns_get_no_index (sqlparse_parse : string → list Statement)
    (re : string → string → bool) (o : SetOrder) (model : option (Z → nat → string))
    (sql : string) (st : Statement) (rest : list Statement) (m : AliasTable)
    (resp : Response) :
  sqlparse_parse sql = st :: rest →
  unqualified (tokens st) →
  map_aliases_scan st = Ok m →
  resolve m "unknown" = None →
  analyze_query sqlparse_parse re o model sql = Ok resp →
  index_recommendations resp = [].
Proof.
  intros Hparse Hts Hm Hres.
  assert (first_statement sqlparse_parse sql = Ok st) as Hfs.
  { unfold first_statement. by rewrite Hparse. }
  unfold analyze_query, SQLParser_init. rewrite Hfs. cbn [mbind result_bind].
  set (p := {| raw_sql := sql; parsed := st |}).
  intros (r & (ts & u & _ & Hu & ->)%run_analysis_Ok & Hrest)%bind_Ok.
  revert Hrest. unfold IndexAdvisor_init, _map_aliases_to_tables.
  cbn [report_raw_sql with_raw_sql column_usage default from_option id].
  rewrite Hfs. cbn [mbind result_bind]. rewrite Hm. cbn [mbind result_bind].
  unfold generate_recommendations.
  cbn [alias_to_table_map advisor_column_usage].
  rewrite generate_traced_unresolved.
  - cbn [fmap result_fmap mbind result_bind]. intros [= <-]. by destruct model.
  - intros k. apply Forall_forall. intros x Hx.
    apply analyze_column_usage_Ok in Hu as ((P1 & _) & (P2 & _) & (P3 & _) & _).
    assert (x ∈ usage_get (collect_usage (tokens (parsed p))) k) as Hx'.
    { destruct k; cbn [usage_get] in Hx |- *;
        [by rewrite <-P1|by rewrite <-P2|by rewrite <-P3]. }
    by rewrite (collect_usage_unqualified _ _ _ Hts Hx').
Qed.

Lemma unqualified_columns_get_no_index_witness :
  ∃ resp,
    analyze_query (λ _, [parsed Cases.unqualified_where]) Examples.no_regex
                  Examples.insertion_order None (raw_sql Cases.unqualified_where) = Ok resp ∧
    index_recommendations resp = [].
Proof.
  eexists. split; [vm_compute; reflexivity|].
  apply (unqualified_columns_get_no_index (λ _, [parsed Cases.unqualified_where])
           Examples.no_regex Examples.insertion_order None
           (raw_sql Cases.unqualified_where) (parsed Cases.unqualified_where) []
           [(Some "users", Some "users")]).
  - reflexivity.
  - apply (bool_decide_unpack _). vm_compute. exact I.
  - vm_compute. reflexivity.
  - vm_compute. reflexivity.
  - vm_compute. reflexivity.
Defined.

(** ** The other two findings *)

(** X22.  [SELECT_STAR] is reported exactly when the statement kind is
    SELECT and some top-level token is normalized to a lone star (a
    star inside a group, an argument of COUNT or a member of a list of
    columns, is not looked at); [FUNCTION_ON_COLUMN_IN_WHERE] exactly when the first
    top-level WHERE node has a text on which the regular expression
    matches, whatever the statement kind. *)
Theorem star_and_function_findings (re : string → string → bool) (p : SQLParser) :
  (has_finding "SELECT_STAR" (detect_anti_patterns re p) ↔
   get_query_type p = "SELECT" ∧ ∃ t, t ∈ tokens (parsed p) ∧ normalized t = "*") ∧
  (has_finding "FUNCTION_ON_COLUMN_IN_WHERE" (detect_anti_patterns re p) ↔
   ∃ w, List.find (is_class C_Where) (tokens (parsed p)) = Some w ∧
        token_str w ≠ "" ∧ re function_on_column_pattern (token_str w) = true).
Proof.
  unfold has_finding, detect_anti_patterns, extract_where_clause.
  assert (existsb (λ t, bool_decide (normalized t = "*")) (tokens (parsed p)) = true ↔
          ∃ t, t ∈ tokens (parsed p) ∧ normalized t = "*") as Hstar.
  { rewrite existsb_elem_of. by setoid_rewrite bool_decide_eq_true. }
  set (w := List.find (is_class C_Where) (tokens (parsed p))).
  assert (truthy (token_str <$> w) && re function_on_column_pattern (default "" (token_str <$> w))
          = true ↔
          ∃ w', w = Some w' ∧ token_str w' ≠ "" ∧
                re function_on_column_pattern (token_str w') = true) as Hfun.
  { destruct w as [w'|]; simpl.
    - destruct (decide (token_str w' = "")) as [He|He]; simpl.
      + split; [done|]. by intros (? & [= <-] & ? & _).
      + split; [by exists w'|]. by intros (? & [= <-] & _ & ?).
    - split; [done|]. by intros (? & ? & _). }
  split; split.
  - intros (f & Hin & Hty). rewrite !elem_of_app in Hin. destruct Hin as [Hin|[Hin|Hin]].
    + destruct (bool_decide (get_query_type p = "SELECT")) eqn:Ek;
        [|by apply elem_of_nil in Hin].
      destruct (existsb _ _) eqn:Es; [|by apply elem_of_nil in Hin].
      split; [by apply bool_decide_eq_true in Ek|by apply Hstar].
    + case_match; [|by apply elem_of_nil in Hin].
      apply list_elem_of_singleton in Hin. by subst.
    + case_match; [|by apply elem_of_nil in Hin].
      apply list_elem_of_singleton in Hin. by subst.
  - intros [Hk Hs]. apply Hstar in Hs. rewrite Hs, (bool_decide_eq_true_2 _ Hk). simpl.
    eexists. split; [by left|reflexivity].
  - intros (f & Hin & Hty). rewrite !elem_of_app in Hin. destruct Hin as [Hin|[Hin|Hin]].
    + case_match; [|by apply elem_of_nil in Hin].
      apply list_elem_of_singleton in Hin. by subst.
    + case_match; [|by apply elem_of_nil in Hin].
      apply list_elem_of_singleton in Hin. by subst.
    + apply Hfun. by case_match; [|apply elem_of_nil in Hin].
  - intros Hw%Hfun. rewrite Hw. eexists.
    split; [rewrite !elem_of_app; right; right; by left|reflexivity].
Qed.

(** ** The theorems at the example statements *)

Lemma no_table_keyword_no_tables_witness :
  _get_tables_and_aliases Cases.update_all = Ok [] ∧
  map_aliases_scan (parsed Cases.update_all) = Ok [] ∧
  extract_tables Examples.insertion_order Cases.update_all = Ok [] ∧
  ∀ r, run_analysis Examples.insertion_order Examples.no_regex Cases.update_all = Ok r →
       tables r = [] ∧ join_count r = 0.
Proof.
  apply (no_table_keyword_no_tables Examples.insertion_order Examples.no_regex
           Cases.update_all).
  apply (bool_decide_unpack _). vm_compute. exact I.
Defined.

Lemma alias_scans_total_on_groups_witness :
  (∃ m, _get_tables_and_aliases Cases.from_list = Ok m) ∧
  (∃ m, map_aliases_scan (parsed Cases.from_list) = Ok m).
Proof.
  apply (proj2 (proj2 (alias_scans_total_on_groups Cases.from_list))).
  unfold lists_hold_groups. simpl. repeat constructor.
Defined.

Lemma extract_tables_sorted_witness :
  NoDup [Some "orders"; Some "users"] ∧
  ([Some "orders"; Some "users"] = [None] ∨
   ∃ ss, [Some "orders"; Some "users"] = Some <$> ss ∧ StronglySorted String.le ss).
Proof.
  apply (proj1 (extract_tables_sorted Examples.insertion_order Examples.composite_scenario)).
  vm_compute. reflexivity.
Defined.

Lemma advisor_holds_parser_aliases_witness :
  dict_keys Examples.users_orders ⊆ dict_keys Examples.users_orders.
Proof.
  apply (advisor_holds_parser_aliases Examples.composite_scenario
           Examples.users_orders Examples.users_orders).
  - apply (bool_decide_unpack _). vm_compute. exact I.
  - vm_compute. reflexivity.
  - vm_compute. reflexivity.
Defined.

Lemma extract_columns_identifiers_witness :
  NoDup [Some "a"; Some "b"; Some "id"; Some "name"; Some "user_id"] ∧
  ∀ n, n ∈ [Some "a"; Some "b"; Some "id"; Some "name"; Some "user_id"] ↔
       ∃ nm, nm ∈ flat_map identifiers_of (tokens (parsed Examples.composite_scenario)) ∧
             ¬ table_reference Examples.users_orders nm ∧ get_name nm = n.
Proof.
  apply (extract_columns_identifiers Examples.insertion_order Examples.composite_scenario
           Examples.users_orders).
  - vm_compute. reflexivity.
  - vm_compute. reflexivity.
Defined.

Lemma usage_buckets_sorted_witness :
  let u := Build_ColumnUsage (typed [("u", "a"); ("u", "b")])
                             (typed [("o", "user_id"); ("u", "id")]) [] [] in
  (NoDup (where_filters u) ∧ StronglySorted ref_le (where_filters u)) ∧
  (NoDup (join_keys u) ∧ StronglySorted ref_le (join_keys u)) ∧
  (NoDup (order_by u) ∧ StronglySorted ref_le (order_by u)) ∧
  (NoDup (group_by u) ∧ StronglySorted ref_le (group_by u)).
Proof.
  apply (usage_buckets_sorted Examples.insertion_order Examples.composite_scenario).
  vm_compute. reflexivity.
Defined.

Lemma usage_buckets_hold_witness :
  let u := Build_ColumnUsage (typed [("u", "a"); ("u", "b")])
                             (typed [("o", "user_id"); ("u", "id")]) [] [] in
  let ts := tokens (parsed Examples.composite_scenario) in
  let x := ("u", Some "a") in
  (x ∈ where_filters u ↔
   ∃ t, t ∈ ts ∧ is_class C_Where t = true ∧ x ∈ _recursive_find_identifiers t) ∧
  (x ∈ order_by u ↔
   ∃ i t, ts !! i = Some t ∧ introduces_order_by t = true ∧
          x ∈ find_identifiers_opt (token_next ts i)) ∧
  (x ∈ group_by u ↔
   ∃ i t, ts !! i = Some t ∧ introduces_group_by t = true ∧
          x ∈ find_identifiers_opt (token_next ts i)).
Proof.
  apply (usage_buckets_hold Examples.insertion_order Examples.composite_scenario).
  vm_compute. reflexivity.
Defined.

Lemma join_keys_first_comparison_witness :
  let u := Build_ColumnUsage (typed [("u", "a"); ("u", "b")])
                             (typed [("o", "user_id"); ("u", "id")]) [] [] in
  ("u", Some "id") ∈ join_keys u ↔
  ∃ t, first_comparison_after_on (tokens (parsed Examples.composite_scenario)) t ∧
       ("u", Some "id") ∈ _recursive_find_identifiers t.
Proof.
  apply (join_keys_first_comparison Examples.insertion_order Examples.composite_scenario).
  vm_compute. reflexivity.
Defined.

Lemma single_recommendation_iff_witness :
  let m := alias_to_table_map Examples.composite_advisor in
  let u := advisor_column_usage Examples.composite_advisor in
  ∃ recs,
    generate_recommendations_traced m u = Ok recs ∧
    generate_recommendations Examples.composite_advisor = Ok recs.*2 ∧
    ∀ k p r,
      (FromSingle k p, r) ∈ recs ↔
      p ∈ usage_get u k ∧ ¬ in_composite m (where_filters u) p ∧
      ∃ table c, resolve m p.1 = Some table ∧ p.2 = Some c ∧
                 r = single_rec k (reason_text k) table c.
Proof.
  apply (single_recommendation_iff Examples.composite_advisor); apply typed_has_column.
Defined.

Lemma composite_recommendation_iff_witness :
  let m := alias_to_table_map Examples.composite_advisor in
  let u := advisor_column_usage Examples.composite_advisor in
  ∃ recs,
    generate_recommendations_traced m u = Ok recs ∧
    generate_recommendations Examples.composite_advisor = Ok recs.*2 ∧
    ∀ table r,
      (FromComposite table, r) ∈ recs ↔
      (1 < length (resolved_to m table (where_filters u)))%nat ∧
      r = composite_rec table
            (merge_sort String.le (column_names (resolved_to m table (where_filters u)))).
Proof.
  apply (composite_recommendation_iff Examples.composite_advisor); apply typed_has_column.
Defined.

Lemma recommendations_in_append_order_witness :
  let m := alias_to_table_map Examples.composite_advisor in
  let u := advisor_column_usage Examples.composite_advisor in
  ∃ recs,
    generate_recommendations_traced m u = Ok recs ∧
    generate_recommendations Examples.composite_advisor = Ok recs.*2 ∧
    ∀ i j e1 e2, (i < j)%nat → recs !! i = Some e1 → recs !! j = Some e2 →
                 (origin_rank e1.1 ≤ origin_rank e2.1)%nat.
Proof.
  apply (recommendations_in_append_order Examples.composite_advisor);
    apply typed_has_column.
Defined.

Lemma same_statement_twice_witness :
  ∃ recs i j r1 r2,
    generate_recommendations Cases.twice_advisor = Ok recs ∧ i ≠ j ∧
    recs !! i = Some r1 ∧ recs !! j = Some r2 ∧ statement r1 = statement r2.
Proof.
  apply (same_statement_twice Cases.twice_advisor WhereFilters JoinKeys ("u", Some "id")).
  - apply typed_has_column.
  - apply typed_has_column.
  - apply typed_has_column.
  - discriminate.
  - simpl. left.
  - simpl. right. left.
  - vm_compute. eexists. reflexivity.
  - intros (_ & table & _ & Hlen).
    apply (Nat.lt_le_trans _ _
             (length (where_filters (advisor_column_usage Cases.twice_advisor)))) in Hlen;
      [|apply length_filter].
    simpl in Hlen. lia.
Defined.

Lemma union_suggestion_text_witness :
  let s := union_all_suggestion (raw_sql Examples.union_plain) in
  let raw := raw_sql Examples.union_plain in
  (∀ n, String.prefix "UNION" (str_drop n raw) = true →
        (∀ k, (k < n)%nat → String.prefix "UNION" (str_drop k raw) = false) →
        suggested_sql s = str_take n raw +:+ "UNION ALL" +:+ str_drop (n + 5) raw) ∧
  ((∀ k, String.prefix "UNION" (str_drop k raw) = false) → suggested_sql s = raw).
Proof.
  apply (union_suggestion_text Examples.union_plain
           (union_all_suggestion (raw_sql Examples.union_plain))).
  - vm_compute. left.
  - reflexivity.
Defined.

Lemma handler_reads_first_statement_witness :
  let sql := raw_sql Examples.composite_scenario in
  analyze_query Examples.tokenizer Examples.no_regex Examples.insertion_order None sql
  = analyze_query Cases.tokenizer_two Examples.no_regex Examples.insertion_order None sql ∧
  (Examples.tokenizer sql = [] →
   analyze_query Examples.tokenizer Examples.no_regex Examples.insertion_order None sql
   = Raise IndexError).
Proof.
  apply (handler_reads_first_statement Examples.tokenizer Cases.tokenizer_two).
  vm_compute. reflexivity.
Defined.

Lemma analyze_query_returns_witness :
  ∃ resp,
    analyze_query Examples.tokenizer Examples.no_regex Examples.insertion_order None
                  (raw_sql Examples.composite_scenario) = Ok resp.
Proof.
  apply (analyze_query_returns Examples.tokenizer Examples.no_regex Examples.insertion_order
           None (raw_sql Examples.composite_scenario)
           (parsed Examples.composite_scenario) []).
  - vm_compute. reflexivity.
  - apply (bool_decide_unpack _). vm_compute. exact I.
  - unfold tables_have_names. simpl. repeat econstructor.
Defined.

Lemma analysis_summary_returns_witness :
  ∃ s, get_analysis_summary Examples.insertion_order Examples.composite_scenario = Ok s ∧
       summary_where_clause s = extract_where_clause Examples.composite_scenario ∧
       ∀ re r, run_analysis Examples.insertion_order re Examples.composite_scenario = Ok r →
               summary_query_type s = query_type r ∧ summary_tables s = tables r.
Proof.
  apply (analysis_summary_returns Examples.insertion_order Examples.composite_scenario).
  - apply (bool_decide_unpack _). vm_compute. exact I.
  - unfold tables_have_names. simpl. repeat econstructor.
Defined.

Lemma transform_plan_returns_witness :
  ∃ out,
    PlanExplainer._transform_plan_node (λ _, "") Cases.hash_join = Ok out ∧
    Forall2 (λ raw child, PlanExplainer._transform_plan_node (λ _, "") raw = Ok child)
            (PlanExplainer.raw_children Cases.hash_join) (PlanExplainer.children out).
Proof.
  apply (proj1 (transform_plan_returns (λ _, "") Cases.hash_join)).
  eapply PlanExplainer.is_plan_inner; [reflexivity|].
  repeat first [apply Forall_nil_2 | apply Forall_cons_2
               | by apply PlanExplainer.is_plan_leaf
               | eapply PlanExplainer.is_plan_inner; [reflexivity|] ].
Defined.

(** [UPDATE] names its table without [FROM]: the report has no table
    and the advisor no recommendation for the column of the condition. *)
Example update_has_no_tables :
  (λ r, (tables (analysis r), index_recommendations r)) <$>
    analyze_query (λ _, [parsed Cases.update_all]) Examples.no_regex
                  Examples.insertion_order None (raw_sql Cases.update_all)
  = Ok ([], []).
Proof. by vm_compute. Qed.

(** The plan of the hash join: the relation names are dropped, the
    conditions kept as details. *)
Example hash_join_details :
  (λ out, (PlanExplainer.details out,
           PlanExplainer.details <$> PlanExplainer.children out)) <$>
    PlanExplainer._transform_plan_node (λ _, "") Cases.hash_join
  = Ok (["Hash Cond: (o.user_id = u.id)"], [[]; []]).
Proof. by vm_compute. Qed.

(** ** The advisor on a reference without a column name *)

Lemma resolved_to_resolved_only m table l :
  resolved_to m table (filter (λ q : column_ref, is_Some (resolve m q.1)) l)
  = resolved_to m table l.
Proof.
  unfold resolved_to. apply list_filter_filter_l. intros q Hres. by rewrite Hres.
Qed.

(** Composite suppresses singleton, whenever the references whose alias
    resolves have a column name: the statement of the specification
    holds on every such report, whatever the other references are. *)
Lemma composite_suppresses_singleton (a : IndexAdvisor) (table : string) :
  let m := alias_to_table_map a in
  let u := advisor_column_usage a in
  (∀ k q, q ∈ usage_get u k → is_Some (resolve m q.1) → has_column q) →
  (1 < length (resolved_to m table (where_filters u)))%nat →
  ∃ recs r cs,
    generate_recommendations_traced m u = Ok recs ∧
    generate_recommendations a = Ok recs.*2 ∧
    filter (λ e, e.1 = FromComposite table) recs = [(FromComposite table, r)] ∧
    Sorted String.le cs ∧
    cs ≡ₚ column_names (resolved_to m table (where_filters u)) ∧
    statement r = "CREATE INDEX idx_" +:+ table +:+ "_" +:+ String.concat "_" cs
                  +:+ " ON " +:+ table +:+ " (" +:+ String.concat ", " cs +:+ ");" ∧
    impact r = "High" ∧
    ∀ p k r', p ∈ resolved_to m table (where_filters u) → (FromSingle k p, r') ∉ recs.
Proof.
  intros m u Hcols Hbig.
  set (u' := filter_usage (λ q, is_Some (resolve m q.1)) u).
  assert (generate_recommendations_traced m u' = generate_recommendations_traced m u) as Heq.
  { apply generate_traced_filter. intros q Hq. destruct (resolve m q.1); [|done].
    destruct Hq. by eexists. }
  destruct (composite_suppresses_singleton_named m u' table)
    as (recs & r & cs & Hgen & Hone & Hsorted & Hperm & Hst & Himp & Hnone).
  - apply Forall_forall. intros q [Hq Hin]%list_elem_of_filter. by apply (Hcols WhereFilters).
  - apply Forall_forall. intros q [Hq Hin]%list_elem_of_filter. by apply (Hcols JoinKeys).
  - apply Forall_forall. intros q [Hq Hin]%list_elem_of_filter. by apply (Hcols OrderBy).
  - unfold u'. simpl. by rewrite resolved_to_resolved_only.
  - unfold u' in Hperm, Hnone. simpl in Hperm, Hnone.
    rewrite resolved_to_resolved_only in Hperm, Hnone. rewrite Heq in Hgen.
    exists recs, r, cs. split; [done|]. split; [|done].
    unfold generate_recommendations. fold m u. by rewrite Hgen.
Qed.

Lemma py_join_Ok_Some sep l j : py_join sep l = Ok j → Forall is_Some l.
Proof.
  unfold py_join. destruct (all_str l) as [ss|] eqn:E; [|done]. intros _.
  apply all_str_Some in E as ->. apply Forall_fmap, Forall_true. by eexists.
Qed.

Lemma composite_step_claimed_named st e st' :
  Forall has_column st.2 → composite_step st e = Ok st' → Forall has_column st'.2.
Proof.
  destruct st as [recs claimed], e as [t cols]. unfold composite_step. simpl.
  case_decide; [|by intros ? [= <-]].
  intros Hclaimed (sc & Hsc & (name & _ & (j & Hj & [= <-])%bind_Ok)%bind_Ok)%bind_Ok.
  simpl. apply foldl_set_add_Forall; [done|].
  apply py_join_Ok_Some in Hj. apply py_sorted_names_perm in Hsc. rewrite Hsc in Hj.
  rewrite Forall_fmap in Hj. eapply Forall_impl; [exact Hj|]. by intros p.
Qed.

Lemma composite_phase_claimed_named m wf comps claimed :
  composite_phase m wf = Ok (comps, claimed) → Forall has_column claimed.
Proof.
  unfold composite_phase. case_decide; [|by intros [= <- <-]].
  change claimed with (comps, claimed).2.
  apply (foldM_inv (λ st : advisor_state, Forall has_column st.2));
    [|by apply Forall_nil_2].
  intros ???. apply composite_step_claimed_named.
Qed.

Lemma single_step_Ok_named m claimed k rt recs q recs' :
  single_step m claimed k rt recs q = Ok recs' →
  q ∈ claimed ∨ resolve m q.1 = None ∨ has_column q.
Proof.
  unfold single_step. case_decide; [intros _; by left|].
  destruct (resolve m q.1) as [table|]; [|intros _; right; by left].
  intros (name & (j & Hj & _)%bind_Ok & _)%bind_Ok. right. right.
  apply py_join_Ok_Some in Hj. rewrite Forall_singleton in Hj. exact Hj.
Qed.

Lemma foldM_single_Ok_named m claimed k rt l recs recs' q :
  foldM (single_step m claimed k rt) recs l = Ok recs' → q ∈ l →
  q ∈ claimed ∨ resolve m q.1 = None ∨ has_column q.
Proof.
  revert recs. induction l as [|x l IH]; intros recs; [by intros _ ?%elem_of_nil|].
  cbn [foldM]. intros (recs1 & Hstep & Hrest)%bind_Ok [->|Hin]%elem_of_cons.
  - by eapply single_step_Ok_named.
  - by eapply IH.
Qed.

(** When the advisor returns, every reference whose alias resolves has
    a column name. *)
Lemma generate_traced_Ok_named m u recs k q :
  generate_recommendations_traced m u = Ok recs →
  q ∈ usage_get u k → is_Some (resolve m q.1) → has_column q.
Proof.
  unfold generate_recommendations_traced.
  intros ([comps claimed] & Hcomp & Hsingles)%bind_Ok Hin [table Hres].
  apply composite_phase_claimed_named in Hcomp. rewrite Forall_forall in Hcomp.
  cbn [foldM usage_types] in Hsingles.
  apply bind_Ok in Hsingles as (r1 & H1 & Hsingles).
  apply bind_Ok in Hsingles as (r2 & H2 & Hsingles).
  apply bind_Ok in Hsingles as (r3 & H3 & _).
  assert (q ∈ claimed ∨ resolve m q.1 = None ∨ has_column q) as [Hc|[Hn|Hh]].
  { destruct k; cbn [usage_get] in Hin.
    - exact (foldM_single_Ok_named _ _ _ _ _ _ _ q H1 Hin).
    - exact (foldM_single_Ok_named _ _ _ _ _ _ _ q H2 Hin).
    - exact (foldM_single_Ok_named _ _ _ _ _ _ _ q H3 Hin). }
  - by apply Hcomp.
  - congruence.
  - done.
Qed.

Lemma py_sorted_names_raise_kind l e : py_sorted_names l = Raise e → e = TypeError.
Proof. unfold py_sorted_names. repeat case_match; congruence. Qed.

Lemma py_join_raise_kind sep l e : py_join sep l = Raise e → e = TypeError.
Proof. unfold py_join. case_match; congruence. Qed.

Lemma composite_step_raise st x e : composite_step st x = Raise e → e = TypeError.
Proof.
  destruct st as [recs claimed], x as [t cols]. unfold composite_step, _generate_index_name.
  case_decide; [|done].
  destruct (py_sorted_names cols.*2) as [sc|e1] eqn:E1; simpl;
    [|intros [= <-]; by eapply py_sorted_names_raise_kind].
  destruct (py_join "_" sc) as [j1|e2] eqn:E2; simpl;
    [|intros [= <-]; by eapply py_join_raise_kind].
  destruct (py_join ", " sc) as [j2|e3] eqn:E3; simpl;
    [done|intros [= <-]; by eapply py_join_raise_kind].
Qed.

Lemma single_step_raise m claimed k rt recs q e :
  single_step m claimed k rt recs q = Raise e → e = TypeError.
Proof.
  unfold single_step, _generate_index_name. case_decide; [done|].
  destruct (resolve m q.1); [|done].
  destruct (py_join "_" [q.2]) as [j|e1] eqn:E; simpl;
    [done|intros [= <-]; by eapply py_join_raise_kind].
Qed.

(** The advisor fails in one way only. *)
Lemma generate_traced_raise m u e :
  generate_recommendations_traced m u = Raise e → e = TypeError.
Proof.
  unfold generate_recommendations_traced.
  destruct (composite_phase m (where_filters u)) as [[comps claimed]|e0] eqn:Hcomp;
    cbn [mbind result_bind].
  - apply foldM_raise_inv. intros recs [k rt] e1.
    apply foldM_raise_inv. intros ???. apply single_step_raise.
  - intros [= <-]. unfold composite_phase in Hcomp. case_decide; [|done].
    revert Hcomp. apply foldM_raise_inv. intros ???. apply composite_step_raise.
Qed.

(** A reference without a column name whose alias resolves, in any of
    the three buckets the advisor reads, makes it raise [TypeError]. *)
Lemma advisor_raises_on_nameless_reference (a : IndexAdvisor) (k : usage_type)
    (q : column_ref) :
  q ∈ usage_get (advisor_column_usage a) k →
  is_Some (resolve (alias_to_table_map a) q.1) → q.2 = None →
  generate_recommendations a = Raise TypeError.
Proof.
  set (m := alias_to_table_map a). set (u := advisor_column_usage a).
  intros Hin Hres Hnone. unfold generate_recommendations. fold m u.
  destruct (generate_recommendations_traced m u) as [recs|e] eqn:Hgen; simpl.
  - destruct (generate_traced_Ok_named m u recs k q Hgen Hin Hres) as [c Hc]. congruence.
  - by rewrite (generate_traced_raise m u e Hgen).
Qed.

(** C1.  Composite suppresses singleton, or nothing is returned.  Take
    any report in which more than one reference of [where_filters]
    resolves to [table].  If every reference of [where_filters],
    [join_keys] and [order_by] whose alias resolves has a column name,
    the advisor returns, exactly one of its recommendations was appended
    by the composite loop for [table], with the columns of these
    references in sorted order in the stated statement and impact
    [High], and none was appended by the single-column loop for any of
    these references.  If some such reference has no column name (the
    classifier records one for [ORDER BY 2 DESC]), the advisor raises
    [TypeError] and returns no recommendation, the composite one
    included. *)
Theorem C1_composite_or_type_error (a : IndexAdvisor) (table : string) :
  let m := alias_to_table_map a in
  let u := advisor_column_usage a in
  (1 < length (resolved_to m table (where_filters u)))%nat →
  ((∀ k q, q ∈ usage_get u k → is_Some (resolve m q.1) → has_column q) →
   ∃ recs r cs,
     generate_recommendations_traced m u = Ok recs ∧
     generate_recommendations a = Ok recs.*2 ∧
     filter (λ e, e.1 = FromComposite table) recs = [(FromComposite table, r)] ∧
     Sorted String.le cs ∧
     cs ≡ₚ column_names (resolved_to m table (where_filters u)) ∧
     statement r = "CREATE INDEX idx_" +:+ table +:+ "_" +:+ String.concat "_" cs
                   +:+ " ON " +:+ table +:+ " (" +:+ String.concat ", " cs +:+ ");" ∧
     impact r = "High" ∧
     ∀ p k r', p ∈ resolved_to m table (where_filters u) → (FromSingle k p, r') ∉ recs) ∧
  (∀ k q, q ∈ usage_get u k → is_Some (resolve m q.1) → q.2 = None →
          generate_recommendations a = Raise TypeError).
Proof.
  intros m u Hbig. split.
  - intros Hcols. by apply composite_suppresses_singleton.
  - intros k q. apply advisor_raises_on_nameless_reference.
Qed.

Lemma C1_composite_or_type_error_witness :
  (∃ recs r cs,
     generate_recommendations_traced Examples.users_orders
       (advisor_column_usage Examples.composite_advisor) = Ok recs ∧
     generate_recommendations Examples.composite_advisor = Ok recs.*2 ∧
     filter (λ e, e.1 = FromComposite "users") recs = [(FromComposite "users", r)] ∧
     Sorted String.le cs ∧
     cs ≡ₚ column_names (resolved_to Examples.users_orders "users"
                                      (typed [("u", "a"); ("u", "b")])) ∧
     statement r = "CREATE INDEX idx_" +:+ "users" +:+ "_" +:+ String.concat "_" cs
                   +:+ " ON " +:+ "users" +:+ " (" +:+ String.concat ", " cs +:+ ");" ∧
     impact r = "High" ∧
     ∀ p k r', p ∈ resolved_to Examples.users_orders "users" (typed [("u", "a"); ("u", "b")]) →
               (FromSingle k p, r') ∉ recs) ∧
  generate_recommendations Examples.nameless_order_advisor = Raise TypeError.
Proof.
  split.
  - refine (proj1 (C1_composite_or_type_error Examples.composite_advisor "users" _) _).
    + vm_compute. lia.
    + intros k q Hin _. destruct k; cbn in Hin;
        repeat (apply elem_of_cons in Hin as [->|Hin]; [by eexists|]);
        by apply elem_of_nil in Hin.
  - refine (proj2 (C1_composite_or_type_error Examples.nameless_order_advisor "users" _)
                  OrderBy ("unknown", None) _ _ _).
    + vm_compute. lia.
    + left.
    + vm_compute. eexists. reflexivity.
    + reflexivity.
Defined.

(** On that report the composite loop has appended its recommendation
    when the single-column loop fails, and without the reference of
    [order_by] the advisor returns it. *)
Example composite_appended_then_lost :
  composite_phase (alias_to_table_map Examples.nameless_order_advisor)
                  (where_filters (advisor_column_usage Examples.nameless_order_advisor))
  = Ok ([(FromComposite "users", composite_rec "users" ["a"; "b"])],
        typed [("u", "a"); ("u", "b")]) ∧
  generate_recommendations Examples.nameless_order_advisor = Raise TypeError ∧
  generate_recommendations
    (with_usage Examples.nameless_order_advisor
       (without_ref ("unknown", None)
          (advisor_column_usage Examples.nameless_order_advisor)))
  = Ok [composite_rec "users" ["a"; "b"]].
Proof. by vm_compute. Qed.
